(** * WebVideoCreator: a shallow embedding of the capture and synthesis core

    The development follows [src/index.cjs].  JavaScript numbers are
    embedded as rationals extended with [+Infinity], [-Infinity] and
    [NaN]; the sign of zero is not represented.  The control flow of the
    guards ([isNaN], [_.isFinite], [<=], division by zero) is the one of
    the source.  The two conversions of [util] between durations and frame
    counts round each of their operations to binary64 ([JS.round64],
    [JS.div64], [JS.mul64]), since their results depend on the rounding;
    the virtual clock of the page and the timeline of the synthesizers
    add and compare the rationals as they are.  Function values
    (callbacks, time actions) are opaque references; the chunks and the
    audios that a synthesizer shares with its caller are objects of a
    store, named by reference. *)

From Stdlib Require Import ZArith QArith Qcanon Qround Qpower Lia Lqa Sorting.Sorted.
From Stdlib Require Import Strings.String Strings.Ascii Strings.Byte.
From Stdlib Require Import Decimal DecimalNat DecimalZ DecimalString.
From stdpp Require Import gmap list.

Set Default Proof Using "Type".

(** ** Results of fallible code *)

Inductive result (A : Type) : Type :=
| Ok (a : A)
| Throw (message : string).
Arguments Ok {A} a.
Arguments Throw {A} message.

Definition bind {A B : Type} (r : result A) (k : A -> result B) : result B :=
  match r with
  | Ok a => k a
  | Throw m => Throw m
  end.

Notation "'do' x <- r ; k" := (bind r (fun x => k))
  (at level 10, x name, r at level 100, k at level 200).

(** [assert(cond, message)] of node's [assert] module and of [innerUtil]. *)
Definition assert (cond : bool) (message : string) : result unit :=
  if cond then Ok tt else Throw message.

(** ** JavaScript numbers and values *)

Module JS.

Inductive num : Type :=
| Fin (q : Qc)
| PInf
| NInf
| NaN.

Definition Qc_leb (a b : Qc) : bool := Qle_bool a b.
Definition Qc_ltb (a b : Qc) : bool := negb (Qle_bool b a).

Definition zero : num := Fin 0%Qc.
Definition of_Z (z : Z) : num := Fin (Q2Qc (inject_Z z)).

Definition isNaN_num (x : num) : bool :=
  match x with NaN => true | _ => false end.

Definition isFinite_num (x : num) : bool :=
  match x with Fin _ => true | _ => false end.

Definition neg (x : num) : num :=
  match x with
  | Fin q => Fin (- q)%Qc
  | PInf => NInf
  | NInf => PInf
  | NaN => NaN
  end.

Definition add (x y : num) : num :=
  match x, y with
  | NaN, _ | _, NaN => NaN
  | Fin a, Fin b => Fin (a + b)%Qc
  | PInf, NInf | NInf, PInf => NaN
  | PInf, _ | _, PInf => PInf
  | NInf, _ | _, NInf => NInf
  end.

Definition sub (x y : num) : num := add x (neg y).

(** Sign of a rational as the infinity it selects ([0] selects [NaN]). *)
Definition signed_inf (q : Qc) (pos : num) (negv : num) : num :=
  match (q ?= 0)%Qc with
  | Gt => pos
  | Lt => negv
  | Eq => NaN
  end.

Definition mul (x y : num) : num :=
  match x, y with
  | NaN, _ | _, NaN => NaN
  | Fin a, Fin b => Fin (a * b)%Qc
  | Fin a, PInf | PInf, Fin a => signed_inf a PInf NInf
  | Fin a, NInf | NInf, Fin a => signed_inf a NInf PInf
  | PInf, PInf | NInf, NInf => PInf
  | PInf, NInf | NInf, PInf => NInf
  end.

(** Division; a zero divisor is taken as [+0]. *)
Definition div (x y : num) : num :=
  match x, y with
  | NaN, _ | _, NaN => NaN
  | Fin a, Fin b =>
      if Qc_eq_bool b 0 then signed_inf a PInf NInf else Fin (a / b)%Qc
  | Fin _, PInf | Fin _, NInf => zero
  | PInf, Fin b => if Qc_leb 0 b then PInf else NInf
  | NInf, Fin b => if Qc_leb 0 b then NInf else PInf
  | _, _ => NaN
  end.

(** *** binary64

    [round64 q] is the binary64 number nearest to the rational [q], ties
    going to the even significand: 53 bits of significand, the exponent
    of the last place no lower than -1074 (subnormal numbers), and
    [Infinity] from [2^1024] on. *)
Definition pow2 (e : Z) : Q := (2 ^ e)%Q.

(** The integer nearest to [x], the even one of two that are as near. *)
Definition nearest_even (x : Q) : Z :=
  let f := Qfloor x in
  match (x - inject_Z f ?= 1 # 2)%Q with
  | Lt => f
  | Gt => (f + 1)%Z
  | Eq => if Z.even f then f else (f + 1)%Z
  end.

(** [floor(log2 q)] for a positive [q]. *)
Definition ilog2 (q : Q) : Z :=
  let k := (Z.log2 (Qnum q) - Z.log2 (Zpos (Qden q)))%Z in
  if Qle_bool (pow2 k) q then k else (k - 1)%Z.

(** The rounding of a positive [q], before the test of overflow. *)
Definition nearest64 (q : Q) : Q :=
  let e := Z.max (ilog2 q - 52) (-1074) in
  (inject_Z (nearest_even (q / pow2 e)) * pow2 e)%Q.

Definition round64 (q : Qc) : num :=
  match (q ?= 0)%Qc with
  | Eq => Fin 0%Qc
  | Gt => let r := nearest64 q in
          if Qle_bool (pow2 1024) r then PInf else Fin (Q2Qc r)
  | Lt => let r := nearest64 (- q) in
          if Qle_bool (pow2 1024) r then NInf else Fin (Q2Qc (- r))
  end.

Definition round_num (x : num) : num :=
  match x with
  | Fin q => round64 q
  | _ => x
  end.

(** [x / y] and [x * y] on binary64 numbers: the exact result, rounded. *)
Definition div64 (x y : num) : num := round_num (div x y).
Definition mul64 (x y : num) : num := round_num (mul x y).

(** [x % y]: the remainder has the sign of the dividend. *)
Definition Qtrunc (q : Q) : Z :=
  if Qle_bool 0 q then Qfloor q else Qceiling q.

Definition rem (x y : num) : num :=
  match x, y with
  | Fin a, Fin b =>
      if Qc_eq_bool b 0 then NaN
      else Fin (a - b * Q2Qc (inject_Z (Qtrunc (a / b)%Qc)))%Qc
  | Fin a, PInf | Fin a, NInf => Fin a
  | _, _ => NaN
  end.

Definition ltb (x y : num) : bool :=
  match x, y with
  | NaN, _ | _, NaN => false
  | Fin a, Fin b => Qc_ltb a b
  | NInf, NInf | PInf, _ => false
  | NInf, _ | _, PInf => true
  | Fin _, NInf => false
  end.

Definition leb (x y : num) : bool :=
  match x, y with
  | NaN, _ | _, NaN => false
  | Fin a, Fin b => Qc_leb a b
  | NInf, _ | _, PInf => true
  | PInf, _ | Fin _, NInf => false
  end.

Definition gtb (x y : num) : bool := ltb y x.
Definition geb (x y : num) : bool := leb y x.

(** [x === y] on numbers. *)
Definition eqb (x y : num) : bool :=
  match x, y with
  | Fin a, Fin b => Qc_eq_bool a b
  | PInf, PInf | NInf, NInf => true
  | _, _ => false
  end.

(** [Math.floor]. *)
Definition floor (x : num) : num :=
  match x with
  | Fin q => of_Z (Qfloor q)
  | _ => x
  end.

(** [Math.min] of two numbers. *)
Definition min (x y : num) : num :=
  match x, y with
  | NaN, _ | _, NaN => NaN
  | _, _ => if leb x y then x else y
  end.

(** Truthiness of a number: [0] and [NaN] are falsy. *)
Definition truthy_num (x : num) : bool :=
  match x with
  | Fin q => negb (Qc_eq_bool q 0)
  | NaN => false
  | _ => true
  end.

(** The values that reach the numeric options of the API: a number, or
    one of the two empty values. *)
Inductive value : Type :=
| Undefined
| Null
| Num (n : num).

Definition ToNumber (v : value) : num :=
  match v with
  | Undefined => NaN
  | Null => zero
  | Num n => n
  end.

(** The global [isNaN] coerces its argument. *)
Definition isNaN (v : value) : bool := isNaN_num (ToNumber v).

Definition truthy (v : value) : bool :=
  match v with
  | Num n => truthy_num n
  | _ => false
  end.

(** [a || b]. *)
Definition or_else (a b : value) : value := if truthy a then a else b.

(** Relational operators coerce both sides. *)
Definition v_ltb (a b : value) : bool := ltb (ToNumber a) (ToNumber b).
Definition v_leb (a b : value) : bool := leb (ToNumber a) (ToNumber b).
Definition v_geb (a b : value) : bool := geb (ToNumber a) (ToNumber b).

End JS.

(** ** lodash predicates *)

Module Lodash.
Import JS.

(** [_.isFinite]: a number primitive that is finite, no coercion. *)
Definition isFinite (v : value) : bool :=
  match v with
  | Num n => isFinite_num n
  | _ => false
  end.

(** [_.isNumber]: any number primitive, [NaN] and infinities included. *)
Definition isNumber (v : value) : bool :=
  match v with
  | Num _ => true
  | _ => false
  end.

Definition isUndefined (v : value) : bool :=
  match v with
  | Undefined => true
  | _ => false
  end.

(** [_.defaultTo]: the default replaces [NaN], [null] and [undefined]. *)
Definition defaultTo (v d : value) : value :=
  match v with
  | Undefined | Null | Num NaN => d
  | _ => v
  end.

End Lodash.

(** ** util (host side) *)

Module Util.
Import JS.

(** [Math.floor(duration / 1000 * fps)]: the division is rounded, then
    the product. *)
Definition durationToFrameCount (duration fps : value) : result num :=
  do _ <- assert (Lodash.isFinite duration) "duration must be number";
  do _ <- assert (Lodash.isFinite fps) "fps must be number";
  Ok (floor (mul64 (div64 (ToNumber duration) (of_Z 1000)) (ToNumber fps))).

(** [frameCount / fps]. *)
Definition frameCountToDuration (frameCount fps : value) : result num :=
  do _ <- assert (Lodash.isFinite frameCount) "duration must be number";
  do _ <- assert (Lodash.isFinite fps) "fps must be number";
  Ok (div64 (ToNumber frameCount) (ToNumber fps)).

End Util.

(** ** innerUtil (page side) *)

Module InnerUtil.
Import JS.

(** [isNumber(value) { return !isNaN(value); }] *)
Definition isNumber (v : value) : bool := negb (isNaN v).

Definition isUndefined (v : value) : bool :=
  match v with
  | Undefined => true
  | _ => false
  end.

End InnerUtil.

(** ** VideoCanvas: the scheduling predicates of a dispatch media *)

Module VideoCanvas.
Import JS.

Record t : Type := mk {
  startTime : value;
  endTime : value;
  offsetTime : value;
  destoryed : bool;
  (** [isReady()]: the decoder exists and is configured. *)
  ready : bool;
  (** What [load()] answers when it is called on this media. *)
  loads : bool
}.

(** The assertions of the constructor on the two time points. *)
Definition constructor (startTime endTime : value) (loads : bool) : result t :=
  do _ <- assert (InnerUtil.isNumber startTime) "startTime must be number";
  do _ <- assert (InnerUtil.isNumber endTime) "endTime must be number";
  Ok (mk startTime endTime Undefined false false loads).

(** [canPlay(time)]; [None] is the [undefined] of the bare [return]. *)
Definition canPlay (m : t) (time : num) : option bool :=
  if destoryed m then None
  else if ltb time (ToNumber (startTime m)) || geb time (ToNumber (endTime m))
  then Some false
  else Some true.

Definition canDestory (m : t) (time : num) : bool :=
  if destoryed m then false
  else geb time (ToNumber (endTime m)).

Definition isReady (m : t) : bool := ready m.

Definition destory (m : t) : t :=
  mk (startTime m) (endTime m) (offsetTime m) true false (loads m).

(** [load()]: a failed load destroys the media and answers [false]. *)
Definition load (m : t) : t * bool :=
  if loads m
  then (mk (startTime m) (endTime m) (offsetTime m) (destoryed m) true true, true)
  else (destory m, false).

End VideoCanvas.

(** ** CaptureContext: the virtual clock, the timer shim and the capture loop *)

Module CaptureContext.
Import JS.

(** A function value is known by its reference only. *)
Definition fnref : Type := string.

(** What may stand in the callback position of [setTimeout]/[setInterval]. *)
Inductive arg : Type :=
| Fun (f : fnref)
| Val (v : value).

Record Config : Type := mkConfig {
  fps : value;
  startTime : value;
  duration : value;
  frameCount : value;
  (** Only the truthiness of [autostart] is read. *)
  autostart : bool
}.

(** One queue entry [[timerId, timestamp, interval, fn]]. *)
Record timer : Type := mkTimer {
  tid : Z;
  timestamp : value;
  delay : value;
  fn : fnref
}.

(** What leaves the context: tasks posted on the real event loop through
    the preserved originals, and calls of the functions the host exposes. *)
Inductive effect : Type :=
| RealSetTimeout (f : fnref) (argument : value)
| RealClearInterval (id : num)
| RealClearTimeout (id : num)
| MediaDestory (index : nat)
| MediaSeek (index : nat) (time : num)
| SeekCSSAnimations (time : num)
| SeekTimeActions (time : num)
| CaptureFrame
| SkipFrame
| ScreencastCompleted.

Record t : Type := mk {
  currentTime : num;
  frameIndex : Z;
  frameInterval : num;
  readyFlag : bool;
  startFlag : bool;
  stopFlag : bool;
  pauseFlag : bool;
  (** [readyCallback] is set when [start()] ran before [ready()]. *)
  readyCallback : bool;
  intervalCallbacks : list timer;
  timeoutCallbacks : list timer;
  timerId : Z;
  config : Config;
  dispatchMedias : list VideoCanvas.t
}.

Definition initial : t :=
  mk zero 0 zero false false false false false [] [] 0
     (mkConfig Null (Num zero) Null Null false) [].

Definition with_currentTime (x : num) (c : t) : t :=
  mk x (frameIndex c) (frameInterval c) (readyFlag c) (startFlag c) (stopFlag c)
     (pauseFlag c) (readyCallback c) (intervalCallbacks c) (timeoutCallbacks c)
     (timerId c) (config c) (dispatchMedias c).
Definition with_frameIndex (x : Z) (c : t) : t :=
  mk (currentTime c) x (frameInterval c) (readyFlag c) (startFlag c) (stopFlag c)
     (pauseFlag c) (readyCallback c) (intervalCallbacks c) (timeoutCallbacks c)
     (timerId c) (config c) (dispatchMedias c).
Definition with_frameInterval (x : num) (c : t) : t :=
  mk (currentTime c) (frameIndex c) x (readyFlag c) (startFlag c) (stopFlag c)
     (pauseFlag c) (readyCallback c) (intervalCallbacks c) (timeoutCallbacks c)
     (timerId c) (config c) (dispatchMedias c).
Definition with_readyFlag (x : bool) (c : t) : t :=
  mk (currentTime c) (frameIndex c) (frameInterval c) x (startFlag c) (stopFlag c)
     (pauseFlag c) (readyCallback c) (intervalCallbacks c) (timeoutCallbacks c)
     (timerId c) (config c) (dispatchMedias c).
Definition with_startFlag (x : bool) (c : t) : t :=
  mk (currentTime c) (frameIndex c) (frameInterval c) (readyFlag c) x (stopFlag c)
     (pauseFlag c) (readyCallback c) (intervalCallbacks c) (timeoutCallbacks c)
     (timerId c) (config c) (dispatchMedias c).
Definition with_stopFlag (x : bool) (c : t) : t :=
  mk (currentTime c) (frameIndex c) (frameInterval c) (readyFlag c) (startFlag c) x
     (pauseFlag c) (readyCallback c) (intervalCallbacks c) (timeoutCallbacks c)
     (timerId c) (config c) (dispatchMedias c).
Definition with_pauseFlag (x : bool) (c : t) : t :=
  mk (currentTime c) (frameIndex c) (frameInterval c) (readyFlag c) (startFlag c)
     (stopFlag c) x (readyCallback c) (intervalCallbacks c) (timeoutCallbacks c)
     (timerId c) (config c) (dispatchMedias c).
Definition with_readyCallback (x : bool) (c : t) : t :=
  mk (currentTime c) (frameIndex c) (frameInterval c) (readyFlag c) (startFlag c)
     (stopFlag c) (pauseFlag c) x (intervalCallbacks c) (timeoutCallbacks c)
     (timerId c) (config c) (dispatchMedias c).
Definition with_intervalCallbacks (x : list timer) (c : t) : t :=
  mk (currentTime c) (frameIndex c) (frameInterval c) (readyFlag c) (startFlag c)
     (stopFlag c) (pauseFlag c) (readyCallback c) x (timeoutCallbacks c)
     (timerId c) (config c) (dispatchMedias c).
Definition with_timeoutCallbacks (x : list timer) (c : t) : t :=
  mk (currentTime c) (frameIndex c) (frameInterval c) (readyFlag c) (startFlag c)
     (stopFlag c) (pauseFlag c) (readyCallback c) (intervalCallbacks c) x
     (timerId c) (config c) (dispatchMedias c).
Definition with_timerId (x : Z) (c : t) : t :=
  mk (currentTime c) (frameIndex c) (frameInterval c) (readyFlag c) (startFlag c)
     (stopFlag c) (pauseFlag c) (readyCallback c) (intervalCallbacks c)
     (timeoutCallbacks c) x (config c) (dispatchMedias c).
Definition with_config (x : Config) (c : t) : t :=
  mk (currentTime c) (frameIndex c) (frameInterval c) (readyFlag c) (startFlag c)
     (stopFlag c) (pauseFlag c) (readyCallback c) (intervalCallbacks c)
     (timeoutCallbacks c) (timerId c) x (dispatchMedias c).
Definition with_dispatchMedias (x : list VideoCanvas.t) (c : t) : t :=
  mk (currentTime c) (frameIndex c) (frameInterval c) (readyFlag c) (startFlag c)
     (stopFlag c) (pauseFlag c) (readyCallback c) (intervalCallbacks c)
     (timeoutCallbacks c) (timerId c) (config c) x.

(** *** The timer shim of [_timeVirtualizationRewrite] *)

(** [window.setInterval = (fn, interval) => ...]; [None] is [undefined]. *)
Definition setInterval (c : t) (f : arg) (interval : value) : t * option Z :=
  match f with
  | Val _ => (c, None)
  | Fun g =>
      if isNaN interval then (c, None)
      else
        let id := (timerId c - 1)%Z in
        let entry := mkTimer id (Num (currentTime c)) interval g in
        (with_intervalCallbacks (intervalCallbacks c ++ [entry]) (with_timerId id c),
         Some id)
  end.

(** [window.setTimeout = (fn, timeout = 0) => ...]. *)
Definition setTimeout (c : t) (f : arg) (timeout : value) : t * option Z :=
  let timeout := match timeout with Undefined => Num zero | _ => timeout end in
  match f with
  | Val _ => (c, None)
  | Fun g =>
      if isNaN timeout then (c, None)
      else
        let id := (timerId c - 1)%Z in
        let entry := mkTimer id (Num (currentTime c)) timeout g in
        (with_timeoutCallbacks (timeoutCallbacks c ++ [entry]) (with_timerId id c),
         Some id)
  end.

(** The filter of both [clear] functions: drop the entries whose id [==]
    the argument. *)
Definition drop_timer (id : num) (q : list timer) : list timer :=
  List.filter (fun e => negb (eqb (of_Z (tid e)) id)) q.

Definition clearInterval (c : t) (id : value) : t * list effect :=
  if negb (truthy id) then (c, [])
  else if geb (ToNumber id) zero then (c, [RealClearInterval (ToNumber id)])
  else (with_intervalCallbacks (drop_timer (ToNumber id) (intervalCallbacks c)) c, []).

Definition clearTimeout (c : t) (id : value) : t * list effect :=
  if negb (truthy id) then (c, [])
  else if geb (ToNumber id) zero then (c, [RealClearTimeout (ToNumber id)])
  else (with_timeoutCallbacks (drop_timer (ToNumber id) (timeoutCallbacks c)) c, []).

(** [currentTime < timestamp + interval]: the entry is not due yet. *)
Definition pending (now : value) (e : timer) : bool :=
  ltb (ToNumber now) (add (ToNumber (timestamp e)) (ToNumber (delay e))).

(** The [for] loop of [_callIntervalCallbacks], [n] iterations left at
    index [i]: a due entry has its timestamp overwritten in place and its
    callback posted on the real event loop. *)
Fixpoint intervalLoop (n i : nat) (now : value) (q : list timer)
    (out : list effect) : list timer * list effect :=
  match n with
  | O => (q, out)
  | S n' =>
      match q !! i with
      | None => (q, out)
      | Some e =>
          if pending now e then intervalLoop n' (S i) now q out
          else
            intervalLoop n' (S i) now
              (<[i := mkTimer (tid e) now (delay e) (fn e)]> q)
              (out ++ [RealSetTimeout (fn e) now])
      end
  end.

Definition _callIntervalCallbacks (c : t) (now : value) : t * list effect :=
  let '(q, out) :=
    intervalLoop (length (intervalCallbacks c)) 0 now (intervalCallbacks c) [] in
  (with_intervalCallbacks q c, out).

(** The filter of [_callTimeoutCallbacks]: a due entry is posted and
    dropped, in queue order. *)
Fixpoint timeoutFilter (now : value) (q : list timer) : list timer * list effect :=
  match q with
  | [] => ([], [])
  | e :: rest =>
      let '(kept, out) := timeoutFilter now rest in
      if pending now e then (e :: kept, out)
      else (kept, RealSetTimeout (fn e) now :: out)
  end.

Definition _callTimeoutCallbacks (c : t) (now : value) : t * list effect :=
  let '(q, out) := timeoutFilter now (timeoutCallbacks c) in
  (with_timeoutCallbacks q c, out).

(** [init()]: both dispatchers run without an argument. *)
Definition init (c : t) : t * list effect :=
  let '(c1, e1) := _callTimeoutCallbacks c Undefined in
  let '(c2, e2) := _callIntervalCallbacks c1 Undefined in
  (c2, e1 ++ e2).

(** One round of [dispatchBeforeStart] once the context is ready;
    [now] is [performance.____now() - readyTime]. *)
Definition dispatchBeforeStart (c : t) (now : num) : t * list effect :=
  if startFlag c then (c, [])
  else if readyFlag c then
    let '(c1, e1) := _callTimeoutCallbacks c (Num now) in
    let '(c2, e2) := _callIntervalCallbacks c1 (Num now) in
    (c2, e1 ++ e2)
  else (c, []).

(** *** The capture loop *)

Definition isCapturing (c : t) : bool :=
  geb (currentTime c) (ToNumber (or_else (startTime (config c)) (Num zero))).

(** [_checkConfig()]; the messages leave out the interpolated value. *)
Definition _checkConfig (c : t) : result unit :=
  let cfg := config c in
  if isNaN (fps cfg) || v_leb (fps cfg) (Num zero)
  then Throw "config fps is invalid"
  else if isNaN (duration cfg) || v_leb (duration cfg) (Num zero)
  then Throw "config duration is invalid"
  else if isNaN (frameCount cfg) || v_leb (frameCount cfg) (Num zero)
  then Throw "config frameCount is invalid"
  else Ok tt.

(** The scheduler step of one media at virtual time [now]. *)
Definition dispatchMedia (now : num) (index : nat) (m : VideoCanvas.t)
    : VideoCanvas.t * list effect :=
  if VideoCanvas.canDestory m now then (VideoCanvas.destory m, [MediaDestory index])
  else
    match VideoCanvas.canPlay m now with
    | Some true =>
        let '(m', ok) :=
          if VideoCanvas.isReady m then (m, true) else VideoCanvas.load m in
        if ok then
          let mediaCurrentTime :=
            sub (sub now (ToNumber (VideoCanvas.startTime m)))
                (ToNumber (or_else (VideoCanvas.offsetTime m) (Num zero))) in
          (m', [MediaSeek index
                  (if gtb mediaCurrentTime zero then mediaCurrentTime else zero)])
        else (m', [])
    | _ => (m, [])
    end.

Fixpoint dispatchAll (now : num) (index : nat) (ms : list VideoCanvas.t)
    : list VideoCanvas.t * list effect :=
  match ms with
  | [] => ([], [])
  | m :: rest =>
      let '(m', e) := dispatchMedia now index m in
      let '(rest', e') := dispatchAll now (S index) rest in
      (m' :: rest', e ++ e')
  end.

(** How one pass of [nextFrame] ends. *)
Inductive status : Type :=
| Continue        (** [nextFrame.bind(this)()]: another pass is posted *)
| Completed       (** [____screencastCompleted()] was called *)
| CaptureFailed   (** [____captureFrame()] answered [false]: silent stop *)
| AwaitResume.    (** parked on the pause promise *)

(** The part of a pass after the pause gate. *)
Definition afterCapture (c : t) : t * list effect * status :=
  let index := (frameIndex c + 1)%Z in
  let c := with_frameIndex index c in
  if geb (of_Z index) (ToNumber (frameCount (config c)))
  then (with_stopFlag true c, [ScreencastCompleted], Completed)
  else if stopFlag c then (c, [ScreencastCompleted], Completed)
  else (c, [], Continue).

(** One pass of [nextFrame]; [captured] is what [____captureFrame()]
    answers if the pass reaches it. *)
Definition nextFrame (captured : bool) (c : t) : t * list effect * status :=
  let c := if startFlag c then c else with_startFlag true c in
  if stopFlag c then (c, [ScreencastCompleted], Completed)
  else
    let '(medias, e0) := dispatchAll (currentTime c) 0 (dispatchMedias c) in
    let c := with_dispatchMedias medias c in
    let e1 := [SeekCSSAnimations (currentTime c); SeekTimeActions (currentTime c)] in
    let c := with_currentTime (add (currentTime c) (frameInterval c)) c in
    let '(c, e2) := _callIntervalCallbacks c (Num (currentTime c)) in
    let '(c, e3) := _callTimeoutCallbacks c (Num (currentTime c)) in
    let before := e0 ++ e1 ++ e2 ++ e3 in
    if isCapturing c then
      if negb captured then (with_stopFlag true c, before ++ [CaptureFrame], CaptureFailed)
      else if pauseFlag c then (c, before ++ [CaptureFrame], AwaitResume)
      else
        let '(c', e4, s) := afterCapture c in
        (c', before ++ [CaptureFrame] ++ e4, s)
    else (c, before ++ [SkipFrame], Continue).

(** The loop: at most [fuel] passes, the pass numbered [k] receiving
    [capture k] from the host; a result [Continue] means that the loop is
    still running after [fuel] passes. *)
Fixpoint run (fuel : nat) (capture : nat -> bool) (k : nat) (c : t)
    : t * list effect * status :=
  match fuel with
  | O => (c, [], Continue)
  | S fuel' =>
      match nextFrame (capture k) c with
      | (c', e, Continue) =>
          let '(c'', e', s) := run fuel' capture (S k) c' in
          (c'', e ++ e', s)
      | r => r
      end
  end.

(** [start()]: the synchronous part.  The answer tells whether the loop
    was entered; before [ready()] the call is only recorded. *)
Definition start (c : t) : result (t * bool) :=
  if negb (readyFlag c) then Ok (with_readyCallback true c, false)
  else
    do _ <- _checkConfig c;
    Ok (with_frameInterval (div (of_Z 1000) (ToNumber (fps (config c)))) c, true).

(** [ready()]: answers [(context, started)]. *)
Definition ready (c : t) : result (t * bool) :=
  let c := with_readyFlag true c in
  if readyCallback c then
    do r <- start c;
    Ok (fst r, true)
  else Ok (c, false).

(** [abort()]. *)
Definition abort (c : t) : t :=
  if negb (isCapturing c) then c else with_stopFlag true c.

(** [start()] followed by the loop it enters; no status when the call was
    only recorded. *)
Definition capture (fuel : nat) (frames : nat -> bool) (c : t)
    : result (t * list effect * option status) :=
  do r <- start c;
  if snd r then
    let '(c', e, s) := run fuel frames 0 (fst r) in Ok (c', e, Some s)
  else Ok (fst r, [], None).

End CaptureContext.

(** ** Page: the host-side driver of one tab *)

Module Page.
Import JS.

Inductive STATE : Type :=
| UNINITIALIZED | READY | CAPTURING | PAUSED | STOPPED | UNAVAILABLED | CLOSED.

(** The options of [startScreencast]; [autostart] absent is [None]. *)
Record ScreencastOptions : Type := mkOptions {
  fps : value;
  startTime : value;
  duration : value;
  frameCount : value;
  autostart : option bool
}.

(** The object handed to the page: the entries that are [undefined] were
    removed by [_.pickBy]. *)
Definition patch : Type := ScreencastOptions.

(** The host part of [startScreencast]: defaults, assertions and the
    derivation of the missing one of [duration] and [frameCount]. *)
Definition startScreencast (state : STATE) (o : ScreencastOptions) : result patch :=
  let startTime := match startTime o with Undefined => Num zero | v => v end in
  let autostart := match autostart o with None => true | Some b => b end in
  do _ <- assert (match state with READY => true | _ => false end)
            "Page state must be ready";
  do _ <- assert (Lodash.isUndefined (fps o) || Lodash.isFinite (fps o))
            "fps must be number";
  do _ <- assert (Lodash.isFinite startTime) "startTime must be number";
  do _ <- assert (Lodash.isUndefined (duration o) || Lodash.isFinite (duration o))
            "duration must be number";
  do _ <- assert (Lodash.isUndefined (frameCount o) || Lodash.isFinite (frameCount o))
            "frameCount must be number";
  if Lodash.isFinite (duration o) then
    do n <- Util.durationToFrameCount (duration o) (fps o);
    Ok (mkOptions (fps o) startTime (duration o) (Num n) (Some autostart))
  else if Lodash.isFinite (frameCount o) then
    do d <- Util.frameCountToDuration (frameCount o) (fps o);
    Ok (mkOptions (fps o) startTime (Num d) (frameCount o) (Some autostart))
  else Ok (mkOptions (fps o) startTime (duration o) (frameCount o) (Some autostart)).

(** [Object.assign(captureCtx.config, config)]. *)
Definition assign (p : patch) (cfg : CaptureContext.Config) : CaptureContext.Config :=
  let pick (v old : value) := match v with Undefined => old | _ => v end in
  CaptureContext.mkConfig
    (pick (fps p) (CaptureContext.fps cfg))
    (pick (startTime p) (CaptureContext.startTime cfg))
    (pick (duration p) (CaptureContext.duration cfg))
    (pick (frameCount p) (CaptureContext.frameCount cfg))
    (match autostart p with Some b => b | None => CaptureContext.autostart cfg end).



(** [pauseScreencast()]: the page sets [captureCtx.pauseFlag]. *)
Definition pauseScreencast (state : STATE) (c : CaptureContext.t)
    : result (STATE * CaptureContext.t) :=
  do _ <- assert (match state with CAPTURING => true | _ => false end)
            "Page state is not capturing, unable to pause";
  Ok (PAUSED, CaptureContext.with_pauseFlag true c).

(** [resumeScreencast()]: [parked] tells whether a pass of the loop waits
    on the pause promise ([resumeCallback] is set); such a pass goes on
    from the pause gate once the flag is cleared. *)
Definition resumeScreencast (state : STATE) (parked : bool) (c : CaptureContext.t)
    : result (STATE * (CaptureContext.t * list CaptureContext.effect
                       * CaptureContext.status)) :=
  do _ <- assert (match state with PAUSED => true | _ => false end)
            "Page state is not paused, unable to resume";
  let c := CaptureContext.with_pauseFlag false c in
  Ok (CAPTURING,
      if parked then CaptureContext.afterCapture c
      else (c, [], CaptureContext.Continue)).

(** [stopScreencast()]: the page sets [captureCtx.stopFlag]. *)
Definition stopScreencast (c : CaptureContext.t) : STATE * CaptureContext.t :=
  (STOPPED, CaptureContext.with_stopFlag true c).

(** The loop going on from the outcome of a resumed pass: it runs further
    passes only if that pass asked for the next one. *)
Definition resumed (fuel : nat) (frames : nat -> bool) (k : nat)
    (r : CaptureContext.t * list CaptureContext.effect * CaptureContext.status)
    : CaptureContext.t * list CaptureContext.effect * CaptureContext.status :=
  match r with
  | (c, e, CaptureContext.Continue) =>
      let '(c', e', s) := CaptureContext.run fuel frames k c in (c', e ++ e', s)
  | _ => r
  end.

(** *** timeActions *)

(** [parseInt] of a number whose decimal form has no exponent: the
    integer part. *)
Definition parseInt (x : num) : num :=
  match x with
  | Fin q => of_Z (Qtrunc q)
  | _ => NaN
  end.

(** [String(n)] of an integer key. *)
Definition toString (z : Z) : string := NilZero.string_of_int (Z.to_int z).

(** [Array.prototype.sort()] without a comparator orders the elements by
    their string forms; insertion keeps equal elements in place. *)
Fixpoint sort_insert (x : Z) (l : list Z) : list Z :=
  match l with
  | [] => [x]
  | y :: rest =>
      if String.ltb (toString y) (toString x) then y :: sort_insert x rest
      else x :: y :: rest
  end.

Definition sort (l : list Z) : list Z := foldr sort_insert [] l.

(** [timeActions] is keyed by integer time points (milliseconds). *)
Definition seekTimeActions (timeActions : gmap Z CaptureContext.fnref)
    (currentTime : num) : gmap Z CaptureContext.fnref * list CaptureContext.fnref :=
  let currentTime := parseInt currentTime in
  let matchTimeNodes :=
    List.find (fun time => geb currentTime (of_Z time))
              (sort (elements (dom timeActions))) in
  match matchTimeNodes with
  | None => (timeActions, [])
  | Some time =>
      if (time =? 0)%Z then (timeActions, [])
      else
        match timeActions !! time with
        | Some timeAction => (delete time timeActions, [timeAction])
        | None => (delete time timeActions, [])
        end
  end.

End Page.

(** ** Audio descriptors *)

Module Audio.
Import JS.

(** The fields of an audio that the timeline reads.  The same record
    carries the options object and the instance built from it. *)
Record t : Type := mk {
  id : value;
  path : option string;
  url : option string;
  startTime : value;
  endTime : value;
  volume : value;
  seekStart : value;
  seekEnd : value
}.

Definition undefined_or_finite (v : value) : bool :=
  Lodash.isUndefined v || Lodash.isFinite v.

Definition constructor (o : t) : result t :=
  do _ <- assert (undefined_or_finite (id o)) "Audio id must be number";
  do _ <- assert (bool_decide (is_Some (path o)) || bool_decide (is_Some (url o)))
            "Audio path or url must be string";
  do _ <- assert (undefined_or_finite (startTime o)) "Audio startTime must be number";
  do _ <- assert (undefined_or_finite (endTime o)) "Audio endTime must be number";
  do _ <- assert (undefined_or_finite (volume o)) "Audio volume must be number";
  do _ <- assert (undefined_or_finite (seekStart o)) "Audio seekStart must be number";
  do _ <- assert (undefined_or_finite (seekEnd o)) "Audio seekEnd must be number";
  Ok (mk (id o) (path o) (url o)
         (Lodash.defaultTo (startTime o) (Num zero))
         (endTime o)
         (Lodash.defaultTo (volume o) (Num (of_Z 100)))
         (Lodash.defaultTo (seekStart o) (Num zero))
         (seekEnd o)).

(** An [Audio] instance is an object: the chunk that holds it, the
    synthesizer that it is added to and the code that places it on the
    timeline all see the one object.  The instances that exist form a
    store, in which an instance is named by its index; [new Audio]
    appends to it. *)
Abbreviation ref := nat (only parsing).
Abbreviation store := (list t) (only parsing).

(** An argument that is either an [Audio] instance or a plain object. *)
Inductive arg : Type :=
| Instance (r : ref)
| Plain (o : t).

(** [if (!(audio instanceof Audio)) audio = new Audio(audio);] *)
Definition instantiate (h : store) (a : arg) : result (store * ref) :=
  match a with
  | Instance r => Ok (h, r)
  | Plain o => do x <- constructor o; Ok (h ++ [x], length h)
  end.

Definition with_times (startTime endTime : value) (a : t) : t :=
  mk (id a) (path a) (url a) startTime endTime (volume a) (seekStart a) (seekEnd a).

(** The placement of an audio of a chunk on the timeline of the whole
    video, as [ChunkSynthesizer.start] and the [audioAdd] listener of
    [renderChunk] both write it into the instance. *)
Definition shift (chunkDuration offsetTime : num) (a : t) : t :=
  let s := if Lodash.isFinite (startTime a) then startTime a else Num zero in
  let s := Num (add (ToNumber s) offsetTime) in
  let e := if Lodash.isFinite (endTime a) then endTime a else Num chunkDuration in
  let e := Num (add (ToNumber e) offsetTime) in
  with_times s e a.

(** The same four assignments, made to the instance [r] of the store. *)
Definition place (chunkDuration offsetTime : num) (r : ref) (h : store) : store :=
  alter (shift chunkDuration offsetTime) r h.

End Audio.

(** ** Transition *)

Module Transition.
Import JS.

(** [Object.values(TRANSITION)]: the 56 identifiers. *)
Definition TRANSITION_IDS : list string :=
  ["fade"; "wipeleft"; "wiperight"; "wipeup"; "wipedown"; "slideleft";
   "slideright"; "slideup"; "slidedown"; "circlecrop"; "rectcrop"; "distance";
   "fadeblack"; "fadewhite"; "radial"; "smoothleft"; "smoothright"; "smoothup";
   "smoothdown"; "circleopen"; "circleclose"; "vertopen"; "vertclose";
   "horzopen"; "horzclose"; "dissolve"; "pixelize"; "diagtl"; "diagtr";
   "diagbl"; "diagbr"; "hlslice"; "hrslice"; "vuslice"; "vdslice"; "hblur";
   "fadegrays"; "wipetl"; "wipetr"; "wipebl"; "wipebr"; "squeezeh"; "squeezev";
   "zoomin"; "hlwind"; "hrwind"; "vuwind"; "vdwind"; "coverleft"; "coverright";
   "coverup"; "coverdown"; "revealleft"; "revealright"; "revealup";
   "revealdown"]%string.

Record t : Type := mk {
  id : string;
  duration : num
}.

Definition includes (s : string) (l : list string) : bool :=
  existsb (String.eqb s) l.

(** [new Transition({ id, duration })]. *)
Definition constructor (id : string) (duration : value) : result t :=
  do _ <- assert (includes id TRANSITION_IDS) "Transition id may not be supported";
  do _ <- assert (Lodash.isUndefined duration || Lodash.isNumber duration)
            "Transition duration must be number";
  Ok (mk id (ToNumber (Lodash.defaultTo duration (Num (of_Z 500))))).

(** What [setTransition] accepts: an id, an options object, an instance. *)
Inductive arg : Type :=
| Id (id : string)
| Plain (id : string) (duration : value)
| Instance (x : t).

Definition instantiate (a : arg) : result t :=
  match a with
  | Id s => constructor s Undefined
  | Plain s d => constructor s d
  | Instance x => Ok x
  end.

(** The truthiness of such an argument: the empty string is the one that
    is falsy. *)
Definition truthy (a : arg) : bool :=
  match a with
  | Id EmptyString => false
  | _ => true
  end.

End Transition.

(** ** Synthesizer *)

Module Synthesizer.
Import JS.

Definition SUPPORT_FORMAT : list string := ["mp4"; "webm"]%string.

Inductive STATE : Type := READY | SYNTHESIZING | COMPLETED.

(** The encoding type that [getVideoEncodingType()] finds for an encoder. *)
Inductive encoding : Type := H264 | H265 | VP8 | VP9.

Record Options : Type := mkOptions {
  o_width : value;
  o_height : value;
  o_fps : value;
  o_duration : value;
  o_format : option string;
  o_outputPath : option string;
  o_coverCaptureTime : value;
  o_videoQuality : value;
  o_volume : value;
  o_parallelWriteFrames : value;
  o_backgroundOpacity : value;
  o_videoEncoder : option encoding
}.

Record t : Type := mk {
  state : STATE;
  width : num;
  height : num;
  fps : num;
  duration : num;
  format : string;
  outputPath : option string;
  videoEncoder : encoding;
  audios : list Audio.ref;
  _frameCount : Z;
  _targetFrameCount : num
}.

Definition with_duration (x : num) (s : t) : t :=
  mk (state s) (width s) (height s) (fps s) x (format s) (outputPath s)
     (videoEncoder s) (audios s) (_frameCount s) (_targetFrameCount s).
Definition with_audios (x : list Audio.ref) (s : t) : t :=
  mk (state s) (width s) (height s) (fps s) (duration s) (format s) (outputPath s)
     (videoEncoder s) x (_frameCount s) (_targetFrameCount s).
Definition with_frameCount (x : Z) (s : t) : t :=
  mk (state s) (width s) (height s) (fps s) (duration s) (format s) (outputPath s)
     (videoEncoder s) (audios s) x (_targetFrameCount s).
Definition with_targetFrameCount (x : num) (s : t) : t :=
  mk (state s) (width s) (height s) (fps s) (duration s) (format s) (outputPath s)
     (videoEncoder s) (audios s) (_frameCount s) x.
Definition with_state (x : STATE) (s : t) : t :=
  mk x (width s) (height s) (fps s) (duration s) (format s) (outputPath s)
     (videoEncoder s) (audios s) (_frameCount s) (_targetFrameCount s).
Definition with_size (w h f : num) (s : t) : t :=
  mk (state s) w h f (duration s) (format s) (outputPath s)
     (videoEncoder s) (audios s) (_frameCount s) (_targetFrameCount s).
Definition with_format (x : string) (s : t) : t :=
  mk (state s) (width s) (height s) (fps s) (duration s) x (outputPath s)
     (videoEncoder s) (audios s) (_frameCount s) (_targetFrameCount s).

(** [path.extname]: the suffix of the last path segment from its last
    dot, empty when the segment has no dot or only a leading one. *)
Fixpoint after_last (sep : ascii) (s : string) : option string :=
  match s with
  | EmptyString => None
  | String c rest =>
      match after_last sep rest with
      | Some tail => Some tail
      | None => if Ascii.eqb c sep then Some rest else None
      end
  end.

Definition basename (p : string) : string :=
  match after_last "/" p with
  | Some b => b
  | None => p
  end.

Definition extname (p : string) : string :=
  match basename p with
  | EmptyString => EmptyString
  | String c rest =>
      match after_last "." rest with
      | Some e => if String.eqb (basename p) ".." then EmptyString else String "." e
      | None => EmptyString
      end
  end.

Definition substring1 (s : string) : string :=
  match s with
  | EmptyString => EmptyString
  | String _ rest => rest
  end.

Definition undefined_or_finite (v : value) : bool :=
  Lodash.isUndefined v || Lodash.isFinite v.

Definition nonempty (o : option string) : bool :=
  match o with
  | Some (String _ _) => true
  | _ => false
  end.

(** The choice of the output format in the constructor. *)
Definition chooseFormat (format outputPath : option string) (isVideoChunk : bool)
    : result string :=
  if negb (nonempty format) && nonempty outputPath && negb isVideoChunk then
    let _format := substring1 (extname (default EmptyString outputPath)) in
    if String.eqb _format EmptyString
    then Throw "Unable to recognize output video format"
    else if negb (Transition.includes _format SUPPORT_FORMAT)
    then Throw "Unsupported output video format"
    else Ok _format
  else
    match format with
    | Some (String c f) => Ok (String c f)
    | _ => Ok "mp4"%string
    end.

(** The constructor; [isVideoChunk] is the answer of [_isVideoChunk()].
    The options that are strings or booleans cannot be ill-typed here and
    their assertions are left out. *)
Definition constructor (isVideoChunk : bool) (o : Options) : result t :=
  do _ <- assert (Lodash.isFinite (o_width o)
                  && eqb (rem (ToNumber (o_width o)) (of_Z 2)) zero)
            "width must be even number";
  do _ <- assert (Lodash.isFinite (o_height o)
                  && eqb (rem (ToNumber (o_height o)) (of_Z 2)) zero)
            "height must be even number";
  do _ <- assert (Lodash.isFinite (o_duration o)) "synthesis duration must be number";
  do _ <- assert (bool_decide (is_Some (o_outputPath o)) || isVideoChunk)
            "outputPath must be string";
  do _ <- assert (undefined_or_finite (o_fps o)) "synthesis fps must be number";
  do _ <- assert (match o_format o with
                  | None => true
                  | Some f => Transition.includes f SUPPORT_FORMAT
                  end) "format is not supported";
  do _ <- assert (undefined_or_finite (o_coverCaptureTime o))
            "coverCaptureTime must be number";
  do _ <- assert (undefined_or_finite (o_videoQuality o)) "videoQuality must be number";
  do _ <- assert (undefined_or_finite (o_volume o)) "volume must be number";
  do _ <- assert (undefined_or_finite (o_parallelWriteFrames o))
            "parallelWriteFrames must be number";
  do _ <- assert (undefined_or_finite (o_backgroundOpacity o))
            "backgroundOpacity must be number";
  do format <- chooseFormat (o_format o) (o_outputPath o) isVideoChunk;
  let fps := Lodash.defaultTo (o_fps o) (Num (of_Z 30)) in
  let encoder :=
    match o_videoEncoder o with
    | Some e => e
    | None => if String.eqb format "webm" then VP8 else H264
    end in
  do target <- Util.durationToFrameCount (o_duration o) fps;
  Ok (mk READY (ToNumber (o_width o)) (ToNumber (o_height o)) (ToNumber fps)
         (ToNumber (o_duration o)) format (o_outputPath o) encoder [] 0 target).

(** [input(buffer)]: one more frame. *)
Definition input (s : t) : t := with_frameCount (_frameCount s + 1) s.

(** [getOutputDuration()]. *)
Definition getOutputDuration (s : t) : num :=
  if negb (truthy_num (fps s)) || (_frameCount s =? 0)%Z
  then (if truthy_num (duration s) then duration s else zero)
  else mul (floor (div (of_Z (_frameCount s)) (fps s))) (of_Z 1000).

Definition isReady (s : t) : bool :=
  match state s with READY => true | _ => false end.

Definition isCompleted (s : t) : bool :=
  match state s with COMPLETED => true | _ => false end.

(** [addAudio(audio)]: the instance, a new one when the argument is a
    plain object, is pushed and returned. *)
Definition addAudio (h : Audio.store) (s : t) (a : Audio.arg)
    : result (Audio.store * t * Audio.ref) :=
  do hr <- Audio.instantiate h a;
  Ok (fst hr, with_audios (audios s ++ [snd hr]) s, snd hr).

End Synthesizer.

(** ** VideoChunk *)

Module VideoChunk.
Import JS.

Record t : Type := mk {
  base : Synthesizer.t;
  transition : option Transition.t
}.

Record Options : Type := mkOptions {
  o_base : Synthesizer.Options;
  o_transition : option Transition.arg
}.

(** [BITSTREAM_FILTER[encodingType]] is a string. *)
Definition hasBitstreamFilter (e : Synthesizer.encoding) : bool :=
  match e with
  | Synthesizer.H264 | Synthesizer.H265 | Synthesizer.VP9 => true
  | Synthesizer.VP8 => false
  end.

(** [setTransition(transition)], as it changes the chunk. *)
Definition setTransition (c : t) (a : Transition.arg) : result t :=
  do tr <- Transition.instantiate a;
  Ok (mk (base c) (Some tr)).

(** The constructor; [transition && this.setTransition(transition)]
    leaves an empty string aside. *)
Definition constructor (o : Options) : result t :=
  do s <- Synthesizer.constructor true (o_base o);
  do _ <- assert (match Synthesizer.outputPath s with
                  | None => true
                  | Some p => String.eqb (Synthesizer.substring1 (Synthesizer.extname p)) "ts"
                  end) "Video chunk output path extname must be .ts";
  do c <- match o_transition o with
          | Some a =>
              if Transition.truthy a then setTransition (mk s None) a
              else Ok (mk s None)
          | None => Ok (mk s None)
          end;
  let c := mk (Synthesizer.with_format "mpegts" (base c)) (transition c) in
  do _ <- assert (hasBitstreamFilter (Synthesizer.videoEncoder (base c)))
            "Video encoder does not support use in VideoChunk";
  Ok c.

Definition transitionDuration (c : t) : num :=
  match transition c with
  | Some tr => Transition.duration tr
  | None => zero
  end.

(** [return super.getOutputDuration() - this.transitionDuration;] *)
Definition getOutputDuration (c : t) : num :=
  sub (Synthesizer.getOutputDuration (base c)) (transitionDuration c).

Definition duration (c : t) : num := Synthesizer.duration (base c).
Definition audios (c : t) : list Audio.ref := Synthesizer.audios (base c).
Definition isCompleted (c : t) : bool := Synthesizer.isCompleted (base c).

Definition with_audios (x : list Audio.ref) (c : t) : t :=
  mk (Synthesizer.with_audios x (base c)) (transition c).

(** [addAudio(audio)] of a chunk: the instance is pushed and returned. *)
Definition addAudio (h : Audio.store) (c : t) (a : Audio.arg)
    : result (Audio.store * t * Audio.ref) :=
  do hr <- Audio.instantiate h a;
  Ok (fst hr, with_audios (audios c ++ [snd hr]) c, snd hr).

(** A [VideoChunk] is an object as well: [ChunkSynthesizer.input] writes
    into the chunk it is given and keeps that very chunk.  The chunks that
    exist form a store, in which a chunk is named by its index;
    [new VideoChunk] appends to it. *)
Abbreviation ref := nat (only parsing).
Abbreviation store := (list t) (only parsing).

(** What [ChunkSynthesizer.input] receives. *)
Inductive arg : Type :=
| Instance (r : ref)
| Plain (o : Options).

End VideoChunk.

(** ** ChunkSynthesizer *)

Module ChunkSynthesizer.
Import JS.

Record t : Type := mk {
  base : Synthesizer.t;
  chunks : list VideoChunk.ref
}.

Definition duration (s : t) : num := Synthesizer.duration (base s).
Definition audios (s : t) : list Audio.ref := Synthesizer.audios (base s).

(** A reference names an object of the store.  For a reference that names
    none the source has no behaviour to follow, and the model answers with
    this error of its own. *)
Definition NoObject : string := "reference to no object".

(** [_.isFinite(this.x) && (chunk.x = _.defaultTo(chunk.x, this.x))], on an
    option and on a field of an instance. *)
Definition inherit_value (own : num) (v : value) : value :=
  if isFinite_num own then Lodash.defaultTo v (Num own) else v.

Definition inherit_num (own x : num) : num :=
  if isFinite_num own then match x with NaN => own | _ => x end else x.

Definition inheritOptions (s : t) (o : VideoChunk.Options) : VideoChunk.Options :=
  let b := VideoChunk.o_base o in
  VideoChunk.mkOptions
    (Synthesizer.mkOptions
       (inherit_value (Synthesizer.width (base s)) (Synthesizer.o_width b))
       (inherit_value (Synthesizer.height (base s)) (Synthesizer.o_height b))
       (inherit_value (Synthesizer.fps (base s)) (Synthesizer.o_fps b))
       (Synthesizer.o_duration b) (Synthesizer.o_format b)
       (Synthesizer.o_outputPath b) (Synthesizer.o_coverCaptureTime b)
       (Synthesizer.o_videoQuality b) (Synthesizer.o_volume b)
       (Synthesizer.o_parallelWriteFrames b)
       (Synthesizer.o_backgroundOpacity b) (Synthesizer.o_videoEncoder b))
    (VideoChunk.o_transition o).

Definition inheritInstance (s : t) (c : VideoChunk.t) : VideoChunk.t :=
  let b := VideoChunk.base c in
  VideoChunk.mk
    (Synthesizer.with_size
       (inherit_num (Synthesizer.width (base s)) (Synthesizer.width b))
       (inherit_num (Synthesizer.height (base s)) (Synthesizer.height b))
       (inherit_num (Synthesizer.fps (base s)) (Synthesizer.fps b)) b)
    (VideoChunk.transition c).

(** The chunk that [input] goes on with: the instance it was given, with
    the three defaults written into it, or a new instance made of the
    options.  The answer is the store, the reference and what the chunk
    holds. *)
Definition receive (h : VideoChunk.store) (s : t) (a : VideoChunk.arg)
    : result (VideoChunk.store * VideoChunk.ref * VideoChunk.t) :=
  match a with
  | VideoChunk.Instance r =>
      match h !! r with
      | Some c => Ok (<[r := inheritInstance s c]> h, r, inheritInstance s c)
      | None => Throw NoObject
      end
  | VideoChunk.Plain o =>
      do c <- VideoChunk.constructor (inheritOptions s o);
      Ok (h ++ [c], length h, c)
  end.

(** [_.isString(transition) ? { id: transition } : transition] *)
Definition asOptions (a : Transition.arg) : Transition.arg :=
  match a with
  | Transition.Id id => Transition.Plain id Undefined
  | _ => a
  end.

(** [input(chunk, transition)]: the transition is set in the chunk itself,
    and the reference to the chunk is what is pushed. *)
Definition input (h : VideoChunk.store) (s : t) (a : VideoChunk.arg)
    (transition : option Transition.arg) : result (VideoChunk.store * t) :=
  do got <- receive h s a;
  let h := fst (fst got) in
  let r := snd (fst got) in
  let chunk := snd got in
  let b := VideoChunk.base chunk in
  do _ <- assert (eqb (Synthesizer.width b) (Synthesizer.width (base s)))
            "input chunk width does not match the previous block";
  do _ <- assert (eqb (Synthesizer.height b) (Synthesizer.height (base s)))
            "input chunk height does not match the previous block";
  do _ <- assert (eqb (Synthesizer.fps b) (Synthesizer.fps (base s)))
            "input chunk fps does not match the previous block";
  do chunk <- match transition with
              | Some a =>
                  if Transition.truthy a
                  then VideoChunk.setTransition chunk (asOptions a)
                  else Ok chunk
              | None => Ok chunk
              end;
  let b := VideoChunk.base chunk in
  let s' :=
    Synthesizer.with_targetFrameCount
      (add (Synthesizer._targetFrameCount (base s)) (Synthesizer._targetFrameCount b))
      (Synthesizer.with_duration
         (add (Synthesizer.duration (base s)) (VideoChunk.getOutputDuration chunk))
         (Synthesizer.with_size (Synthesizer.width b) (Synthesizer.height b)
            (Synthesizer.fps b) (base s))) in
  Ok (<[r := chunk]> h, mk s' (chunks s ++ [r])).

(** The chunks given one after the other, each with its optional
    transition argument. *)
Fixpoint inputs (h : VideoChunk.store) (s : t)
    (l : list (VideoChunk.arg * option Transition.arg))
    : result (VideoChunk.store * t) :=
  match l with
  | [] => Ok (h, s)
  | (a, tr) :: rest =>
      do hs <- input h s a tr;
      inputs (fst hs) (snd hs) rest
  end.

(** The constructor: [options.duration = 0; super(options);] then the
    chunks of the options are input. *)
Definition constructor (h : VideoChunk.store) (o : Synthesizer.Options)
    (chunks : list VideoChunk.arg) : result (VideoChunk.store * t) :=
  let o' :=
    Synthesizer.mkOptions (Synthesizer.o_width o) (Synthesizer.o_height o)
      (Synthesizer.o_fps o) (Num zero) (Synthesizer.o_format o)
      (Synthesizer.o_outputPath o) (Synthesizer.o_coverCaptureTime o)
      (Synthesizer.o_videoQuality o) (Synthesizer.o_volume o)
      (Synthesizer.o_parallelWriteFrames o) (Synthesizer.o_backgroundOpacity o)
      (Synthesizer.o_videoEncoder o) in
  do b <- Synthesizer.constructor false o';
  inputs h (mk b []) (List.map (fun c => (c, None)) chunks).

(** A chunk that [start()] sends to [renderChunk], with the offset it
    was given. *)
Record rendering : Type := mkRendering {
  r_chunk : VideoChunk.ref;
  r_offsetTime : num
}.

(** The inner [forEach] of [start()]: every audio of the chunk is placed
    on the timeline, in the instance itself, and the instance is added to
    the synthesizer. *)
Fixpoint placeAudios (chunkDuration offsetTime : num) (rs : list Audio.ref)
    (ha : Audio.store) (b : Synthesizer.t) : Audio.store * Synthesizer.t :=
  match rs with
  | [] => (ha, b)
  | r :: rest =>
      placeAudios chunkDuration offsetTime rest
        (Audio.place chunkDuration offsetTime r ha)
        (Synthesizer.with_audios (Synthesizer.audios b ++ [r]) b)
  end.

(** The outer [forEach] of [start()]: the chunks that are not completed
    go to [renderChunk] with the current offset, which then grows by
    [getOutputDuration()]. *)
Fixpoint startLoop (hc : VideoChunk.store) (offsetTime : num)
    (cs : list VideoChunk.ref) (ha : Audio.store) (b : Synthesizer.t)
    (renders : list rendering)
    : result (Audio.store * Synthesizer.t * list rendering) :=
  match cs with
  | [] => Ok (ha, b, renders)
  | r :: rest =>
      match hc !! r with
      | None => Throw NoObject
      | Some chunk =>
          let placed :=
            placeAudios (VideoChunk.duration chunk) offsetTime
                        (VideoChunk.audios chunk) ha b in
          let renders' :=
            if negb (VideoChunk.isCompleted chunk)
            then renders ++ [mkRendering r offsetTime]
            else renders in
          startLoop hc (add offsetTime (VideoChunk.getOutputDuration chunk))
                    rest (fst placed) (snd placed) renders'
      end
  end.

(** [start()], up to the point where the renderings are awaited. *)
Definition start (hc : VideoChunk.store) (ha : Audio.store) (s : t)
    : result (Audio.store * t * list rendering) :=
  do _ <- assert (negb (Nat.eqb (length (chunks s)) 0))
            "There is no VideoChunk that can be synthesized";
  do out <- startLoop hc zero (chunks s) ha (base s) [];
  Ok (fst (fst out), mk (snd (fst out)) (chunks s), snd out).

(** The [audioAdd] listener that [renderChunk] installs on a chunk: the
    audio is added to the synthesizer, then placed; the duration of the
    chunk is read when the event arrives. *)
Definition onAudioAdd (hc : VideoChunk.store) (r : rendering) (ha : Audio.store)
    (s : t) (options : Audio.arg) : result (Audio.store * t) :=
  do res <- Synthesizer.addAudio ha (base s) options;
  match hc !! r_chunk r with
  | None => Throw NoObject
  | Some chunk =>
      Ok (Audio.place (VideoChunk.duration chunk) (r_offsetTime r) (snd res)
                      (fst (fst res)),
          mk (snd (fst res)) (chunks s))
  end.

(** The listeners of one event, in the order in which [start()] installed
    them. *)
Fixpoint listeners (hc : VideoChunk.store) (rs : list rendering) (ha : Audio.store)
    (s : t) (options : Audio.arg) : result (Audio.store * t) :=
  match rs with
  | [] => Ok (ha, s)
  | r :: rest =>
      do out <- onAudioAdd hc r ha s options;
      listeners hc rest (fst out) (snd out) options
  end.

(** The audios emitted by the chunks while they render, in arrival order;
    an event of a chunk that is not rendering has no listener. *)
Fixpoint emitted (hc : VideoChunk.store) (renders : list rendering)
    (ha : Audio.store) (s : t) (events : list (VideoChunk.ref * Audio.arg))
    : result (Audio.store * t) :=
  match events with
  | [] => Ok (ha, s)
  | (c, options) :: rest =>
      do out <- listeners hc (List.filter (fun r => Nat.eqb (r_chunk r) c) renders)
                          ha s options;
      emitted hc renders (fst out) (snd out) rest
  end.

End ChunkSynthesizer.

(** ** JSON: the text form of the values of a payload header

    [JSON.stringify] and [JSON.parse] for values built from [null],
    booleans, integers, strings (a quote and a backslash are escaped, the
    other characters stand for themselves), arrays and objects. *)

Module JSON.

#[local] Set Warnings "-register-all".

Inductive json : Type :=
| JNull
| JBool (b : bool)
| JNumber (z : Z)
| JString (s : string)
| JArray (items : list json)
| JObject (fields : list (string * json)).

Definition quote : ascii := ascii_of_nat 34.
Definition backslash : ascii := ascii_of_nat 92.

Fixpoint escape (s : string) : string :=
  match s with
  | EmptyString => EmptyString
  | String c rest =>
      if Ascii.eqb c quote || Ascii.eqb c backslash
      then String backslash (String c (escape rest))
      else String c (escape rest)
  end.

Definition quoted (s : string) : string :=
  String quote (escape s ++ String quote EmptyString).

Fixpoint join (l : list string) : string :=
  match l with
  | [] => EmptyString
  | [x] => x
  | x :: rest => (x ++ "," ++ join rest)%string
  end.

Fixpoint stringify (j : json) : string :=
  match j with
  | JNull => "null"
  | JBool true => "true"
  | JBool false => "false"
  | JNumber z => NilZero.string_of_int (Z.to_int z)
  | JString s => quoted s
  | JArray items => ("[" ++ join (List.map stringify items) ++ "]")%string
  | JObject fields =>
      ("{" ++ join (List.map (fun kv => quoted (fst kv) ++ ":" ++ stringify (snd kv))
                             fields)%string
         ++ "}")%string
  end.

(** The parser works on the characters that are left and answers the
    value read and the rest. *)
Definition is_digit (c : ascii) : bool :=
  (48 <=? nat_of_ascii c)%nat && (nat_of_ascii c <=? 57)%nat.

Fixpoint read_digits (acc : Z) (s : string) : Z * string :=
  match s with
  | String c rest =>
      if is_digit c
      then read_digits (acc * 10 + Z.of_nat (nat_of_ascii c - 48)) rest
      else (acc, s)
  | EmptyString => (acc, s)
  end.

Fixpoint read_string (s : string) : option (string * string) :=
  match s with
  | EmptyString => None
  | String c rest =>
      if Ascii.eqb c quote then Some (EmptyString, rest)
      else if Ascii.eqb c backslash then
        match rest with
        | String e rest' =>
            match read_string rest' with
            | Some (body, tail) => Some (String e body, tail)
            | None => None
            end
        | EmptyString => None
        end
      else
        match read_string rest with
        | Some (body, tail) => Some (String c body, tail)
        | None => None
        end
  end.

Definition expect (word : string) (s : string) : option string :=
  if String.prefix word s
  then Some (String.substring (String.length word) (String.length s - String.length word) s)
  else None.

Fixpoint read_value (fuel : nat) (s : string) : option (json * string) :=
  match fuel with
  | O => None
  | S fuel' =>
      let fix read_items (n : nat) (s : string) : option (list json * string) :=
        match n with
        | O => None
        | S n' =>
            match read_value fuel' s with
            | Some (v, String "," rest) =>
                match read_items n' rest with
                | Some (vs, tail) => Some (v :: vs, tail)
                | None => None
                end
            | Some (v, String "]" rest) => Some ([v], rest)
            | _ => None
            end
        end in
      let fix read_fields (n : nat) (s : string)
          : option (list (string * json) * string) :=
        match n with
        | O => None
        | S n' =>
            match s with
            | String c rest =>
                if Ascii.eqb c quote then
                  match read_string rest with
                  | Some (key, String ":" rest') =>
                      match read_value fuel' rest' with
                      | Some (v, String "," tail) =>
                          match read_fields n' tail with
                          | Some (fs, tail') => Some ((key, v) :: fs, tail')
                          | None => None
                          end
                      | Some (v, String "}" tail) => Some ([(key, v)], tail)
                      | _ => None
                      end
                  | _ => None
                  end
                else None
            | EmptyString => None
            end
        end in
      match s with
      | EmptyString => None
      | String c rest =>
          if Ascii.eqb c quote then
            match read_string rest with
            | Some (body, tail) => Some (JString body, tail)
            | None => None
            end
          else if Ascii.eqb c "[" then
            match rest with
            | String "]" tail => Some (JArray [], tail)
            | _ =>
                match read_items (String.length s) rest with
                | Some (vs, tail) => Some (JArray vs, tail)
                | None => None
                end
            end
          else if Ascii.eqb c "{" then
            match rest with
            | String "}" tail => Some (JObject [], tail)
            | _ =>
                match read_fields (String.length s) rest with
                | Some (fs, tail) => Some (JObject fs, tail)
                | None => None
                end
            end
          else if Ascii.eqb c "-" then
            match rest with
            | String d _ =>
                if is_digit d
                then let '(n, tail) := read_digits 0 rest in Some (JNumber (- n), tail)
                else None
            | EmptyString => None
            end
          else if is_digit c then
            let '(n, tail) := read_digits 0 s in Some (JNumber n, tail)
          else
            match expect "null" s, expect "true" s, expect "false" s with
            | Some tail, _, _ => Some (JNull, tail)
            | _, Some tail, _ => Some (JBool true, tail)
            | _, _, Some tail => Some (JBool false, tail)
            | _, _, _ => None
            end
      end
  end.

(** [JSON.parse]: the whole text must be one value. *)
Definition parse (s : string) : option json :=
  match read_value (S (String.length s)) s with
  | Some (v, EmptyString) => Some v
  | _ => None
  end.

End JSON.

(** ** The packed payload of [/api/video_preprocess] *)

Module Payload.
Import JSON.

(** A property of the object given to [#packData]. *)
Inductive field : Type :=
| FBuffer (bytes : list byte)
| FValue (v : json)
| FUndefined.

Definition descriptor : Type := list (string * field).

(** [Buffer.from(text)] and [new TextDecoder("utf-8").decode(bytes)]: a
    text is the sequence of its UTF-8 bytes. *)
Definition encode (s : string) : list byte := list_byte_of_string s.
Definition decode (b : list byte) : string := string_of_list_byte b.

(** The [for (let key in data)] of [#packData]: the header object, the
    buffers in order, and the running offset.  A property whose value is
    [undefined] is assigned to the header object and left out by
    [JSON.stringify]; it does not appear in the header here. *)
Fixpoint packLoop (data : descriptor) (bufferOffset : nat)
    : list (string * json) * list (list byte) :=
  match data with
  | [] => ([], [])
  | (key, FBuffer bytes) :: rest =>
      let '(obj, buffers) := packLoop rest (bufferOffset + length bytes) in
      ((key, JArray [JString "buffer"; JNumber (Z.of_nat bufferOffset);
                     JNumber (Z.of_nat (bufferOffset + length bytes))]) :: obj,
       bytes :: buffers)
  | (key, FValue v) :: rest =>
      let '(obj, buffers) := packLoop rest bufferOffset in
      ((key, v) :: obj, buffers)
  | (key, FUndefined) :: rest => packLoop rest bufferOffset
  end.

Definition header (data : descriptor) : json := JObject (fst (packLoop data 0)).

(** The decimal form of a length. *)
Definition decimal (n : nat) : string := NilZero.string_of_uint (Nat.to_uint n).

Definition packData (data : descriptor) : list byte :=
  let '(obj, buffers) := packLoop data 0 in
  let objBuffer := encode (stringify (JObject obj)) in
  encode (decimal (length objBuffer) ++ "!") ++ objBuffer ++ concat buffers.

(** What [_unpackData] answers.  [Unmodelled] marks the inputs on which
    the source concatenates strings to compute a slice bound (a bound
    that is a string, an array or an object). *)
Inductive outcome (A : Type) : Type :=
| Returns (a : A)
| Throws (message : string)
| Unmodelled.
Arguments Returns {A} a.
Arguments Throws {A} message.
Arguments Unmodelled {A}.

Inductive ufield : Type :=
| UBytes (bytes : list byte)
| UValue (v : json).

Inductive unpacked : Type :=
| UObject (fields : list (string * ufield))
| UArray (items : list ufield)
| UOther (v : json).

(** The search of the delimiter: the index of the first ["!"]. *)
Fixpoint delimiterIndex (bytes : list byte) (i : nat) : option nat :=
  match bytes with
  | [] => None
  | b :: rest =>
      if Byte.eqb b "!"%byte then Some i else delimiterIndex rest (S i)
  end.

(** [parseInt(text)] without a radix: leading white space, a sign, a
    hexadecimal prefix, then the longest run of digits; [None] is [NaN]. *)
Definition is_space (b : byte) : bool :=
  let n := Byte.to_nat b in
  ((9 <=? n) && (n <=? 13))%nat || (n =? 32)%nat || (n =? 160)%nat.

Fixpoint skip_spaces (l : list byte) : list byte :=
  match l with
  | b :: rest => if is_space b then skip_spaces rest else l
  | [] => []
  end.

Definition digit (radix : nat) (b : byte) : option nat :=
  let n := Byte.to_nat b in
  let v :=
    if ((48 <=? n) && (n <=? 57))%nat then Some (n - 48)
    else if ((97 <=? n) && (n <=? 102))%nat then Some (n - 87)
    else if ((65 <=? n) && (n <=? 70))%nat then Some (n - 55)
    else None in
  match v with
  | Some d => if (d <? radix)%nat then Some d else None
  | None => None
  end.

Fixpoint digits (radix : nat) (acc : option nat) (l : list byte) : option nat :=
  match l with
  | b :: rest =>
      match digit radix b with
      | Some d => digits radix (Some (default 0 acc * radix + d)) rest
      | None => acc
      end
  | [] => acc
  end.

Definition parseInt (l : list byte) : option Z :=
  let l := skip_spaces l in
  let '(negative, l) :=
    match l with
    | b :: rest =>
        if Byte.eqb b "-"%byte then (true, rest)
        else if Byte.eqb b "+"%byte then (false, rest)
        else (false, l)
    | [] => (false, l)
    end in
  let '(radix, l) :=
    match l with
    | z :: x :: rest =>
        if Byte.eqb z "0"%byte && (Byte.eqb x "x"%byte || Byte.eqb x "X"%byte)
        then (16, rest) else (10, l)
    | _ => (10, l)
    end in
  match digits radix None l with
  | Some n => Some (if negative then - Z.of_nat n else Z.of_nat n)%Z
  | None => None
  end.

(** [ArrayBuffer.prototype.slice(begin, end)]. *)
Definition clamp (len : nat) (i : Z) : nat :=
  if (i <? 0)%Z then Z.to_nat (Z.max (Z.of_nat len + i) 0)
  else Nat.min (Z.to_nat i) len.

Definition slice (l : list byte) (b e : Z) : list byte :=
  let first := clamp (length l) b in
  let final := clamp (length l) e in
  take (final - first) (drop first l).

(** [bufferOffset + x] made an index: [NaN] counts as [0]. *)
Definition bound (bufferOffset : nat) (x : option json) : option Z :=
  match x with
  | None => Some 0%Z
  | Some JNull => Some (Z.of_nat bufferOffset)
  | Some (JBool b) => Some (Z.of_nat bufferOffset + (if b then 1 else 0))%Z
  | Some (JNumber z) => Some (Z.of_nat bufferOffset + z)%Z
  | Some _ => None
  end.

(** One property in the loop of [_unpackData]: an array whose first
    element is the string ["buffer"] is replaced by the bytes it names. *)
Definition unpackField (packedData : list byte) (bufferOffset : nat) (v : json)
    : option ufield :=
  match v with
  | JArray (JString tag :: bounds) =>
      if String.eqb tag "buffer" then
        match bound bufferOffset (bounds !! 0%nat), bound bufferOffset (bounds !! 1%nat) with
        | Some b, Some e => Some (UBytes (slice packedData b e))
        | _, _ => None
        end
      else Some (UValue v)
  | _ => Some (UValue v)
  end.

Fixpoint unpackFields (packedData : list byte) (bufferOffset : nat)
    (fields : list (string * json)) : option (list (string * ufield)) :=
  match fields with
  | [] => Some []
  | (key, v) :: rest =>
      match unpackField packedData bufferOffset v,
            unpackFields packedData bufferOffset rest with
      | Some u, Some us => Some ((key, u) :: us)
      | _, _ => None
      end
  end.

Fixpoint unpackItems (packedData : list byte) (bufferOffset : nat)
    (items : list json) : option (list ufield) :=
  match items with
  | [] => Some []
  | v :: rest =>
      match unpackField packedData bufferOffset v,
            unpackItems packedData bufferOffset rest with
      | Some u, Some us => Some (u :: us)
      | _, _ => None
      end
  end.

Definition _unpackData (packedData : list byte) : outcome unpacked :=
  match delimiterIndex packedData 0 with
  | None => Throws "Invalid data format: header delimiter not found"
  | Some delimiter =>
      let lengthBytes := take delimiter packedData in
      match parseInt lengthBytes with
      | None => Throws "Invalid data format: Invalid data length"
      | Some objLength =>
          if (objLength <=? 0)%Z
             || (Z.of_nat (length packedData) - Z.of_nat delimiter - 1 <? objLength)%Z
          then Throws "Invalid data format: Invalid data length"
          else
            let objBytes := take (Z.to_nat objLength) (drop (delimiter + 1) packedData) in
            match parse (decode objBytes) with
            | None => Throws "SyntaxError"
            | Some obj =>
                let bufferOffset := delimiter + 1 + Z.to_nat objLength in
                match obj with
                | JObject fields =>
                    match unpackFields packedData bufferOffset fields with
                    | Some us => Returns (UObject us)
                    | None => Unmodelled
                    end
                | JArray items =>
                    match unpackItems packedData bufferOffset items with
                    | Some us => Returns (UArray us)
                    | None => Unmodelled
                    end
                | _ => Returns (UOther obj)
                end
            end
      end
  end.

End Payload.

(** ** Synthesizer: the frame buffers in front of the encoder pipe

    The private fields [#frameBuffers], [#frameBufferIndex] and
    [#pipeStream] with [input], [#drain] and [reset].  The constructor
    builds [new Array(parallelWriteFrames)], which exists only for a count
    that is a natural number. *)

Module FrameBuffers.

Definition buffer : Type := list byte.

(** What reaches the pipe. *)
Inductive effect : Type :=
| Open                    (** [new stream.PassThrough()] *)
| Write (chunk : buffer)  (** [pipeStream.write(chunk)] *)
| End.                    (** [pipeStream.end()] *)

Record t : Type := mk {
  parallelWriteFrames : nat;
  (** an array slot that was never assigned is a hole, [None] *)
  frameBuffers : list (option buffer);
  frameBufferIndex : nat;
  _frameCount : nat;
  (** whether [#pipeStream] is set *)
  pipeStream : bool
}.

Definition constructor (parallelWriteFrames : nat) : t :=
  mk parallelWriteFrames (replicate parallelWriteFrames None) 0 0 false.

(** [array[i] = v]: an index past the end extends the array with holes. *)
Definition assign {A : Type} (i : nat) (v : A) (l : list (option A)) : list (option A) :=
  if (i <? length l)%nat then <[i := Some v]> l
  else l ++ replicate (i - length l) None ++ [Some v].

(** [Buffer.concat(list)] throws a [TypeError] on an element that is not a
    buffer. *)
Fixpoint concat_all (l : list (option buffer)) : option buffer :=
  match l with
  | [] => Some []
  | Some b :: rest =>
      match concat_all rest with
      | Some bytes => Some (b ++ bytes)
      | None => None
      end
  | None :: _ => None
  end.

(** [input(buffer)]. *)
Definition input (s : t) (frame : buffer) : result (t * list effect) :=
  let opened := if pipeStream s then [] else [Open] in
  let buffers := assign (frameBufferIndex s) frame (frameBuffers s) in
  let index := S (frameBufferIndex s) in
  if (index <? parallelWriteFrames s)%nat then
    Ok (mk (parallelWriteFrames s) buffers index (S (_frameCount s)) true, opened)
  else
    match concat_all buffers with
    | Some chunk =>
        Ok (mk (parallelWriteFrames s) buffers 0 (S (_frameCount s)) true,
            opened ++ [Write chunk])
    | None => Throw "TypeError"
    end.

(** [#drain()]; [closed] is what [pipeStream.closed] answers. *)
Definition drain (closed : bool) (s : t) : t * list effect :=
  if negb (pipeStream s) then (s, [])
  else
    let written :=
      if (0 <? frameBufferIndex s)%nat
      then [Write (concat (omap id (frameBuffers s)))] else [] in
    let ended := if closed then [] else [End] in
    (mk (parallelWriteFrames s) (frameBuffers s) 0 (_frameCount s) false,
     written ++ ended).

(** The part of [reset()] that concerns the buffers and the pipe. *)
Definition reset (closed : bool) (s : t) : t * list effect :=
  (mk (parallelWriteFrames s) (replicate (parallelWriteFrames s) None) 0 0 false,
   if pipeStream s && negb closed then [End] else []).

(** The frames of a list given to [input] one after the other. *)
Fixpoint inputs (s : t) (frames : list buffer) : result (t * list effect) :=
  match frames with
  | [] => Ok (s, [])
  | frame :: rest =>
      do r <- input s frame;
      do r' <- inputs (fst r) rest;
      Ok (fst r', snd r ++ snd r')
  end.

(** The bytes written to the pipe, in order. *)
Definition written (e : list effect) : buffer :=
  concat (omap (fun x => match x with Write chunk => Some chunk | _ => None end) e).

End FrameBuffers.

(** ** Task: the retry bookkeeping of the preprocessor tasks *)

Module Task.
Import JS.

Inductive STATE : Type := WAITING | EXECUTING | COMPLETED.

(** [ignoreCache], a boolean, plays no part in the scheduling. *)
Record Options : Type := mkOptions {
  o_retryCount : value;
  o_retryDelay : value
}.

Record t : Type := mk {
  state : STATE;
  retryCount : value;
  retryDelay : value;
  (** the messages of the errors so far, oldest first *)
  errors : list string;
  errorTime : value
}.

Inductive event : Type :=
| Completed
| Error (message : string).

Definition undefined_or_finite (v : value) : bool :=
  Lodash.isUndefined v || Lodash.isFinite v.

Definition constructor (o : Options) : result t :=
  do _ <- assert (undefined_or_finite (o_retryCount o)) "retryCount must be number";
  do _ <- assert (undefined_or_finite (o_retryDelay o)) "retryDelay must be number";
  Ok (mk WAITING (Lodash.defaultTo (o_retryCount o) (Num (of_Z 2)))
         (Lodash.defaultTo (o_retryDelay o) (Num (of_Z 1000))) [] Undefined).

Definition with_state (x : STATE) (task : t) : t :=
  mk x (retryCount task) (retryDelay task) (errors task) (errorTime task).

Definition with_retryCount (x : value) (task : t) : t :=
  mk (state task) x (retryDelay task) (errors task) (errorTime task).

(** [start()]; the startup time that it records is not read again. *)
Definition start (task : t) : t := with_state EXECUTING task.

Definition _emitCompleted (task : t) : t * list event :=
  (with_state COMPLETED task, [Completed]).

(** The number of errors, as the number that [errors.length] is. *)
Definition errorCount (task : t) : num := of_Z (Z.of_nat (length (errors task))).

(** [_emitError(err)] at the time [now]. *)
Definition _emitError (task : t) (err : string) (now : num) : t * list event :=
  let task := mk (state task) (retryCount task) (retryDelay task)
                 (errors task ++ [err]) (Num now) in
  if leb (errorCount task) (ToNumber (retryCount task))
  then (with_state WAITING task, [])
  else (task, [Error err]).

Definition isWaiting (task : t) : bool :=
  match state task with WAITING => true | _ => false end.

Definition isExecuting (task : t) : bool :=
  match state task with EXECUTING => true | _ => false end.

Definition isCompleted (task : t) : bool :=
  match state task with COMPLETED => true | _ => false end.

(** [canStart()] at the time [now]. *)
Definition canStart (task : t) (now : num) : bool :=
  if negb (isWaiting task) then false
  else if gtb (errorCount task) (ToNumber (retryCount task)) then false
  else if ltb now (add (ToNumber (errorTime task)) (ToNumber (retryDelay task)))
  then false
  else true.

Definition canRemove (task : t) : bool :=
  if isCompleted task then true
  else if gtb (errorCount task) (ToNumber (retryCount task)) then true
  else false.

End Task.

(** ** DownloadTask *)

Module DownloadTask.
Import JS.

Record Options : Type := mkOptions {
  o_base : Task.Options;
  (** [None] is [undefined] *)
  o_url : option string;
  o_retryFetchs : value
}.

Record t : Type := mk {
  base : Task.t;
  url : string
}.

(** [util.isURL]: defined, and matching [/^(http|https)/], which is to
    start with [http]. *)
Definition isURL (v : option string) : bool :=
  match v with
  | Some s => String.prefix "http" s
  | None => false
  end.

Definition constructor (o : Options) : result t :=
  do task <- Task.constructor (o_base o);
  do _ <- assert (isURL (o_url o)) "url is invalid";
  do _ <- assert (Task.undefined_or_finite (o_retryFetchs o))
            "retryFetchs must be number";
  Ok (mk (Task.with_retryCount (or_else (o_retryFetchs o) (Num (of_Z 2))) task)
         (default EmptyString (o_url o))).

End DownloadTask.

(** ** Preprocessor: the scheduling of one task *)

Module Preprocessor.

(** What the filter of [#dispatchTasks] does with one task at the time
    [now]: [None] when the task leaves the list, else the task, started if
    it can be. *)
Definition dispatchTask (now : JS.num) (task : Task.t) : option Task.t :=
  if Task.canRemove task then None
  else if Task.canStart task now then Some (Task.start task)
  else Some task.

(** The download side of the preprocessor (the process side is written
    the same way): the queue of the tasks that wait for a slot, the list of
    the tasks that have one, and whether the queue dispatcher is parked on
    its promise ([#downloadQueueResumeCallback] is set). *)
Record queues (A : Type) : Type := mkQueues {
  downloadQueue : list A;
  downloadTasks : list A;
  parallelDownloads : JS.num;
  parked : bool
}.
Arguments mkQueues {A} _ _ _ _.
Arguments downloadQueue {A} _.
Arguments downloadTasks {A} _.
Arguments parallelDownloads {A} _.
Arguments parked {A} _.

(** [#dispatchDownloadQueue()]: the head of the queue is shifted out, then
    either the dispatcher parks or the task gets a slot and the dispatcher
    goes on. *)
Fixpoint dispatchLoop {A : Type} (limit : JS.num) (queue tasks : list A)
    : list A * list A :=
  match queue with
  | [] => ([], tasks)
  | task :: rest =>
      if JS.geb (JS.of_Z (Z.of_nat (length tasks))) limit then (rest, tasks)
      else dispatchLoop limit rest (tasks ++ [task])
  end.

Definition dispatchDownloadQueue {A : Type} (p : queues A) : queues A :=
  let '(queue, tasks) :=
    dispatchLoop (parallelDownloads p) (downloadQueue p) (downloadTasks p) in
  mkQueues queue tasks (parallelDownloads p) true.

(** [addDownloadTask(task)]: the task is queued, and a parked dispatcher
    is woken up: the answer tells whether the resume callback was called,
    in which case [#dispatchDownloadQueue()] runs again in a later
    microtask. *)
Definition addDownloadTask {A : Type} (p : queues A) (task : A) : queues A * bool :=
  (mkQueues (downloadQueue p ++ [task]) (downloadTasks p) (parallelDownloads p) false,
   parked p).

End Preprocessor.

(** ** util: time marks and colours

    [millisecondsToHmss], [rgbToHex] and [hexToRgb].  After [parseInt] a
    time is an integer or [NaN], and so are the numbers computed from it;
    the colour functions are modelled on integers.  The arithmetic of
    integers is exact in the source as long as they stay below [2^53]. *)

Module UtilText.

(** An integer, or [NaN] ([None]). *)
Definition int : Type := option Z.

Definition lift (f : Z -> Z -> Z) (a b : int) : int :=
  match a, b with
  | Some x, Some y => Some (f x y)
  | _, _ => None
  end.

(** [String(x)]. *)
Definition showInt (x : int) : string :=
  match x with
  | Some z => Page.toString z
  | None => "NaN"
  end.

(** [parseInt(x)] of a number whose decimal form has no exponent. *)
Definition parseInt (x : JS.num) : int :=
  match x with
  | JS.Fin q => Some (JS.Qtrunc q)
  | _ => None
  end.

(** [x > 9 ? x : "0" + x]. *)
Definition pad (x : int) : string :=
  match x with
  | Some z => if (9 <? z)%Z then showInt x else ("0" ++ showInt x)%string
  | None => ("0" ++ showInt x)%string
  end.

(** [millisecondsToHmss(milliseconds)]: a string is returned as it is. *)
Definition millisecondsToHmss (milliseconds : string + JS.num) : string :=
  match milliseconds with
  | inl text => text
  | inr x =>
      let milliseconds := parseInt x in
      let sec := lift Z.div milliseconds (Some 1000%Z) in
      let hours := lift Z.div sec (Some 3600%Z) in
      let minutes :=
        lift Z.div (lift Z.sub sec (lift Z.mul hours (Some 3600%Z))) (Some 60%Z) in
      let seconds :=
        lift Z.sub (lift Z.sub sec (lift Z.mul hours (Some 3600%Z)))
                   (lift Z.mul minutes (Some 60%Z)) in
      let ms :=
        lift Z.sub (lift Z.rem milliseconds (Some 60000%Z))
                   (lift Z.mul seconds (Some 1000%Z)) in
      (pad hours ++ ":" ++ pad minutes ++ ":" ++ pad seconds ++ "." ++ showInt ms)%string
  end.

(** [ToInt32]: the operand of a shift or of [&]. *)
Definition toInt32 (z : Z) : Z := ((z + 2 ^ 31) mod 2 ^ 32 - 2 ^ 31)%Z.

(** [a << k], [a >> k] and [a & b], for [0 <= k < 32]. *)
Definition shl (a k : Z) : Z := toInt32 (Z.shiftl (toInt32 a) k).
Definition sar (a k : Z) : Z := Z.shiftr (toInt32 a) k.
Definition band (a b : Z) : Z := Z.land (toInt32 a) (toInt32 b).

Definition hexDigit (d : Z) : ascii :=
  if (d <? 10)%Z then ascii_of_nat (48 + Z.to_nat d) else ascii_of_nat (87 + Z.to_nat d).

(** The digits of [n > 0] in base 16, the most significant first, in
    front of [acc]. *)
Fixpoint hexDigits (fuel : nat) (n : Z) (acc : string) : string :=
  match fuel with
  | O => acc
  | S fuel' =>
      let acc' := String (hexDigit (n mod 16)) acc in
      if (n / 16 =? 0)%Z then acc' else hexDigits fuel' (n / 16) acc'
  end.

(** [n.toString(16)] of an integer. *)
Definition toString16 (n : Z) : string :=
  if (n =? 0)%Z then "0"%string
  else if (n <? 0)%Z
  then String "-" (hexDigits (S (Z.to_nat (Z.log2 (- n)))) (- n) EmptyString)
  else hexDigits (S (Z.to_nat (Z.log2 n))) n EmptyString.

(** [text.slice(1)]. *)
Definition slice1 (text : string) : string :=
  match text with
  | EmptyString => EmptyString
  | String _ rest => rest
  end.

(** [rgbToHex(r, g, b)]. *)
Definition rgbToHex (r g b : Z) : string :=
  slice1 (toString16 (shl 1 24 + shl r 16 + shl g 8 + b)).

(** [parseInt(text, 16)]: white space, a sign, an optional [0x], then the
    longest run of hexadecimal digits. *)
Definition parseInt16 (text : string) : int :=
  let l := Payload.skip_spaces (list_byte_of_string text) in
  let '(negative, l) :=
    match l with
    | b :: rest =>
        if Byte.eqb b "-"%byte then (true, rest)
        else if Byte.eqb b "+"%byte then (false, rest)
        else (false, l)
    | [] => (false, l)
    end in
  let l :=
    match l with
    | z :: x :: rest =>
        if Byte.eqb z "0"%byte && (Byte.eqb x "x"%byte || Byte.eqb x "X"%byte)
        then rest else l
    | _ => l
    end in
  match Payload.digits 16 None l with
  | Some n => Some (if negative then - Z.of_nat n else Z.of_nat n)%Z
  | None => None
  end.

(** [hex.replace(/^#/, "")]. *)
Definition stripHash (hex : string) : string :=
  match hex with
  | String "#" rest => rest
  | _ => hex
  end.

(** [hexToRgb(hex)]; [NaN >> k] is [0]. *)
Definition hexToRgb (hex : string) : list Z :=
  let value := default 0%Z (parseInt16 (stripHash hex)) in
  [band (sar value 16) 255; band (sar value 8) 255; band value 255].

End UtilText.

(** * Notions used by the statements *)

(** [captures trace]: how many times the loop called [____captureFrame]. *)
Definition captures (trace : list CaptureContext.effect) : nat :=
  length (List.filter (fun e => match e with
                                | CaptureContext.CaptureFrame => true
                                | _ => false
                                end) trace).

(** [completions trace]: how many times it called [____screencastCompleted]. *)
Definition completions (trace : list CaptureContext.effect) : nat :=
  length (List.filter (fun e => match e with
                                | CaptureContext.ScreencastCompleted => true
                                | _ => false
                                end) trace).

(** The tasks posted on the real event loop, in posting order, which is
    the order in which a zero-delay timer queue runs them. *)
Definition posted (trace : list CaptureContext.effect)
    : list (CaptureContext.fnref * JS.value) :=
  omap (fun e => match e with
                 | CaptureContext.RealSetTimeout f a => Some (f, a)
                 | _ => None
                 end) trace.

(** The entries of a timer queue that are due at [now], in queue order. *)
Definition due (now : JS.value) (q : list CaptureContext.timer)
    : list (CaptureContext.fnref * JS.value) :=
  List.map (fun e => (CaptureContext.fn e, now))
           (List.filter (fun e => negb (CaptureContext.pending now e)) q).



(** A context on which no capture has run yet and that is neither stopped
    nor paused. *)
Definition idle (c : CaptureContext.t) : Prop :=
  CaptureContext.currentTime c = JS.zero /\ CaptureContext.frameIndex c = 0%Z /\
  CaptureContext.stopFlag c = false /\ CaptureContext.pauseFlag c = false.

(** A configuration value that [_checkConfig] rejects: [NaN] once made a
    number, or not above zero. *)
Definition rejected (v : JS.value) : Prop :=
  JS.isNaN v = true \/ JS.v_leb v (JS.Num JS.zero) = true.

(** An odd integer. *)
Definition odd_number (v : JS.value) : Prop :=
  exists z : Z, v = JS.Num (JS.of_Z z) /\ Z.odd z = true.

(** The contexts that the page and the host can bring about, from the one
    that the constructor builds. *)
Inductive reachable : CaptureContext.t -> Prop :=
| reach_initial : reachable CaptureContext.initial
| reach_setInterval c f d :
    reachable c -> reachable (fst (CaptureContext.setInterval c f d))
| reach_setTimeout c f d :
    reachable c -> reachable (fst (CaptureContext.setTimeout c f d))
| reach_clearInterval c id :
    reachable c -> reachable (fst (CaptureContext.clearInterval c id))
| reach_clearTimeout c id :
    reachable c -> reachable (fst (CaptureContext.clearTimeout c id))
| reach_init c :
    reachable c -> reachable (fst (CaptureContext.init c))
| reach_dispatchBeforeStart c now :
    reachable c -> reachable (fst (CaptureContext.dispatchBeforeStart c now))
| reach_config c cfg :
    reachable c -> reachable (CaptureContext.with_config cfg c)
| reach_medias c ms :
    reachable c -> reachable (CaptureContext.with_dispatchMedias ms c)
| reach_ready c r :
    reachable c -> CaptureContext.ready c = Ok r -> reachable (fst r)
| reach_start c r :
    reachable c -> CaptureContext.start c = Ok r -> reachable (fst r)
| reach_nextFrame c captured :
    reachable c -> reachable (fst (fst (CaptureContext.nextFrame captured c)))
| reach_pause c b :
    reachable c -> reachable (CaptureContext.with_pauseFlag b c)
| reach_stop c :
    reachable c -> reachable (CaptureContext.with_stopFlag true c)
| reach_abort c :
    reachable c -> reachable (CaptureContext.abort c).

(** Along a queue the ids decrease: as the ids are handed out in
    decreasing order, the order of a queue is the order of insertion. *)
Definition insertion_ordered (q : list CaptureContext.timer) : Prop :=
  StronglySorted (fun a b => (b < a)%Z) (List.map CaptureContext.tid q).

(** The ids of a queue are negative and not below the counter. *)
Definition ids_bounded (counter : Z) (q : list CaptureContext.timer) : Prop :=
  Forall (fun z => (counter <= z < 0)%Z) (List.map CaptureContext.tid q).

Definition timers_ok (c : CaptureContext.t) : Prop :=
  (CaptureContext.timerId c <= 0)%Z /\
  ids_bounded (CaptureContext.timerId c) (CaptureContext.intervalCallbacks c) /\
  ids_bounded (CaptureContext.timerId c) (CaptureContext.timeoutCallbacks c) /\
  insertion_ordered (CaptureContext.intervalCallbacks c) /\
  insertion_ordered (CaptureContext.timeoutCallbacks c).

(** [q'] is [q] without its entry of id [z], if it has one. *)
Definition removes (z : Z) (q q' : list CaptureContext.timer) : Prop :=
  (exists l1 e l2, q = l1 ++ e :: l2 /\ CaptureContext.tid e = z /\ q' = l1 ++ l2 /\
                   Forall (fun x => CaptureContext.tid x <> z) (l1 ++ l2)) \/
  (q' = q /\ Forall (fun x => CaptureContext.tid x <> z) q).

(** What [_callIntervalCallbacks] leaves of an entry: a due entry carries
    the new timestamp. *)
Definition stamp (now : JS.value) (e : CaptureContext.timer) : CaptureContext.timer :=
  if CaptureContext.pending now e then e
  else CaptureContext.mkTimer (CaptureContext.tid e) now (CaptureContext.delay e)
                              (CaptureContext.fn e).


(** [q] keeps clear of the whole numbers: its fractional part is at
    least [2^-11] and less than [1 - 2^-11]. *)
Definition clear_of_integers (q : Q) : Prop :=
  (inject_Z (Qfloor q) + (1 # 2048) <= q)%Q /\
  (q < inject_Z (Qfloor q) + 1 - (1 # 2048))%Q.

(** The sum of a sequence of numbers. *)
Definition total_ms (l : list JS.num) : JS.num := foldr JS.add JS.zero l.

(** The effective duration of a chunk: [duration - transition.duration],
    where a chunk without a transition has a transition duration of 0. *)
Definition effective (c : VideoChunk.t) : JS.num :=
  JS.sub (VideoChunk.duration c) (VideoChunk.transitionDuration c).

(** The chunks of a synthesizer, as the store holds them. *)
Definition held (h : VideoChunk.store) (s : ChunkSynthesizer.t) : list VideoChunk.t :=
  omap (fun r => h !! r) (ChunkSynthesizer.chunks s).

(** A chunk that has received no frame yet; its duration is finite, as the
    constructor asserts. *)
Definition unrendered (c : VideoChunk.t) : Prop :=
  Synthesizer._frameCount (VideoChunk.base c) = 0%Z /\
  JS.isFinite_num (VideoChunk.duration c) = true.

(** The local start and end of an audio of a chunk: a start that is not a
    finite number counts as 0, an end that is not one as the duration of
    the chunk. *)
Definition local_start (a : Audio.t) : JS.num :=
  if Lodash.isFinite (Audio.startTime a) then JS.ToNumber (Audio.startTime a)
  else JS.zero.

Definition local_end (chunk : VideoChunk.t) (a : Audio.t) : JS.num :=
  if Lodash.isFinite (Audio.endTime a) then JS.ToNumber (Audio.endTime a)
  else VideoChunk.duration chunk.

(** The offset that [start()] has accumulated when it reaches the chunk
    of index [i]. *)
Definition offset_at (cs : list VideoChunk.t) (i : nat) : JS.num :=
  total_ms (List.map VideoChunk.getOutputDuration (take i cs)).

(** [a'] is [a] placed at [offset] on the timeline of the whole video. *)
Definition placed_at (chunk : VideoChunk.t) (offset : JS.num) (a a' : Audio.t) : Prop :=
  Audio.startTime a' = JS.Num (JS.add (local_start a) offset) /\
  Audio.endTime a' = JS.Num (JS.add (local_end chunk a) offset) /\
  Audio.id a' = Audio.id a /\ Audio.path a' = Audio.path a /\
  Audio.url a' = Audio.url a.

(** A value that [_unpackData] leaves as it is: not an array whose first
    element is the string ["buffer"]. *)
Definition untagged (v : JSON.json) : Prop :=
  match v with
  | JSON.JArray (JSON.JString tag :: _) => tag <> "buffer"%string
  | _ => True
  end.

Definition untagged_field (f : Payload.field) : Prop :=
  match f with
  | Payload.FValue v => untagged v
  | _ => True
  end.

(** What the page is to find: the bytes of every buffer and the other
    values as they were ([undefined] properties are absent). *)
Fixpoint expected (data : Payload.descriptor) : list (string * Payload.ufield) :=
  match data with
  | [] => []
  | (key, Payload.FBuffer bytes) :: rest => (key, Payload.UBytes bytes) :: expected rest
  | (key, Payload.FValue v) :: rest => (key, Payload.UValue v) :: expected rest
  | (key, Payload.FUndefined) :: rest => expected rest
  end.

(** The header of the descriptor survives [JSON.stringify] followed by
    [JSON.parse]. *)
Definition serializable (data : Payload.descriptor) : Prop :=
  JSON.parse (JSON.stringify (Payload.header data)) = Some (Payload.header data).

(** The bytes of a decimal numeral. *)
Definition decimal_byte (b : byte) : Prop :=
  exists k, Payload.digit 10 b = Some k.

(** [skips trace]: how many times the loop called [____skipFrame]. *)
Definition skips (trace : list CaptureContext.effect) : nat :=
  length (List.filter (fun e => match e with
                                | CaptureContext.SkipFrame => true
                                | _ => false
                                end) trace).

(** The effects of the media scheduler and of the timer dispatchers: no
    frame is captured or skipped and nothing is notified. *)
Definition background (e : list CaptureContext.effect) : Prop :=
  captures e = 0 /\ completions e = 0 /\ skips e = 0.

(** The invariant of a capture that nobody stops, towards a target of [n]
    frames from the start time [s], with a positive frame interval. *)
Record cruising (n : Z) (s : Qc) (c : CaptureContext.t) : Prop := mkCruising {
  cruising_stop : CaptureContext.stopFlag c = false;
  cruising_time : exists q, CaptureContext.currentTime c = JS.Fin q;
  cruising_interval :
    exists iv, CaptureContext.frameInterval c = JS.Fin iv /\ (0 < iv)%Qc;
  cruising_count :
    CaptureContext.frameCount (CaptureContext.config c) = JS.Num (JS.of_Z n);
  cruising_start :
    CaptureContext.startTime (CaptureContext.config c) = JS.Num (JS.Fin s)
}.

(** The frames that [#drain()] writes once more: when the last batch is
    followed by the frames of [tail], the slots past [tail] still hold the
    end of that batch. *)
Definition stale (batches : list (list FrameBuffers.buffer))
    (tail : list FrameBuffers.buffer) : list FrameBuffers.buffer :=
  match tail, last batches with
  | _ :: _, Some batch => drop (length tail) batch
  | _, _ => []
  end.

(** The state of the frame buffers when the frames of [tail] have been
    received since the last write, the slots holding [prev] before. *)
Definition buffered (P : nat) (prev : list (option FrameBuffers.buffer))
    (tail : list FrameBuffers.buffer) (s : FrameBuffers.t) : Prop :=
  FrameBuffers.parallelWriteFrames s = P /\ length prev = P /\
  length tail < P /\
  FrameBuffers.frameBufferIndex s = length tail /\
  FrameBuffers.frameBuffers s = List.map Some tail ++ drop (length tail) prev /\
  (tail <> [] -> FrameBuffers.pipeStream s = true).

(** What happens to a task in the hands of the preprocessor: a round of
    [#dispatchTasks] visits it, or the body that [start()] launched
    settles, by an error or by a result. *)
Inductive task_op : Type :=
| Visit (now : JS.num)
| Fail (err : string) (now : JS.num)
| Succeed.

Record scheduled : Type := mkScheduled {
  sch_task : Task.t;
  (** the task is still in the list of the preprocessor *)
  sch_listed : bool;
  (** a body that was started has not settled yet *)
  sch_running : bool;
  (** how many times [start()] was called *)
  sch_starts : nat;
  sch_events : list Task.event
}.

Definition schedule_step (s : scheduled) (op : task_op) : scheduled :=
  match op with
  | Visit now =>
      if negb (sch_listed s) then s
      else
        match Preprocessor.dispatchTask now (sch_task s) with
        | None =>
            mkScheduled (sch_task s) false (sch_running s) (sch_starts s) (sch_events s)
        | Some task =>
            if Task.canStart (sch_task s) now
            then mkScheduled task true true (S (sch_starts s)) (sch_events s)
            else mkScheduled task true (sch_running s) (sch_starts s) (sch_events s)
        end
  | Fail err now =>
      if sch_running s then
        let '(task, events) := Task._emitError (sch_task s) err now in
        mkScheduled task (sch_listed s) false (sch_starts s) (sch_events s ++ events)
      else s
  | Succeed =>
      if sch_running s then
        let '(task, events) := Task._emitCompleted (sch_task s) in
        mkScheduled task (sch_listed s) false (sch_starts s) (sch_events s ++ events)
      else s
  end.

Definition schedule (task : Task.t) (ops : list task_op) : scheduled :=
  foldl schedule_step (mkScheduled task true false 0 []) ops.

Definition error_events (events : list Task.event) : nat :=
  length (List.filter (fun e => match e with Task.Error _ => true | _ => false end)
                      events).

Definition completed_events (events : list Task.event) : nat :=
  length (List.filter (fun e => match e with Task.Completed => true | _ => false end)
                      events).

(** The invariant of a scheduled task whose retry count is [r]. *)
Definition retry_invariant (r : nat) (s : scheduled) : Prop :=
  let task := sch_task s in
  let e := length (Task.errors task) in
  let c := completed_events (sch_events s) in
  Task.retryCount task = JS.Num (JS.of_Z (Z.of_nat r)) /\
  sch_starts s = e + c + (if sch_running s then 1 else 0) /\
  (sch_running s = true -> Task.state task = Task.EXECUTING /\ e <= r /\ c = 0) /\
  (c = 0 \/ (c = 1 /\ Task.state task = Task.COMPLETED /\ e <= r)) /\
  e <= r + 1 /\
  error_events (sch_events s) = (if (e <=? r)%nat then 0 else 1).

(** A task fit for scheduling anew: waiting, in the list, no body
    running, with [e] errors, the last one (if any) at the time zero. *)
Definition awaiting (r e : nat) (d : Qc) (s : scheduled) : Prop :=
  Task.state (sch_task s) = Task.WAITING /\
  Task.retryCount (sch_task s) = JS.Num (JS.of_Z (Z.of_nat r)) /\
  Task.retryDelay (sch_task s) = JS.Num (JS.Fin d) /\
  (Task.errorTime (sch_task s) = JS.Undefined \/
   Task.errorTime (sch_task s) = JS.Num JS.zero) /\
  length (Task.errors (sch_task s)) = e /\
  sch_listed s = true /\ sch_running s = false.

(** [k] rounds of the scheduler, each at the time [d] and followed by the
    failure of the body at the time zero. *)
Fixpoint failing_rounds (k : nat) (d : Qc) (err : string) : list task_op :=
  match k with
  | O => []
  | S k' => Visit (JS.Fin d) :: Fail err JS.zero :: failing_rounds k' d err
  end.

(** The size and the frame rate of a synthesizer. *)
Definition geometry (s : Synthesizer.t) : JS.num * JS.num * JS.num :=
  (Synthesizer.width s, Synthesizer.height s, Synthesizer.fps s).

(** The bytes that [#packData] puts before the buffers: the decimal
    length of the header, the delimiter and the header. *)
Definition preamble (data : Payload.descriptor) : list byte :=
  let objBuffer := Payload.encode (JSON.stringify (Payload.header data)) in
  Payload.encode (Payload.decimal (length objBuffer) ++ "!") ++ objBuffer.

(** What the header of [data] carves out of the bytes [tail] that follow
    it: for every buffer, the bytes found at its offsets. *)
Fixpoint carved (data : Payload.descriptor) (bufferOffset : nat) (tail : list byte)
    : list (string * Payload.ufield) :=
  match data with
  | [] => []
  | (key, Payload.FBuffer bytes) :: rest =>
      (key, Payload.UBytes (take (length bytes) (drop bufferOffset tail)))
        :: carved rest (bufferOffset + length bytes) tail
  | (key, Payload.FValue v) :: rest =>
      (key, Payload.UValue v) :: carved rest bufferOffset tail
  | (key, Payload.FUndefined) :: rest => carved rest bufferOffset tail
  end.

(** * Properties *)

(** ** Numbers *)

Section NumFacts.
Import JS.

Lemma Qc_leb_le (a b : Qc) : Qc_leb a b = true <-> (a <= b)%Qc.
Proof. unfold Qc_leb, Qcle. apply Qle_bool_iff. Qed.

Lemma Qc_ltb_lt (a b : Qc) : Qc_ltb a b = true <-> (a < b)%Qc.
Proof.
  unfold Qc_ltb, Qclt. rewrite negb_true_iff.
  destruct (Qle_bool b a) eqn:E.
  - apply Qle_bool_iff in E. split; [discriminate | intros H; exfalso].
    exact (Qlt_not_le _ _ H E).
  - split; [intros _ | reflexivity].
    apply Qnot_le_lt. intros H. apply Qle_bool_iff in H. congruence.
Qed.

Lemma Qc_eq_bool_true (a b : Qc) : Qc_eq_bool a b = true <-> a = b.
Proof.
  split; [apply Qc_eq_bool_correct |].
  intros ->. unfold Qc_eq_bool.
  destruct (Qcanon.Qc_eq_dec b b) as [_ | n]; [reflexivity | exfalso; now apply n].
Qed.

Lemma Qc_eq_bool_false (a b : Qc) : Qc_eq_bool a b = false <-> a <> b.
Proof.
  rewrite <- Qc_eq_bool_true. destruct (Qc_eq_bool a b); split; congruence.
Qed.

(** On numbers other than [NaN], [<] is the negation of the converse [<=]. *)
Lemma ltb_negb_leb (x y : num) :
  isNaN_num x = false -> isNaN_num y = false -> ltb x y = negb (leb y x).
Proof.
  destruct x, y; simpl; intros; try discriminate; reflexivity.
Qed.

Lemma add_zero_r (x : num) : add x zero = x.
Proof.
  destruct x; simpl; try reflexivity. f_equal. apply Qcplus_0_r.
Qed.

Lemma add_zero_l (x : num) : add zero x = x.
Proof.
  destruct x; simpl; try reflexivity. f_equal. apply Qcplus_0_l.
Qed.

Lemma add_assoc (x y z : num) : add x (add y z) = add (add x y) z.
Proof.
  destruct x, y, z; simpl; try reflexivity. f_equal. apply Qcplus_assoc.
Qed.

Lemma Q2Qc_1000_nonzero : Q2Qc (inject_Z 1000) <> 0%Qc.
Proof. intros H. apply (f_equal this) in H. discriminate H. Qed.


End NumFacts.

(** From here on the arithmetic of numbers is unfolded by hand only. *)
Arguments JS.add : simpl never.
Arguments JS.sub : simpl never.
Arguments JS.mul : simpl never.
Arguments JS.div : simpl never.
Arguments JS.rem : simpl never.
Arguments JS.floor : simpl never.
Arguments JS.ltb : simpl never.
Arguments JS.leb : simpl never.
Arguments JS.eqb : simpl never.
Arguments JS.of_Z : simpl never.
Arguments JS.zero : simpl never.
Arguments JS.truthy_num : simpl never.
Arguments JS.geb : simpl never.
Arguments JS.gtb : simpl never.

Arguments JS.round64 : simpl never.
Arguments JS.div64 : simpl never.
Arguments JS.mul64 : simpl never.

(** ** Rounding to binary64 *)

Section Binary64.
Import JS.
Open Scope Q_scope.

Lemma pow2_pos (e : Z) : 0 < pow2 e.
Proof. unfold pow2. apply Qpower_0_lt. reflexivity. Qed.

Lemma pow2_add (a b : Z) : pow2 (a + b) == pow2 a * pow2 b.
Proof. unfold pow2. apply Qpower_plus. discriminate. Qed.

Lemma pow2_Z (z : Z) : (0 <= z)%Z -> pow2 z == inject_Z (2 ^ z).
Proof. intros H. unfold pow2. rewrite Zpower_Qpower by exact H. reflexivity. Qed.

Lemma nearest_even_error (x : Q) :
  - (1 # 2) <= inject_Z (nearest_even x) - x <= 1 # 2.
Proof.
  unfold nearest_even.
  pose proof (Qfloor_le x) as Hl. pose proof (Qlt_floor x) as Hu.
  rewrite inject_Z_plus in Hu. change (inject_Z 1) with 1 in Hu.
  destruct (x - inject_Z (Qfloor x) ?= 1 # 2) eqn:E.
  - apply Qeq_alt in E.
    destruct (Z.even (Qfloor x));
      [| rewrite inject_Z_plus; change (inject_Z 1) with 1]; lra.
  - apply Qlt_alt in E. lra.
  - apply Qgt_alt in E. rewrite inject_Z_plus. change (inject_Z 1) with 1. lra.
Qed.


(** [ilog2] does not overshoot. *)
Lemma ilog2_le (q : Q) : 0 < q -> pow2 (ilog2 q) <= q.
Proof.
  intros Hq. unfold ilog2.
  set (n := Qnum q). set (d := Zpos (Qden q)).
  destruct (Qle_bool _ q) eqn:E; [apply Qle_bool_iff, E |].
  assert (Hn : (0 < n)%Z).
  { unfold n. destruct q as [qn qd]. unfold Qlt in Hq. simpl in *. lia. }
  assert (Hd : (0 < d)%Z) by (unfold d; lia).
  destruct (Z.log2_spec n Hn) as [Hn1 _].
  destruct (Z.log2_spec d Hd) as [_ Hd2].
  pose proof (Z.log2_nonneg n) as Ln. pose proof (Z.log2_nonneg d) as Ld.
  replace (Z.log2 n - Z.log2 d - 1)%Z with (Z.log2 n + - (Z.succ (Z.log2 d)))%Z by lia.
  rewrite pow2_add. unfold pow2 at 2. rewrite Qpower_opp.
  fold (pow2 (Z.succ (Z.log2 d))).
  rewrite !pow2_Z by lia.
  assert (Eq : q == inject_Z n / inject_Z d).
  { unfold n, d. destruct q as [qn qd]. simpl. apply Qmake_Qdiv. }
  rewrite Eq. unfold Qdiv.
  assert (P1 : 0 < inject_Z (2 ^ Z.succ (Z.log2 d))).
  { rewrite <- pow2_Z by lia. apply pow2_pos. }
  assert (P2 : 0 < inject_Z d).
  { change 0 with (inject_Z 0). rewrite <- Zlt_Qlt. exact Hd. }
  assert (P3 : 0 <= inject_Z (2 ^ Z.log2 n)).
  { rewrite <- pow2_Z by lia. apply Qlt_le_weak, pow2_pos. }
  assert (P4 : inject_Z (2 ^ Z.log2 n) <= inject_Z n).
  { rewrite <- Zle_Qle. exact Hn1. }
  assert (P5 : inject_Z d <= inject_Z (2 ^ Z.succ (Z.log2 d))).
  { rewrite <- Zle_Qle. lia. }
  set (A := inject_Z (2 ^ Z.log2 n)) in *.
  set (B := inject_Z (2 ^ Z.succ (Z.log2 d))) in *.
  set (N := inject_Z n) in *. set (D := inject_Z d) in *.
  assert (E1 : A * / B == (A * D) * / (B * D)) by (field; split; lra).
  assert (E2 : N * / D == (N * B) * / (B * D)) by (field; split; lra).
  rewrite E1, E2. apply Qmult_le_compat_r.
  - apply Qmult_le_compat_nonneg; split; lra.
  - apply Qinv_le_0_compat, Qlt_le_weak, Qmult_lt_0_compat; assumption.
Qed.


(** From [2^-1022] on, where the significand has its 53 bits, a rounding
    moves a number by at most [2^-53] of its value. *)
Lemma nearest64_error (q : Q) :
  pow2 (-1022) <= q ->
  - (q * pow2 (-53)) <= nearest64 q - q <= q * pow2 (-53).
Proof.
  intros Hq.
  assert (Hpos : 0 < q).
  { eapply Qlt_le_trans; [apply (pow2_pos (-1022)) | exact Hq]. }
  pose proof (ilog2_le q Hpos) as Hlog.
  unfold nearest64. set (e := Z.max (ilog2 q - 52) (-1074)).
  pose proof (pow2_pos e) as He.
  pose proof (nearest_even_error (q / pow2 e)) as Herr.
  set (m := inject_Z (nearest_even (q / pow2 e))) in *.
  assert (E52 : pow2 (-52) * (1 # 2) == pow2 (-53)) by reflexivity.
  assert (Hhalf : pow2 e * (1 # 2) <= q * pow2 (-53)).
  { destruct (Z.max_spec (ilog2 q - 52) (-1074)) as [[_ E] | [_ E]];
      fold e in E; rewrite E.
    - change (-1074)%Z with (-1022 + -52)%Z.
      rewrite pow2_add, <- Qmult_assoc, E52.
      apply Qmult_le_compat_r; [exact Hq | apply Qlt_le_weak, pow2_pos].
    - replace (ilog2 q - 52)%Z with (ilog2 q + -52)%Z by lia.
      rewrite pow2_add, <- Qmult_assoc, E52.
      apply Qmult_le_compat_r; [exact Hlog | apply Qlt_le_weak, pow2_pos]. }
  assert (Eq : m * pow2 e - q == (m - q / pow2 e) * pow2 e) by (field; lra).
  rewrite Eq.
  destruct Herr as [H1 H2].
  apply (Qmult_le_compat_r _ _ (pow2 e)) in H1; [| lra].
  apply (Qmult_le_compat_r _ _ (pow2 e)) in H2; [| lra].
  lra.
Qed.

Lemma Qccompare_Gt (q : Qc) : 0 < q -> (q ?= 0)%Qc = Gt.
Proof. intros H. unfold Qccompare. apply Qgt_alt. exact H. Qed.

Lemma Qccompare_Lt (q : Qc) : q < 0 -> (q ?= 0)%Qc = Lt.
Proof. intros H. unfold Qccompare. apply Qlt_alt. exact H. Qed.

Lemma round64_error (q : Qc) :
  pow2 (-1022) <= q -> q <= pow2 1000 ->
  exists r : Qc,
    round64 q = Fin r /\
    - (q * pow2 (-53)) <= r - q <= q * pow2 (-53).
Proof.
  intros Hlo Hhi.
  assert (Hpos : 0 < q).
  { eapply Qlt_le_trans; [apply (pow2_pos (-1022)) | exact Hlo]. }
  pose proof (nearest64_error q Hlo) as Herr.
  unfold round64. rewrite (Qccompare_Gt q Hpos). cbv zeta.
  assert (U : pow2 (-53) <= 1).
  { apply Qle_bool_iff. vm_compute. reflexivity. }
  assert (Hmul : q * pow2 (-53) <= q * 1).
  { apply Qmult_le_l; [exact Hpos | exact U]. }
  assert (Hbig : pow2 1000 * 2 < pow2 1024).
  { apply Qlt_alt. vm_compute. reflexivity. }
  destruct (Qle_bool (pow2 1024) (nearest64 q)) eqn:E.
  - apply Qle_bool_iff in E. exfalso. lra.
  - exists (Q2Qc (nearest64 q)). split; [reflexivity |].
    unfold Q2Qc. cbn [this]. destruct Herr as [E1 E2].
    split; rewrite Qred_correct; assumption.
Qed.

(** Two numbers are the same when their values are. *)
Lemma exact_Fin (x : num) (q : Qc) :
  match x with
  | Fin r => Qeq_bool r q
  | _ => false
  end = true -> x = Fin q.
Proof.
  destruct x as [r | | |]; try discriminate.
  intros H. f_equal. apply Qc_is_canon, Qeq_bool_iff, H.
Qed.
(** Some roundings: a tenth; two ties, which go to the even significand;
    the first number that overflows; half of the least subnormal number,
    which is a tie and goes to zero; and three halves of it, which go to
    twice it. *)
Lemma round64_examples :
  round64 (Q2Qc (1 # 10)) = Fin (Q2Qc (3602879701896397 # 36028797018963968)) /\
  round64 (Q2Qc (inject_Z (2 ^ 53 + 1))) = of_Z (2 ^ 53) /\
  round64 (Q2Qc (inject_Z (2 ^ 53 + 3))) = of_Z (2 ^ 53 + 4) /\
  round64 (Q2Qc (pow2 1024)) = PInf /\
  round64 (Q2Qc (pow2 (-1075))) = Fin 0%Qc /\
  round64 (Q2Qc (pow2 (-1074) * (3 # 2))) = Fin (Q2Qc (pow2 (-1073))).
Proof.
  repeat split; try (vm_compute; reflexivity);
    apply exact_Fin; vm_compute; reflexivity.
Qed.


(** The largest whole number below a number that keeps clear of the
    whole numbers does not move with it. *)
Lemma Qfloor_unique (x : Q) (k : Z) :
  inject_Z k <= x -> x < inject_Z k + 1 -> Qfloor x = k.
Proof.
  intros H1 H2.
  assert (k <= Qfloor x)%Z.
  { rewrite <- (Qfloor_Z k). apply Qfloor_resp_le, H1. }
  assert (Qfloor x < k + 1)%Z.
  { rewrite Zlt_Qlt, inject_Z_plus. change (inject_Z 1) with 1.
    eapply Qle_lt_trans; [apply Qfloor_le | exact H2]. }
  lia.
Qed.

End Binary64.

(** ** The scheduling window of a media *)

(** C9. For a VideoCanvas that has not been destroyed, whose two time
    points are numbers as its constructor asserts, and for a time that is
    a number: [canPlay(t)] answers [true] exactly when
    [startTime <= t < endTime], and [canDestory(t)] answers [true] exactly
    when [t >= endTime]. *)
Theorem canPlay_canDestory_window (m : VideoCanvas.t) (time : JS.num) :
  VideoCanvas.destoryed m = false ->
  InnerUtil.isNumber (VideoCanvas.startTime m) = true ->
  InnerUtil.isNumber (VideoCanvas.endTime m) = true ->
  JS.isNaN_num time = false ->
  (VideoCanvas.canPlay m time = Some true <->
     JS.leb (JS.ToNumber (VideoCanvas.startTime m)) time = true /\
     JS.ltb time (JS.ToNumber (VideoCanvas.endTime m)) = true) /\
  (VideoCanvas.canDestory m time = true <->
     JS.geb time (JS.ToNumber (VideoCanvas.endTime m)) = true).
Proof.
  intros Hd Hs He Ht.
  unfold InnerUtil.isNumber, JS.isNaN in Hs, He.
  apply negb_true_iff in Hs, He.
  unfold VideoCanvas.canPlay, VideoCanvas.canDestory. rewrite Hd.
  split; [| reflexivity].
  rewrite (ltb_negb_leb time _ Ht Hs).
  rewrite (ltb_negb_leb time _ Ht He).
  unfold JS.geb.
  destruct (JS.leb (JS.ToNumber (VideoCanvas.startTime m)) time),
           (JS.leb (JS.ToNumber (VideoCanvas.endTime m)) time);
    simpl; split; intros H; try discriminate; try (destruct H; discriminate);
    auto.
Qed.

Lemma canPlay_canDestory_window_witness :
  let m := VideoCanvas.mk (JS.Num (JS.of_Z 1000)) (JS.Num (JS.of_Z 6000))
                          JS.Undefined false true true in
  VideoCanvas.destoryed m = false /\
  InnerUtil.isNumber (VideoCanvas.startTime m) = true /\
  InnerUtil.isNumber (VideoCanvas.endTime m) = true /\
  JS.isNaN_num (JS.of_Z 2000) = false /\
  (VideoCanvas.canPlay m (JS.of_Z 2000) = Some true <->
     JS.leb (JS.ToNumber (VideoCanvas.startTime m)) (JS.of_Z 2000) = true /\
     JS.ltb (JS.of_Z 2000) (JS.ToNumber (VideoCanvas.endTime m)) = true) /\
  (VideoCanvas.canDestory m (JS.of_Z 2000) = true <->
     JS.geb (JS.of_Z 2000) (JS.ToNumber (VideoCanvas.endTime m)) = true).
Proof.
  intros m.
  repeat (split; [reflexivity |]).
  apply (canPlay_canDestory_window m (JS.of_Z 2000)); reflexivity.
Defined.

(** ** Frame counts and durations *)

Section FrameCount.
Import JS.
Open Scope Q_scope.

Lemma div64_finite (a b : Qc) :
  b <> 0%Qc -> div64 (Fin a) (Fin b) = round64 (a / b)%Qc.
Proof.
  intros H. apply Qc_eq_bool_false in H. unfold div64, div. rewrite H. reflexivity.
Qed.

Lemma mul64_finite (a b : Qc) : mul64 (Fin a) (Fin b) = round64 (a * b)%Qc.
Proof. reflexivity. Qed.

Lemma this_div (a b : Qc) : this (a / b)%Qc == a / b.
Proof.
  unfold Qcdiv, Qcmult, Qcinv, Q2Qc. cbn [this]. rewrite !Qred_correct. reflexivity.
Qed.

Lemma this_mul (a b : Qc) : this (a * b)%Qc == a * b.
Proof. unfold Qcmult, Q2Qc. cbn [this]. apply Qred_correct. Qed.

Lemma this_of_Z (z : Z) : this (Q2Qc (inject_Z z)) == inject_Z z.
Proof. unfold Q2Qc. cbn [this]. apply Qred_correct. Qed.

Lemma durationToFrameCount_finite (d f : Qc) :
  Util.durationToFrameCount (Num (Fin d)) (Num (Fin f)) =
  Ok (floor (mul64 (div64 (Fin d) (of_Z 1000)) (Fin f))).
Proof. reflexivity. Qed.

Lemma frameCountToDuration_finite (n f : Qc) :
  Util.frameCountToDuration (Num (Fin n)) (Num (Fin f)) = Ok (div64 (Fin n) (Fin f)).
Proof. reflexivity. Qed.

Lemma pow2_small : pow2 (-1022) <= pow2 (-1015) * (1 # 2).
Proof. apply Qle_bool_iff. vm_compute. reflexivity. Qed.



(** Three roundings keep [frameCount / fps / 1000 * fps] within [2^-11]
    of [frameCount / 1000], while this one is at most [2^40]. *)
Lemma roundtrip_near (n f : Qc) :
  1 <= n -> n <= pow2 40 * 1000 -> pow2 (-500) <= f -> f <= pow2 500 ->
  exists a b c : Qc,
    div64 (Fin n) (Fin f) = Fin a /\
    div64 (Fin a) (of_Z 1000) = Fin b /\
    mul64 (Fin b) (Fin f) = Fin c /\
    - (n / f * pow2 (-53)) <= a - n / f <= n / f * pow2 (-53) /\
    - (1 # 2048) <= c - n / 1000 <= 1 # 2048.
Proof.
  intros Hn1 Hn2 Hf1 Hf2.
  pose proof (pow2_pos (-500)) as P500.
  assert (Hfpos : 0 < f) by lra.
  assert (Hfne : f <> 0%Qc).
  { intros E. rewrite E in Hfpos. discriminate Hfpos. }
  rewrite div64_finite by exact Hfne.
  set (x := (n / f)%Qc).
  assert (Hx : this x == n / f) by apply this_div.
  assert (Hxf : x * f == n) by (rewrite Hx; field; lra).
  assert (Hinv1 : / pow2 500 <= / f).
  { apply Qle_shift_inv_l; [exact Hfpos |].
    apply Qle_trans with (/ pow2 500 * pow2 500).
    - apply Qmult_le_l; [reflexivity | exact Hf2].
    - apply Qle_bool_iff. vm_compute. reflexivity. }
  assert (Hinv2 : / f <= / pow2 (-500)).
  { apply Qle_shift_inv_r; [exact Hfpos |].
    apply Qle_trans with (/ pow2 (-500) * pow2 (-500)).
    - apply Qle_bool_iff. vm_compute. reflexivity.
    - apply Qmult_le_l; [reflexivity | exact Hf1]. }
  assert (Hxlo : pow2 (-1022) <= x).
  { rewrite Hx. unfold Qdiv.
    apply Qle_trans with (1 * / pow2 500).
    - apply Qle_bool_iff. vm_compute. reflexivity.
    - apply Qmult_le_compat_nonneg; split; try lra. discriminate. }
  assert (Hxhi : x <= pow2 1000).
  { rewrite Hx. unfold Qdiv.
    apply Qle_trans with (pow2 40 * 1000 * / pow2 (-500)).
    - apply Qmult_le_compat_nonneg; split; try lra.
      apply Qle_trans with (/ pow2 500); [discriminate | exact Hinv1].
    - apply Qle_bool_iff. vm_compute. reflexivity. }
  destruct (round64_error x Hxlo Hxhi) as (a & Ea & Ha).
  rewrite Ea. exists a.
  unfold of_Z. rewrite div64_finite by apply Q2Qc_1000_nonzero.
  set (x2 := (a / Q2Qc (inject_Z 1000))%Qc).
  assert (Hx2 : this x2 == a * (1 # 1000)).
  { unfold x2. rewrite this_div, this_of_Z. field. }
  assert (U : pow2 (-53) == 1 # 9007199254740992) by reflexivity.
  assert (Ha' := Ha). rewrite U in Ha'.
  assert (L1022 : pow2 (-1022) <= / pow2 500 * (1 # 4000)).
  { apply Qle_bool_iff. vm_compute. reflexivity. }
  assert (Hxlo' : / pow2 500 <= x).
  { rewrite Hx. unfold Qdiv. rewrite <- (Qmult_1_l (/ pow2 500)).
    apply Qmult_le_compat_nonneg; split; try lra. discriminate. }
  assert (Hxhi' : x <= pow2 40 * 1000 * / pow2 (-500)).
  { rewrite Hx. unfold Qdiv.
    apply Qmult_le_compat_nonneg; split; try lra.
    apply Qle_trans with (/ pow2 500); [discriminate | exact Hinv1]. }
  assert (P1 : 0 < / pow2 500) by reflexivity.
  assert (H1000 : pow2 40 * 1000 * / pow2 (-500) * 2 <= pow2 1000).
  { apply Qle_bool_iff. vm_compute. reflexivity. }
  assert (Hx2lo : pow2 (-1022) <= x2) by lra.
  assert (Hx2hi : x2 <= pow2 1000) by lra.
  destruct (round64_error x2 Hx2lo Hx2hi) as (b & Eb & Hb).
  rewrite Eb. exists b. rewrite mul64_finite. rewrite U in Hb.
  set (y := (b * f)%Qc).
  assert (Hy : this y == b * f) by apply this_mul.
  (* the two error bounds, multiplied by the frame rate *)
  assert (Haf : - (n * (1 # 9007199254740992)) <= a * f - n
                <= n * (1 # 9007199254740992)).
  { destruct Ha' as [H1 H2].
    apply (Qmult_le_compat_r _ _ f) in H1; [| lra].
    apply (Qmult_le_compat_r _ _ f) in H2; [| lra].
    split; lra. }
  assert (Hbf : - (a * f * (1 # 1000) * (1 # 9007199254740992))
                <= b * f - a * f * (1 # 1000)
                <= a * f * (1 # 1000) * (1 # 9007199254740992)).
  { destruct Hb as [H1 H2]. rewrite Hx2 in H1, H2.
    apply (Qmult_le_compat_r _ _ f) in H1; [| lra].
    apply (Qmult_le_compat_r _ _ f) in H2; [| lra].
    split; lra. }
  rewrite <- Hy in Hbf.
  assert (H40 : pow2 40 == 1099511627776) by reflexivity.
  rewrite H40 in Hn2.
  pose proof pow2_small as Hsmall.
  assert (L2 : pow2 (-1022) <= 1 # 2000).
  { apply Qle_bool_iff. vm_compute. reflexivity. }
  assert (Hylo : pow2 (-1022) <= y) by lra.
  assert (Hyhi : y <= pow2 1000).
  { apply Qle_trans with (2 * 1099511627776); [lra |].
    apply Qle_bool_iff. vm_compute. reflexivity. }
  destruct (round64_error y Hylo Hyhi) as (c & Ec & Hc).
  rewrite U in Hc. exists c.
  split; [reflexivity |]. split; [reflexivity |]. split; [exact Ec |].
  split; [rewrite <- Hx; exact Ha |].
  assert (En : n / 1000 == n * (1 # 1000)) by field.
  rewrite En. clearbody y. lra.
Qed.

Lemma Qfloor_near (p c : Q) :
  - (1 # 2048) <= c - p <= 1 # 2048 -> clear_of_integers p -> Qfloor c = Qfloor p.
Proof.
  intros Hc [H1 H2]. apply Qfloor_unique; lra.
Qed.

(** Near a whole number the floor can only step down by one. *)
Lemma Qfloor_near_whole (c : Q) (k : Z) :
  - (1 # 2048) <= c - inject_Z k <= 1 # 2048 ->
  Qfloor c = k \/ Qfloor c = (k - 1)%Z.
Proof.
  intros Hc. destruct (Qlt_le_dec c (inject_Z k)) as [Hlt | Hge].
  - right. apply Qfloor_unique.
    + replace (k - 1)%Z with (k + -1)%Z by lia.
      rewrite inject_Z_plus. change (inject_Z (-1)) with (-1). lra.
    + replace (k - 1)%Z with (k + -1)%Z by lia.
      rewrite inject_Z_plus. change (inject_Z (-1)) with (-1). lra.
  - left. apply Qfloor_unique; lra.
Qed.

(** A thousandth of a whole number that is not a multiple of 1000. *)
Lemma thousandth (m : Z) :
  inject_Z m * (1 # 1000) ==
    inject_Z (m / 1000) + inject_Z (m mod 1000) * (1 # 1000).
Proof.
  rewrite (Z.div_mod m 1000) at 1 by discriminate.
  rewrite inject_Z_plus, inject_Z_mult. change (inject_Z 1000) with 1000. ring.
Qed.

Lemma thousandth_floor (m : Z) : Qfloor (inject_Z m * (1 # 1000)) = (m / 1000)%Z.
Proof.
  pose proof (Z.mod_pos_bound m 1000 eq_refl) as [H1 H2].
  apply Qfloor_unique; rewrite thousandth.
  - assert (0 <= inject_Z (m mod 1000)).
    { change 0 with (inject_Z 0). rewrite <- Zle_Qle. exact H1. }
    lra.
  - assert (inject_Z (m mod 1000) < 1000).
    { change 1000 with (inject_Z 1000). rewrite <- Zlt_Qlt. exact H2. }
    lra.
Qed.

Lemma thousandth_clear (m : Z) :
  (m mod 1000 <> 0)%Z -> clear_of_integers (inject_Z m * (1 # 1000)).
Proof.
  intros Hm. pose proof (Z.mod_pos_bound m 1000 eq_refl) as [H1 H2].
  unfold clear_of_integers. rewrite thousandth_floor, thousandth.
  assert (1 <= inject_Z (m mod 1000)).
  { change 1 with (inject_Z 1). rewrite <- Zle_Qle. lia. }
  assert (inject_Z (m mod 1000) <= 999).
  { change 999 with (inject_Z 999). rewrite <- Zle_Qle. lia. }
  split; lra.
Qed.

Lemma of_Z_inj (a b : Z) : of_Z a = of_Z b -> a = b.
Proof.
  unfold of_Z. intros [= H].
  apply (f_equal Qfloor) in H. rewrite !Qred_correct in H.
  rewrite !Qfloor_Z in H. exact H.
Qed.




End FrameCount.

(** C10 (amended). [frameCountToDuration(fc, fps)] is [fc / fps] with no
    factor of 1000 and [durationToFrameCount(d, fps)] is
    [floor(d / 1000 * fps)], every operation rounded to binary64.  Hence,
    for a whole frame count from 1 to [2^40] and a frame rate between
    [2^-500] and [2^500], converting the frame count to a duration and
    back gives [floor(fc / 1000)], or one less when [fc] is a multiple of
    1000: in both cases less than [fc]; and [startScreencast] given a frame
    count and no duration derives the duration [fc / fps] up to one
    rounding, the seconds and not the milliseconds that [fc] frames last. *)
Theorem frameCount_duration_mismatch (fc : Z) (fps : Qc) :
  let FC := JS.Num (JS.of_Z fc) in
  let FPS := JS.Num (JS.Fin fps) in
  (forall q : Qc,
     Util.frameCountToDuration (JS.Num (JS.Fin q)) FPS =
       Ok (JS.div64 (JS.Fin q) (JS.Fin fps))) /\
  (forall d : Qc,
     Util.durationToFrameCount (JS.Num (JS.Fin d)) FPS =
       Ok (JS.floor (JS.mul64 (JS.div64 (JS.Fin d) (JS.of_Z 1000)) (JS.Fin fps)))) /\
  ((1 <= fc <= 2 ^ 40)%Z -> (JS.pow2 (-500) <= fps)%Q -> (fps <= JS.pow2 500)%Q ->
   exists (back : Z) (derived : Qc),
     (do d <- Util.frameCountToDuration FC FPS;
      Util.durationToFrameCount (JS.Num d) FPS) = Ok (JS.of_Z back) /\
     (back = fc / 1000 \/ fc mod 1000 = 0 /\ back = fc / 1000 - 1)%Z /\
     (back < fc)%Z /\
     Page.startScreencast Page.READY
       (Page.mkOptions FPS JS.Undefined JS.Undefined FC None) =
       Ok (Page.mkOptions FPS (JS.Num JS.zero) (JS.Num (JS.Fin derived)) FC
                          (Some true)) /\
     (- (inject_Z fc / fps * JS.pow2 (-53)) <= derived - inject_Z fc / fps
        <= inject_Z fc / fps * JS.pow2 (-53))%Q).
Proof.
  intros FC FPS. split; [reflexivity |]. split; [reflexivity |].
  intros [Hfc1 Hfc2] Hf1 Hf2.
  set (n := Q2Qc (inject_Z fc)).
  assert (Hn : (this n == inject_Z fc)%Q) by apply this_of_Z.
  destruct (roundtrip_near n fps) as (a & b & c & Ea & Eb & Ec & Ha & Hc);
    try assumption.
  { rewrite Hn. change 1%Q with (inject_Z 1). rewrite <- Zle_Qle. exact Hfc1. }
  { rewrite Hn. apply Qle_trans with (inject_Z (2 ^ 40)).
    - rewrite <- Zle_Qle. exact Hfc2.
    - apply Qle_bool_iff. vm_compute. reflexivity. }
  exists (Qfloor c), a.
  assert (Hback : (do d <- Util.frameCountToDuration FC FPS;
                   Util.durationToFrameCount (JS.Num d) FPS)
                  = Ok (JS.of_Z (Qfloor c))).
  { unfold FC, FPS, JS.of_Z. fold n.
    rewrite frameCountToDuration_finite, Ea. unfold bind.
    rewrite durationToFrameCount_finite, Eb, Ec. reflexivity. }
  assert (Hp : (n / 1000 == inject_Z fc * (1 # 1000))%Q).
  { rewrite Hn. field. }
  rewrite Hp in Hc.
  assert (Hnear : (Qfloor c = fc / 1000 \/
                   fc mod 1000 = 0 /\ Qfloor c = fc / 1000 - 1)%Z).
  { destruct (Z.eq_dec (fc mod 1000)%Z 0%Z) as [E0 | E0].
    - assert (Hk : (inject_Z fc * (1 # 1000) == inject_Z (fc / 1000)%Z)%Q).
      { rewrite thousandth, E0. change (inject_Z 0) with 0%Q. ring. }
      rewrite Hk in Hc.
      destruct (Qfloor_near_whole c (fc / 1000)%Z Hc) as [H | H]; auto.
    - left. rewrite (Qfloor_near _ c Hc (thousandth_clear fc E0)).
      apply thousandth_floor. }
  split; [exact Hback |]. split; [exact Hnear |].
  split.
  { assert (fc / 1000 < fc)%Z by (apply Z.div_lt; lia).
    destruct Hnear as [-> | [_ ->]]; lia. }
  split.
  - unfold Page.startScreencast, FC, FPS, JS.of_Z. fold n. simpl.
    rewrite Ea. reflexivity.
  - rewrite <- Hn. exact Ha.
Qed.

Lemma frameCount_duration_mismatch_witness :
  let fc := 300%Z in
  let fps := Q2Qc (inject_Z 30) in
  (1 <= fc <= 2 ^ 40)%Z /\ (JS.pow2 (-500) <= fps)%Q /\ (fps <= JS.pow2 500)%Q /\
  exists (back : Z) (derived : Qc),
    (do d <- Util.frameCountToDuration (JS.Num (JS.of_Z fc)) (JS.Num (JS.Fin fps));
     Util.durationToFrameCount (JS.Num d) (JS.Num (JS.Fin fps))) = Ok (JS.of_Z back) /\
    (back = fc / 1000 \/ fc mod 1000 = 0 /\ back = fc / 1000 - 1)%Z /\
    (back < fc)%Z /\
    Page.startScreencast Page.READY
      (Page.mkOptions (JS.Num (JS.Fin fps)) JS.Undefined JS.Undefined
                      (JS.Num (JS.of_Z fc)) None) =
      Ok (Page.mkOptions (JS.Num (JS.Fin fps)) (JS.Num JS.zero)
                         (JS.Num (JS.Fin derived)) (JS.Num (JS.of_Z fc)) (Some true)) /\
    (- (inject_Z fc / fps * JS.pow2 (-53)) <= derived - inject_Z fc / fps
       <= inject_Z fc / fps * JS.pow2 (-53))%Q.
Proof.
  intros fc fps.
  assert (H1 : (1 <= fc <= 2 ^ 40)%Z) by (unfold fc; lia).
  assert (H2 : (JS.pow2 (-500) <= fps)%Q).
  { apply Qle_bool_iff. vm_compute. reflexivity. }
  assert (H3 : (fps <= JS.pow2 500)%Q).
  { apply Qle_bool_iff. vm_compute. reflexivity. }
  split; [exact H1 |]. split; [exact H2 |]. split; [exact H3 |].
  exact (proj2 (proj2 (frameCount_duration_mismatch fc fps)) H1 H2 H3).
Defined.

(** C10, as stated, fails in two ways.  In binary64 the round trip of
    1000 frames at 13 frames per second is [floor(0.9999999999999999)],
    which is 0 and not [floor(1000 / 1000) = 1]; and at a frame rate of
    zero the duration derived from 30 frames is infinite and
    [durationToFrameCount] rejects it. *)
Lemma frameCount_roundtrip_counterexamples :
  ((do d <- Util.frameCountToDuration (JS.Num (JS.of_Z 1000)) (JS.Num (JS.of_Z 13));
    Util.durationToFrameCount (JS.Num d) (JS.Num (JS.of_Z 13))) = Ok (JS.of_Z 0)
   /\ JS.floor (JS.div (JS.of_Z 1000) (JS.of_Z 1000)) = JS.of_Z 1)
  /\ ((do d <- Util.frameCountToDuration (JS.Num (JS.of_Z 30)) (JS.Num (JS.of_Z 0));
       Util.durationToFrameCount (JS.Num d) (JS.Num (JS.of_Z 0)))
      = Throw "duration must be number"
      /\ (do d <- Util.frameCountToDuration (JS.Num (JS.of_Z 30)) (JS.Num (JS.of_Z 0));
          Util.durationToFrameCount (JS.Num d) (JS.Num (JS.of_Z 0)))
         <> Ok (JS.floor (JS.div (JS.of_Z 30) (JS.of_Z 1000)))).
Proof.
  split; [split; vm_compute; reflexivity |].
  split; [vm_compute; reflexivity | discriminate].
Qed.

(** ** The capture loop *)

Section CaptureLoop.
Import JS CaptureContext.

Lemma leb_of_Z (a b : Z) : leb (of_Z a) (of_Z b) = (a <=? b)%Z.
Proof.
  unfold leb, of_Z, Qc_leb. apply eq_true_iff_eq.
  rewrite Qle_bool_iff, Z.leb_le. simpl.
  rewrite !Qred_correct, <- Zle_Qle. reflexivity.
Qed.

Lemma captures_app (a b : list effect) : captures (a ++ b) = captures a + captures b.
Proof. unfold captures. rewrite List.filter_app, length_app. reflexivity. Qed.

Lemma completions_app (a b : list effect) :
  completions (a ++ b) = completions a + completions b.
Proof. unfold completions. rewrite List.filter_app, length_app. reflexivity. Qed.












Lemma Qc_leb_pos (q : Qc) : (0 < q)%Qc -> Qc_leb q 0 = false.
Proof.
  intros H. destruct (Qc_leb q 0) eqn:E; [| reflexivity].
  apply Qc_leb_le in E. exfalso. exact (Qclt_not_le _ _ H E).
Qed.

End CaptureLoop.





(** ** Configuration errors *)

Section ConfigErrors.
Import JS.

Lemma assert_false {A : Type} (b : bool) (m : string) (k : unit -> result A) :
  b = false -> (do x <- assert b m; k x) = Throw m.
Proof. intros ->. reflexivity. Qed.

Lemma assert_skip {A : Type} (b : bool) (m : string) (k : unit -> result A) :
  (exists msg, k tt = Throw msg) -> exists msg, (do x <- assert b m; k x) = Throw msg.
Proof. intros [msg H]. destruct b; simpl; eauto. Qed.

Lemma inject_Z_Qc_inj (a b : Z) : Q2Qc (inject_Z a) = Q2Qc (inject_Z b) -> a = b.
Proof.
  intros H. apply (f_equal this) in H. simpl in H.
  apply inject_Z_injective. rewrite <- (Qred_correct (inject_Z a)), H.
  apply Qred_correct.
Qed.

(** The remainder by two of an odd integer is not zero. *)
Lemma rem_odd (z : Z) : Z.odd z = true -> eqb (rem (of_Z z) (of_Z 2)) zero = false.
Proof.
  intros Hodd. unfold rem, of_Z.
  assert (E : Qc_eq_bool (Q2Qc (inject_Z 2)) 0 = false).
  { apply Qc_eq_bool_false. intros H. apply (inject_Z_Qc_inj 2 0) in H. discriminate. }
  rewrite E. unfold eqb, zero. apply Qc_eq_bool_false.
  set (k := Qtrunc _). intros H.
  assert (H' : Q2Qc (inject_Z z) = Q2Qc (inject_Z (2 * k))).
  { rewrite <- (Qcplus_0_l (Q2Qc (inject_Z (2 * k)))). rewrite <- H.
    apply Qc_is_canon. simpl. rewrite !Qred_correct.
    rewrite inject_Z_mult. ring. }
  apply inject_Z_Qc_inj in H'. rewrite H', Z.odd_mul in Hodd. discriminate.
Qed.

Lemma checkConfig_rejects (c : CaptureContext.t) :
  rejected (CaptureContext.fps (CaptureContext.config c)) \/
  rejected (CaptureContext.duration (CaptureContext.config c)) \/
  rejected (CaptureContext.frameCount (CaptureContext.config c)) ->
  exists msg, CaptureContext._checkConfig c = Throw msg.
Proof.
  unfold rejected, CaptureContext._checkConfig.
  intros H.
  destruct (isNaN (CaptureContext.fps _) || v_leb (CaptureContext.fps _) _) eqn:E1;
    [eauto |].
  destruct (isNaN (CaptureContext.duration _) || v_leb (CaptureContext.duration _) _)
    eqn:E2; [eauto |].
  destruct (isNaN (CaptureContext.frameCount _) || v_leb (CaptureContext.frameCount _) _)
    eqn:E3; [eauto |].
  apply orb_false_iff in E1, E2, E3.
  destruct E1, E2, E3. intuition congruence.
Qed.

End ConfigErrors.

(** C7 (amended). On a context that is ready, starting a capture whose
    frame rate, duration or frame count is [NaN] (as [undefined] is, once
    made a number) or is not above zero throws before the loop is entered,
    so that no frame is produced; and constructing a Synthesizer with a
    width or height that is not finite or is odd, with a duration that is
    not finite, or with a format outside of mp4 and webm throws. *)
Theorem invalid_configuration_throws :
  (forall (c : CaptureContext.t) (fuel : nat) (frames : nat -> bool),
     CaptureContext.readyFlag c = true ->
     rejected (CaptureContext.fps (CaptureContext.config c)) \/
     rejected (CaptureContext.duration (CaptureContext.config c)) \/
     rejected (CaptureContext.frameCount (CaptureContext.config c)) ->
     exists msg, CaptureContext.capture fuel frames c = Throw msg) /\
  (forall (isVideoChunk : bool) (o : Synthesizer.Options),
     Lodash.isFinite (Synthesizer.o_width o) = false \/
     odd_number (Synthesizer.o_width o) \/
     Lodash.isFinite (Synthesizer.o_height o) = false \/
     odd_number (Synthesizer.o_height o) \/
     Lodash.isFinite (Synthesizer.o_duration o) = false \/
     (exists f, Synthesizer.o_format o = Some f /\
                Transition.includes f Synthesizer.SUPPORT_FORMAT = false) ->
     exists msg, Synthesizer.constructor isVideoChunk o = Throw msg).
Proof.
  split.
  - intros c fuel frames Hready Hbad.
    destruct (checkConfig_rejects c Hbad) as [msg Hmsg].
    exists msg. unfold CaptureContext.capture, CaptureContext.start.
    rewrite Hready. simpl. rewrite Hmsg. reflexivity.
  - intros isVideoChunk o H. unfold Synthesizer.constructor.
    destruct H as [H | [H | H]].
    { rewrite assert_false; [eauto | rewrite H; reflexivity]. }
    { destruct H as (z & -> & Hodd).
      rewrite assert_false; [eauto |]. simpl. apply rem_odd, Hodd. }
    apply assert_skip.
    destruct H as [H | [H | H]].
    { rewrite assert_false; [eauto | rewrite H; reflexivity]. }
    { destruct H as (z & -> & Hodd).
      rewrite assert_false; [eauto |]. simpl. apply rem_odd, Hodd. }
    apply assert_skip.
    destruct H as [H | (f & Hf & Hin)].
    { rewrite assert_false; [eauto | exact H]. }
    do 3 apply assert_skip.
    rewrite assert_false; [eauto |]. rewrite Hf. exact Hin.
Qed.

Lemma invalid_configuration_throws_witness :
  let c := CaptureContext.with_readyFlag true CaptureContext.initial in
  let o := Synthesizer.mkOptions (JS.Num (JS.of_Z 1281)) (JS.Num (JS.of_Z 720))
             JS.Undefined (JS.Num (JS.of_Z 5000)) None (Some "out.mp4"%string)
             JS.Undefined JS.Undefined JS.Undefined JS.Undefined JS.Undefined None in
  CaptureContext.readyFlag c = true /\
  rejected (CaptureContext.fps (CaptureContext.config c)) /\
  odd_number (Synthesizer.o_width o) /\
  (exists msg, CaptureContext.capture 10 (fun _ => true) c = Throw msg) /\
  (exists msg, Synthesizer.constructor false o = Throw msg).
Proof.
  intros c o.
  assert (H1 : CaptureContext.readyFlag c = true) by reflexivity.
  assert (H2 : rejected (CaptureContext.fps (CaptureContext.config c)))
    by (right; reflexivity).
  assert (H3 : odd_number (Synthesizer.o_width o))
    by (exists 1281%Z; split; reflexivity).
  repeat (split; [assumption |]).
  split.
  - exact (proj1 invalid_configuration_throws c 10 (fun _ => true) H1 (or_introl H2)).
  - exact (proj2 invalid_configuration_throws false o (or_intror (or_introl H3))).
Defined.

(** C7, as stated, fails for a frame rate of [+Infinity]: it is not a
    finite positive number, yet [_checkConfig] accepts it and the first
    pass of the loop requests a frame. *)
Lemma infinite_fps_is_accepted :
  let c :=
    CaptureContext.with_config
      (CaptureContext.mkConfig (JS.Num JS.PInf) (JS.Num JS.zero)
         (JS.Num (JS.of_Z 1000)) (JS.Num (JS.of_Z 30)) true)
      (CaptureContext.with_readyFlag true CaptureContext.initial) in
  Lodash.isFinite (CaptureContext.fps (CaptureContext.config c)) = false /\
  CaptureContext._checkConfig c = Ok tt /\
  (do r <- CaptureContext.capture 1 (fun _ => true) c;
   Ok (captures (snd (fst r)))) = Ok 1.
Proof. repeat split; vm_compute; reflexivity. Qed.

(** ** The timer shim *)

Section TimerShim.
Import JS CaptureContext.

Lemma eqb_of_Z (a b : Z) : eqb (of_Z a) (of_Z b) = (a =? b)%Z.
Proof.
  unfold eqb, of_Z. apply eq_true_iff_eq.
  rewrite Qc_eq_bool_true, Z.eqb_eq. split; [| congruence].
  intros H. apply (f_equal this) in H. simpl in H.
  apply inject_Z_injective. rewrite <- (Qred_correct (inject_Z a)), H.
  apply Qred_correct.
Qed.

Lemma drop_timer_filter (z : Z) (q : list timer) :
  drop_timer (of_Z z) q = List.filter (fun e => negb (tid e =? z)%Z) q.
Proof.
  unfold drop_timer. apply List.filter_ext. intros e. rewrite eqb_of_Z. reflexivity.
Qed.

(** The queue after the loop of [_callIntervalCallbacks]: the entries
    from [i] on that are due carry the new timestamp; the callbacks of
    these are posted in queue order. *)

Lemma intervalLoop_spec (now : value) : forall n i q out,
  n + i = length q ->
  intervalLoop n i now q out =
  (take i q ++ List.map (stamp now) (drop i q),
   out ++ List.map (fun e => RealSetTimeout (fn e) now)
            (List.filter (fun e => negb (pending now e)) (drop i q))).
Proof.
  induction n as [| n IH]; intros i q out Hlen.
  - simpl in *. subst i. rewrite drop_all, take_ge by lia. simpl.
    rewrite !app_nil_r. reflexivity.
  - simpl. destruct (q !! i) as [e |] eqn:He.
    2: { apply lookup_ge_None in He. lia. }
    rewrite (drop_S q e i He). simpl.
    assert (Hi : i < length q) by (apply lookup_lt_is_Some; eauto).
    destruct (pending now e) eqn:Hp; simpl.
    + assert (Hs : stamp now e = e) by (unfold stamp; rewrite Hp; reflexivity).
      rewrite IH, Hs by lia.
      rewrite (take_S_r q i e He), <- app_assoc. reflexivity.
    + assert (Hs : stamp now e = mkTimer (tid e) now (delay e) (fn e))
        by (unfold stamp; rewrite Hp; reflexivity).
      rewrite IH, Hs by (rewrite length_insert; lia).
      rewrite drop_insert_lt by lia.
      rewrite take_S_r with (x := mkTimer (tid e) now (delay e) (fn e))
        by (apply list_lookup_insert_eq; exact Hi).
      rewrite take_insert_ge by lia.
      rewrite <- !app_assoc. reflexivity.
Qed.

Lemma timeoutFilter_spec (now : value) (q : list timer) :
  timeoutFilter now q =
  (List.filter (pending now) q,
   List.map (fun e => RealSetTimeout (fn e) now)
     (List.filter (fun e => negb (pending now e)) q)).
Proof.
  induction q as [| e q IH]; simpl; [reflexivity |].
  rewrite IH. destruct (pending now e); reflexivity.
Qed.

Lemma tid_stamp now e : tid (stamp now e) = tid e.
Proof. unfold stamp. destruct (pending now e); reflexivity. Qed.

Lemma map_tid_stamp now q : List.map tid (List.map (stamp now) q) = List.map tid q.
Proof.
  rewrite List.map_map. apply List.map_ext. intros e. apply tid_stamp.
Qed.

Lemma ordered_filter (f : timer -> bool) (q : list timer) :
  insertion_ordered q -> insertion_ordered (List.filter f q).
Proof.
  unfold insertion_ordered. induction q as [| e q IH]; simpl; intros H; [constructor |].
  apply StronglySorted_inv in H as [Hq He].
  destruct (f e); simpl; [| auto].
  constructor; [auto |].
  rewrite List.Forall_forall in *. intros z Hz. apply He.
  apply List.in_map_iff in Hz as (x & <- & Hx).
  apply List.filter_In in Hx as [Hx _]. apply List.in_map. exact Hx.
Qed.

Lemma bounded_filter (f : timer -> bool) (n : Z) (q : list timer) :
  ids_bounded n q -> ids_bounded n (List.filter f q).
Proof.
  unfold ids_bounded. rewrite !List.Forall_forall. intros H z Hz. apply H.
  apply List.in_map_iff in Hz as (x & <- & Hx).
  apply List.filter_In in Hx as [Hx _]. apply List.in_map. exact Hx.
Qed.

Lemma bounded_weaken (n m : Z) (q : list timer) :
  (m <= n)%Z -> ids_bounded n q -> ids_bounded m q.
Proof.
  unfold ids_bounded. intros Hm H. eapply List.Forall_impl; [| exact H].
  simpl. intros z Hz. lia.
Qed.

Lemma ordered_push (n : Z) (q : list timer) (e : timer) :
  (tid e < n)%Z -> ids_bounded n q -> insertion_ordered q ->
  insertion_ordered (q ++ [e]).
Proof.
  unfold insertion_ordered, ids_bounded. intros He.
  induction q as [| x q IH]; simpl; intros Hb Ho.
  - repeat constructor.
  - apply List.Forall_cons_iff in Hb as [Hx Hb].
    apply StronglySorted_inv in Ho as [Ho Hlt].
    constructor; [auto |].
    rewrite List.map_app. apply List.Forall_app. split; [exact Hlt |].
    repeat constructor. lia.
Qed.

Lemma bounded_push (n : Z) (q : list timer) (e : timer) :
  (n <= 0)%Z -> tid e = (n - 1)%Z -> ids_bounded n q -> ids_bounded (n - 1) (q ++ [e]).
Proof.
  unfold ids_bounded. intros Hn He Hb. rewrite List.map_app.
  apply List.Forall_app. split.
  - eapply List.Forall_impl; [| exact Hb]. simpl. intros z Hz. lia.
  - repeat constructor; lia.
Qed.

Lemma posted_app (a b : list effect) : posted (a ++ b) = posted a ++ posted b.
Proof. apply omap_app. Qed.

Lemma posted_dispatchAll now ms : forall i, posted (snd (dispatchAll now i ms)) = [].
Proof.
  induction ms as [| m ms IH]; intros i; simpl; [reflexivity |].
  assert (Hm : posted (snd (dispatchMedia now i m)) = []).
  { unfold dispatchMedia.
    destruct (VideoCanvas.canDestory m now); [reflexivity |].
    destruct (VideoCanvas.canPlay m now) as [[|]|]; try reflexivity.
    destruct (if VideoCanvas.isReady m then (m, true) else VideoCanvas.load m)
      as [m' [|]]; reflexivity. }
  destruct (dispatchMedia now i m) as [m' e].
  specialize (IH (S i)). destruct (dispatchAll now (S i) ms) as [rest e'].
  simpl in *. rewrite posted_app, Hm, IH. reflexivity.
Qed.

Lemma posted_due now (q : list timer) :
  posted (List.map (fun e => RealSetTimeout (fn e) now)
            (List.filter (fun e => negb (pending now e)) q)) = due now q.
Proof.
  unfold due. induction (List.filter _ q) as [| e l IH]; simpl; [reflexivity |].
  unfold posted in *. simpl. rewrite IH. reflexivity.
Qed.

Lemma callIntervalCallbacks_spec (c : t) (now : value) :
  _callIntervalCallbacks c now =
  (with_intervalCallbacks (List.map (stamp now) (intervalCallbacks c)) c,
   List.map (fun e => RealSetTimeout (fn e) now)
     (List.filter (fun e => negb (pending now e)) (intervalCallbacks c))).
Proof.
  unfold _callIntervalCallbacks.
  rewrite intervalLoop_spec by lia. reflexivity.
Qed.

Lemma callTimeoutCallbacks_spec (c : t) (now : value) :
  _callTimeoutCallbacks c now =
  (with_timeoutCallbacks (List.filter (pending now) (timeoutCallbacks c)) c,
   List.map (fun e => RealSetTimeout (fn e) now)
     (List.filter (fun e => negb (pending now e)) (timeoutCallbacks c))).
Proof.
  unfold _callTimeoutCallbacks. rewrite timeoutFilter_spec. reflexivity.
Qed.

(** What one pass of the loop does to the timers and posts. *)
Lemma nextFrame_timers (captured : bool) (c : t) :
  stopFlag c = false ->
  let now := Num (add (currentTime c) (frameInterval c)) in
  let c' := fst (fst (nextFrame captured c)) in
  timerId c' = timerId c /\
  intervalCallbacks c' = List.map (stamp now) (intervalCallbacks c) /\
  timeoutCallbacks c' = List.filter (pending now) (timeoutCallbacks c) /\
  posted (snd (fst (nextFrame captured c))) =
    due now (intervalCallbacks c) ++ due now (timeoutCallbacks c).
Proof.
  intros Hs now. unfold nextFrame.
  set (c0 := if startFlag c then c else with_startFlag true c).
  assert (E : stopFlag c0 = false /\ currentTime c0 = currentTime c
              /\ frameInterval c0 = frameInterval c /\ timerId c0 = timerId c
              /\ intervalCallbacks c0 = intervalCallbacks c
              /\ timeoutCallbacks c0 = timeoutCallbacks c).
  { subst c0. destruct (startFlag c); simpl; auto 10. }
  clearbody c0. destruct E as (Hs0 & Hct & Hfi & Hid & Hic & Htc).
  rewrite Hs0.
  pose proof (posted_dispatchAll (currentTime c0) (dispatchMedias c0) 0) as P0.
  destruct (dispatchAll (currentTime c0) 0 (dispatchMedias c0)) as [medias e0].
  rewrite callIntervalCallbacks_spec. simpl.
  rewrite callTimeoutCallbacks_spec. simpl.
  rewrite Hct, Hfi, Hic, Htc. fold now.
  set (e2 := List.map _ (List.filter _ (intervalCallbacks c))).
  set (e3 := List.map _ (List.filter _ (timeoutCallbacks c))).
  simpl in P0.
  assert (Hpost : posted (e0 ++ SeekCSSAnimations (currentTime c) ::
                          SeekTimeActions (currentTime c) :: e2 ++ e3)
                  = due now (intervalCallbacks c) ++ due now (timeoutCallbacks c)).
  { rewrite posted_app, P0. simpl.
    change (posted (e2 ++ e3) =
            due now (intervalCallbacks c) ++ due now (timeoutCallbacks c)).
    rewrite posted_app. unfold e2, e3. rewrite !posted_due. reflexivity. }
  destruct (isCapturing _).
  - destruct (negb captured); simpl.
    { rewrite posted_app, Hpost, app_nil_r. auto. }
    destruct (pauseFlag c0); simpl.
    { rewrite posted_app, Hpost, app_nil_r. auto. }
    unfold afterCapture. simpl.
    destruct (geb _ _); simpl.
    { rewrite posted_app, Hpost. simpl. rewrite app_nil_r. auto. }
    destruct (stopFlag c0); simpl;
      rewrite posted_app, Hpost; simpl; rewrite app_nil_r; auto.
  - simpl. rewrite posted_app, Hpost, app_nil_r. auto.
Qed.

Lemma nextFrame_stopped (captured : bool) (c : t) :
  stopFlag c = true ->
  let c' := fst (fst (nextFrame captured c)) in
  timerId c' = timerId c /\ intervalCallbacks c' = intervalCallbacks c /\
  timeoutCallbacks c' = timeoutCallbacks c.
Proof.
  intros Hs. unfold nextFrame.
  destruct (startFlag c); simpl; rewrite Hs; simpl; auto.
Qed.

Lemma timers_ok_same (c c' : t) :
  timerId c' = timerId c -> intervalCallbacks c' = intervalCallbacks c ->
  timeoutCallbacks c' = timeoutCallbacks c -> timers_ok c -> timers_ok c'.
Proof. unfold timers_ok. intros -> -> ->. auto. Qed.

Lemma timers_ok_intervals (c : t) (now : value) :
  timers_ok c -> timers_ok (fst (_callIntervalCallbacks c now)).
Proof.
  rewrite callIntervalCallbacks_spec. unfold timers_ok, ids_bounded, insertion_ordered.
  simpl. rewrite !map_tid_stamp. auto.
Qed.

Lemma timers_ok_timeouts (c : t) (now : value) :
  timers_ok c -> timers_ok (fst (_callTimeoutCallbacks c now)).
Proof.
  rewrite callTimeoutCallbacks_spec. unfold timers_ok. simpl.
  intros (H0 & H1 & H2 & H3 & H4).
  repeat split; auto using bounded_filter, ordered_filter.
Qed.

Lemma timers_ok_push_interval (c : t) (e : timer) :
  tid e = (timerId c - 1)%Z -> timers_ok c ->
  timers_ok (with_intervalCallbacks (intervalCallbacks c ++ [e])
               (with_timerId (timerId c - 1) c)).
Proof.
  unfold timers_ok. simpl. intros He (H0 & H1 & H2 & H3 & H4).
  split; [lia |]. split; [apply bounded_push; assumption |].
  split; [apply (bounded_weaken (timerId c)); [lia | assumption] |].
  split; [| assumption].
  apply (ordered_push (timerId c)); [lia | assumption | assumption].
Qed.

Lemma timers_ok_push_timeout (c : t) (e : timer) :
  tid e = (timerId c - 1)%Z -> timers_ok c ->
  timers_ok (with_timeoutCallbacks (timeoutCallbacks c ++ [e])
               (with_timerId (timerId c - 1) c)).
Proof.
  unfold timers_ok. simpl. intros He (H0 & H1 & H2 & H3 & H4).
  split; [lia |].
  split; [apply (bounded_weaken (timerId c)); [lia | assumption] |].
  split; [apply bounded_push; assumption |].
  split; [assumption |].
  apply (ordered_push (timerId c)); [lia | assumption | assumption].
Qed.

Lemma start_timers (c : t) (r : t * bool) :
  start c = Ok r -> timers_ok c -> timers_ok (fst r).
Proof.
  unfold start. destruct (negb (readyFlag c)).
  - intros [= <-]. apply timers_ok_same; reflexivity.
  - destruct (_checkConfig c); simpl; [| discriminate].
    intros [= <-]. apply timers_ok_same; reflexivity.
Qed.

(** The invariant of the timer queues. *)
Lemma reachable_timers_ok (c : t) : reachable c -> timers_ok c.
Proof.
  induction 1 as [| c f d _ IH | c f d _ IH | c id _ IH | c id _ IH | c _ IH
                  | c now _ IH | c cfg _ IH | c ms _ IH | c r _ IH Hr | c r _ IH Hr
                  | c captured _ IH | c b _ IH | c _ IH | c _ IH].
  - unfold timers_ok, ids_bounded, insertion_ordered. simpl.
    repeat split; try lia; constructor.
  - unfold setInterval. destruct f as [g | v]; [| exact IH].
    destruct (isNaN d); [exact IH |]. simpl.
    apply timers_ok_push_interval; [reflexivity | exact IH].
  - unfold setTimeout. destruct f as [g | v]; [| exact IH].
    destruct (isNaN _); [exact IH |]. simpl.
    apply timers_ok_push_timeout; [reflexivity | exact IH].
  - unfold clearInterval. destruct (negb (truthy id)); [exact IH |].
    destruct (geb _ _); [exact IH |]. simpl.
    destruct IH as (H0 & H1 & H2 & H3 & H4). unfold timers_ok. simpl.
    unfold drop_timer. repeat split; auto using bounded_filter, ordered_filter.
  - unfold clearTimeout. destruct (negb (truthy id)); [exact IH |].
    destruct (geb _ _); [exact IH |]. simpl.
    destruct IH as (H0 & H1 & H2 & H3 & H4). unfold timers_ok. simpl.
    unfold drop_timer. repeat split; auto using bounded_filter, ordered_filter.
  - unfold init.
    pose proof (timers_ok_timeouts c Undefined IH) as H1.
    destruct (_callTimeoutCallbacks c Undefined) as [c1 e1].
    pose proof (timers_ok_intervals c1 Undefined H1) as H2.
    destruct (_callIntervalCallbacks c1 Undefined) as [c2 e2]. exact H2.
  - unfold dispatchBeforeStart. destruct (startFlag c); [exact IH |].
    destruct (readyFlag c); [| exact IH].
    pose proof (timers_ok_timeouts c (Num now) IH) as H1.
    destruct (_callTimeoutCallbacks c (Num now)) as [c1 e1].
    pose proof (timers_ok_intervals c1 (Num now) H1) as H2.
    destruct (_callIntervalCallbacks c1 (Num now)) as [c2 e2]. exact H2.
  - revert IH. apply timers_ok_same; reflexivity.
  - revert IH. apply timers_ok_same; reflexivity.
  - unfold ready in Hr. simpl in Hr.
    destruct (readyCallback c).
    + destruct (start (with_readyFlag true c)) as [r' |] eqn:E; [| discriminate].
      simpl in Hr. injection Hr as <-. simpl.
      apply (start_timers _ _ E). revert IH. apply timers_ok_same; reflexivity.
    + injection Hr as <-. simpl. revert IH. apply timers_ok_same; reflexivity.
  - exact (start_timers c r Hr IH).
  - destruct (stopFlag c) eqn:Hs.
    + destruct (nextFrame_stopped captured c Hs) as (E1 & E2 & E3).
      exact (timers_ok_same _ _ E1 E2 E3 IH).
    + destruct (nextFrame_timers captured c Hs) as (E1 & E2 & E3 & _).
      destruct IH as (H0 & H1 & H2 & H3 & H4).
      unfold timers_ok, ids_bounded, insertion_ordered in *.
      rewrite E1, E2, E3, map_tid_stamp.
      repeat split; auto; try lia.
      * apply (bounded_filter _ _ _ H2).
      * apply (ordered_filter _ _ H4).
  - revert IH. apply timers_ok_same; reflexivity.
  - revert IH. apply timers_ok_same; reflexivity.
  - unfold abort. destruct (negb (isCapturing c)); [exact IH |].
    revert IH. apply timers_ok_same; reflexivity.
Qed.

End TimerShim.

Section TimerShimClear.
Import JS CaptureContext.

Lemma filter_removes (z : Z) (q : list timer) :
  insertion_ordered q ->
  removes z q (List.filter (fun e => negb (tid e =? z)%Z) q).
Proof.
  unfold insertion_ordered, removes.
  induction q as [| x q IH]; simpl; intros Ho; [right; split; [reflexivity | constructor] |].
  apply StronglySorted_inv in Ho as [Ho Hlt].
  destruct (tid x =? z)%Z eqn:E; simpl.
  - apply Z.eqb_eq in E. left. exists [], x, q. simpl.
    assert (Hne : Forall (fun e => tid e <> z) q).
    { rewrite List.Forall_forall in *. intros e He.
      specialize (Hlt (tid e) (List.in_map tid _ _ He)). lia. }
    repeat split; try assumption.
    apply List.forallb_filter_id. apply List.forallb_forall.
    rewrite List.Forall_forall in Hne. intros e He.
    apply negb_true_iff, Z.eqb_neq, Hne, He.
  - apply Z.eqb_neq in E.
    destruct (IH Ho) as [(l1 & e & l2 & -> & He & -> & Hne) | [-> Hne]].
    + left. exists (x :: l1), e, l2. simpl. repeat split; try assumption.
      constructor; assumption.
    + right. split; [reflexivity |]. constructor; assumption.
Qed.

Lemma truthy_negative (z : Z) : (z < 0)%Z -> truthy (Num (of_Z z)) = true.
Proof.
  intros Hz. unfold truthy, truthy_num, of_Z. apply negb_true_iff.
  change (Qc_eq_bool (Q2Qc (inject_Z z)) 0) with (eqb (of_Z z) (of_Z 0)).
  rewrite eqb_of_Z. apply Z.eqb_neq. lia.
Qed.

Lemma geb_negative (z : Z) : (z < 0)%Z -> geb (of_Z z) zero = false.
Proof.
  intros Hz. unfold geb. change zero with (of_Z 0). rewrite leb_of_Z.
  apply Z.leb_gt. exact Hz.
Qed.

Lemma positive_id (id : num) :
  gtb id zero = true -> truthy (Num id) = true /\ geb id zero = true.
Proof.
  unfold gtb, geb, ltb, leb, zero, truthy, truthy_num.
  destruct id as [q | | |]; try discriminate; [| auto].
  intros H. apply Qc_ltb_lt in H. split.
  - apply negb_true_iff, Qc_eq_bool_false. intros ->.
    exact (Qclt_not_le _ _ H (Qcle_refl _)).
  - apply Qc_leb_le, Qclt_le_weak, H.
Qed.

End TimerShimClear.

(** C3 (amended). On every context that the page can reach, a call of the
    shimmed [setTimeout(fn, d)] or [setInterval(fn, p)] with a function and
    a delay that is a number returns a strictly negative id and appends
    [(id, currentTime, delay, fn)] to the queue of its kind;
    [clearTimeout]/[clearInterval] with an id above zero delegate to the
    preserved real function, and with a negative id remove from the queue
    the entry of that id, no other, and delegate nothing. *)
Theorem timer_shim (c : CaptureContext.t) (g : CaptureContext.fnref) (delay : JS.num) :
  reachable c ->
  JS.isNaN_num delay = false ->
  (exists id : Z,
     (id < 0)%Z /\
     CaptureContext.setTimeout c (CaptureContext.Fun g) (JS.Num delay) =
       (CaptureContext.with_timeoutCallbacks
          (CaptureContext.timeoutCallbacks c ++
           [CaptureContext.mkTimer id (JS.Num (CaptureContext.currentTime c))
                                   (JS.Num delay) g])
          (CaptureContext.with_timerId id c),
        Some id)) /\
  (exists id : Z,
     (id < 0)%Z /\
     CaptureContext.setInterval c (CaptureContext.Fun g) (JS.Num delay) =
       (CaptureContext.with_intervalCallbacks
          (CaptureContext.intervalCallbacks c ++
           [CaptureContext.mkTimer id (JS.Num (CaptureContext.currentTime c))
                                   (JS.Num delay) g])
          (CaptureContext.with_timerId id c),
        Some id)) /\
  (forall id : JS.num,
     JS.gtb id JS.zero = true ->
     CaptureContext.clearTimeout c (JS.Num id) =
       (c, [CaptureContext.RealClearTimeout id]) /\
     CaptureContext.clearInterval c (JS.Num id) =
       (c, [CaptureContext.RealClearInterval id])) /\
  (forall z : Z,
     (z < 0)%Z ->
     (exists q',
        CaptureContext.clearTimeout c (JS.Num (JS.of_Z z)) =
          (CaptureContext.with_timeoutCallbacks q' c, []) /\
        removes z (CaptureContext.timeoutCallbacks c) q') /\
     (exists q',
        CaptureContext.clearInterval c (JS.Num (JS.of_Z z)) =
          (CaptureContext.with_intervalCallbacks q' c, []) /\
        removes z (CaptureContext.intervalCallbacks c) q')).
Proof.
  intros Hreach Hdelay.
  destruct (reachable_timers_ok c Hreach) as (H0 & H1 & H2 & H3 & H4).
  assert (Hnan : JS.isNaN (JS.Num delay) = false) by exact Hdelay.
  split; [| split; [| split]].
  - exists (CaptureContext.timerId c - 1)%Z. split; [lia |].
    unfold CaptureContext.setTimeout. rewrite Hnan. reflexivity.
  - exists (CaptureContext.timerId c - 1)%Z. split; [lia |].
    unfold CaptureContext.setInterval. rewrite Hnan. reflexivity.
  - intros id Hid. destruct (positive_id id Hid) as [Ht Hg].
    unfold CaptureContext.clearTimeout, CaptureContext.clearInterval.
    rewrite Ht. simpl. rewrite Hg. split; reflexivity.
  - intros z Hz.
    unfold CaptureContext.clearTimeout, CaptureContext.clearInterval.
    rewrite (truthy_negative z Hz). simpl. rewrite (geb_negative z Hz).
    rewrite !drop_timer_filter. split; eexists; (split; [reflexivity |]).
    + apply filter_removes, H4.
    + apply filter_removes, H3.
Qed.

Lemma timer_shim_witness :
  let c := fst (CaptureContext.setTimeout CaptureContext.initial
                  (CaptureContext.Fun "first"%string) (JS.Num (JS.of_Z 100))) in
  reachable c /\
  JS.isNaN_num (JS.of_Z 40) = false /\
  exists id : Z,
    (id < 0)%Z /\
    CaptureContext.setTimeout c (CaptureContext.Fun "second"%string)
                              (JS.Num (JS.of_Z 40)) =
      (CaptureContext.with_timeoutCallbacks
         (CaptureContext.timeoutCallbacks c ++
          [CaptureContext.mkTimer id (JS.Num (CaptureContext.currentTime c))
                                  (JS.Num (JS.of_Z 40)) "second"%string])
         (CaptureContext.with_timerId id c),
       Some id).
Proof.
  intros c.
  assert (Hc : reachable c) by (apply reach_setTimeout, reach_initial).
  assert (Hd : JS.isNaN_num (JS.of_Z 40) = false) by reflexivity.
  split; [exact Hc |]. split; [exact Hd |].
  exact (proj1 (timer_shim c "second"%string (JS.of_Z 40) Hc Hd)).
Defined.

(** C3, as stated, fails at the id 0: it is not negative, and
    [clearTimeout(0)] and [clearInterval(0)] return at [if (!timerId)]
    without calling the preserved functions. *)
Lemma clear_zero_is_ignored :
  JS.geb JS.zero JS.zero = true /\
  CaptureContext.clearTimeout CaptureContext.initial (JS.Num JS.zero) =
    (CaptureContext.initial, []) /\
  CaptureContext.clearInterval CaptureContext.initial (JS.Num JS.zero) =
    (CaptureContext.initial, []).
Proof. repeat split. Qed.

(** ** The order of dispatch inside a pass *)

(** C8. In a pass of the capture loop that is not stopped, the callbacks
    posted on the real event loop are those of the interval entries that
    are due at the new [currentTime], in queue order, followed by those of
    the timeout entries that are due, in queue order; and on a context that
    the page can reach the order of each queue is the order of insertion
    (the ids, handed out in decreasing order, decrease along the queue). *)
Theorem tick_dispatch_order (c : CaptureContext.t) (captured : bool) :
  reachable c ->
  CaptureContext.stopFlag c = false ->
  let now := JS.Num (JS.add (CaptureContext.currentTime c)
                            (CaptureContext.frameInterval c)) in
  posted (snd (fst (CaptureContext.nextFrame captured c))) =
    due now (CaptureContext.intervalCallbacks c) ++
    due now (CaptureContext.timeoutCallbacks c) /\
  insertion_ordered (CaptureContext.intervalCallbacks c) /\
  insertion_ordered (CaptureContext.timeoutCallbacks c).
Proof.
  intros Hreach Hs now.
  destruct (reachable_timers_ok c Hreach) as (_ & _ & _ & H3 & H4).
  destruct (nextFrame_timers captured c Hs) as (_ & _ & _ & H).
  auto.
Qed.

Lemma tick_dispatch_order_witness :
  let c1 := fst (CaptureContext.setTimeout CaptureContext.initial
                   (CaptureContext.Fun "timeout"%string) (JS.Num (JS.of_Z 0))) in
  let c := fst (CaptureContext.setInterval c1
                  (CaptureContext.Fun "interval"%string) (JS.Num (JS.of_Z 0))) in
  reachable c /\
  CaptureContext.stopFlag c = false /\
  posted (snd (fst (CaptureContext.nextFrame true c))) =
    [("interval"%string, JS.Num (JS.add JS.zero JS.zero));
     ("timeout"%string, JS.Num (JS.add JS.zero JS.zero))].
Proof.
  intros c1 c.
  assert (Hc : reachable c) by (apply reach_setInterval, reach_setTimeout, reach_initial).
  assert (Hs : CaptureContext.stopFlag c = false) by reflexivity.
  split; [exact Hc |]. split; [exact Hs |].
  rewrite (proj1 (tick_dispatch_order c true Hc Hs)). reflexivity.
Defined.

(** ** The timeline of a chunked video *)

Section Timeline.
Import JS.

Lemma getOutputDuration_unrendered (c : VideoChunk.t) :
  unrendered c -> VideoChunk.getOutputDuration c = effective c.
Proof.
  intros [Hf Hd]. unfold VideoChunk.getOutputDuration, effective.
  f_equal. unfold Synthesizer.getOutputDuration. rewrite Hf. simpl.
  rewrite orb_true_r. unfold VideoChunk.duration in *.
  destruct (Synthesizer.duration (VideoChunk.base c)) as [q | | |];
    try discriminate.
  unfold truthy_num. destruct (Qc_eq_bool q 0) eqn:E; [| reflexivity].
  apply Qc_eq_bool_true in E. subst q. reflexivity.
Qed.

Lemma eqb_eq (x y : num) : eqb x y = true -> x = y.
Proof.
  destruct x, y; simpl; try discriminate; try reflexivity.
  intros H. apply Qc_eq_bool_correct in H. subst. reflexivity.
Qed.

(** The chunk that [input] goes on with is in the store, under the
    reference that is answered, and no other reference is touched. *)
Lemma receive_spec (h h1 : VideoChunk.store) (s : ChunkSynthesizer.t)
    (a : VideoChunk.arg) (r : VideoChunk.ref) (chunk : VideoChunk.t) :
  ChunkSynthesizer.receive h s a = Ok (h1, r, chunk) ->
  r < length h1 /\ (forall r', r' <> r -> h1 !! r' = h !! r').
Proof.
  unfold ChunkSynthesizer.receive. destruct a as [r0 | o].
  - destruct (h !! r0) as [c |] eqn:E; [| discriminate].
    intros [= <- <- <-]. split.
    + rewrite length_insert. apply lookup_lt_Some in E. exact E.
    + intros r' Hr'. apply list_lookup_insert_ne. congruence.
  - destruct (VideoChunk.constructor _) as [c |]; cbn [bind]; [| discriminate].
    intros [= <- <- <-]. split.
    + rewrite length_app. simpl. lia.
    + intros r' Hr'. destruct (Nat.lt_ge_cases r' (length h)) as [Hlt | Hge].
      * apply lookup_app_l. exact Hlt.
      * rewrite !lookup_ge_None_2; [reflexivity | lia |].
        rewrite length_app. simpl. lia.
Qed.

(** One input: the reference that is pushed names the chunk as [input]
    leaves it, the other references name what they named, and the
    duration and the geometry of the synthesizer follow the chunk. *)
Lemma input_spec (h h1 : VideoChunk.store) (s s1 : ChunkSynthesizer.t)
    (a : VideoChunk.arg) (tr : option Transition.arg) :
  ChunkSynthesizer.input h s a tr = Ok (h1, s1) ->
  exists r chunk,
    ChunkSynthesizer.chunks s1 = ChunkSynthesizer.chunks s ++ [r] /\
    h1 !! r = Some chunk /\
    (forall r', r' <> r -> h1 !! r' = h !! r') /\
    ChunkSynthesizer.duration s1 =
      add (ChunkSynthesizer.duration s) (VideoChunk.getOutputDuration chunk) /\
    geometry (ChunkSynthesizer.base s1) = geometry (ChunkSynthesizer.base s) /\
    geometry (VideoChunk.base chunk) = geometry (ChunkSynthesizer.base s).
Proof.
  unfold ChunkSynthesizer.input.
  destruct (ChunkSynthesizer.receive h s a) as [[[h0 r] chunk0] |] eqn:Hrec;
    cbn [bind fst snd]; [| discriminate].
  destruct (receive_spec _ _ _ _ _ _ Hrec) as [Hlen Hframe].
  destruct (eqb (Synthesizer.width (VideoChunk.base chunk0)) _) eqn:Hw;
    cbn [assert bind]; [| discriminate].
  destruct (eqb (Synthesizer.height (VideoChunk.base chunk0)) _) eqn:Hh;
    cbn [assert bind]; [| discriminate].
  destruct (eqb (Synthesizer.fps (VideoChunk.base chunk0)) _) eqn:Hf;
    cbn [assert bind]; [| discriminate].
  apply eqb_eq in Hw, Hh, Hf.
  set (set := match tr with
              | Some a0 =>
                  if Transition.truthy a0
                  then VideoChunk.setTransition chunk0 (ChunkSynthesizer.asOptions a0)
                  else Ok chunk0
              | None => Ok chunk0
              end).
  assert (Hbase : forall c', set = Ok c' -> VideoChunk.base c' = VideoChunk.base chunk0).
  { intros c'. unfold set. destruct tr as [a0 |]; [| intros [= <-]; reflexivity].
    destruct (Transition.truthy a0); [| intros [= <-]; reflexivity].
    unfold VideoChunk.setTransition.
    destruct (Transition.instantiate _); cbn [bind]; [| discriminate].
    intros [= <-]. reflexivity. }
  destruct set as [chunk |]; cbn [bind]; [| discriminate].
  specialize (Hbase chunk eq_refl).
  intros [= <- <-]. exists r, chunk. cbn [ChunkSynthesizer.chunks].
  split; [reflexivity |].
  split; [apply list_lookup_insert_eq; exact Hlen |].
  split.
  { intros r' Hr'. rewrite list_lookup_insert_ne by congruence. apply Hframe, Hr'. }
  split; [reflexivity |].
  unfold geometry. cbn. rewrite Hbase, Hw, Hh, Hf. split; reflexivity.
Qed.

Lemma inputs_spec (l : list (VideoChunk.arg * option Transition.arg)) :
  forall (h h' : VideoChunk.store) (s s' : ChunkSynthesizer.t),
  ChunkSynthesizer.inputs h s l = Ok (h', s') ->
  exists rs,
    ChunkSynthesizer.chunks s' = ChunkSynthesizer.chunks s ++ rs /\
    length rs = length l /\
    (forall r', r' ∉ rs -> h' !! r' = h !! r') /\
    (NoDup rs ->
     exists cs,
       Forall2 (fun r c => h' !! r = Some c) rs cs /\
       ChunkSynthesizer.duration s' =
         add (ChunkSynthesizer.duration s)
             (total_ms (List.map VideoChunk.getOutputDuration cs))).
Proof.
  induction l as [| [a tr] l IH]; cbn [ChunkSynthesizer.inputs]; intros h h' s s' H.
  - injection H as <- <-. exists []. rewrite app_nil_r.
    split; [reflexivity |]. split; [reflexivity |]. split; [reflexivity |].
    intros _. exists []. split; [constructor |].
    simpl. rewrite add_zero_r. reflexivity.
  - destruct (ChunkSynthesizer.input h s a tr) as [[h1 s1] |] eqn:E;
      cbn [bind fst snd] in H; [| discriminate].
    destruct (input_spec _ _ _ _ _ _ E) as (r & chunk & Hc & Hr & Hframe & Hd & _).
    destruct (IH h1 h' s1 s' H) as (rs & Hcs & Hlen & Hframe' & Hsum).
    exists (r :: rs). rewrite Hcs, Hc, <- app_assoc.
    split; [reflexivity |]. split; [simpl; congruence |].
    split.
    { intros r' Hr'. apply not_elem_of_cons in Hr' as [Hne Hnot].
      rewrite (Hframe' r' Hnot). apply Hframe, Hne. }
    intros Hnd. apply NoDup_cons in Hnd as [Hnot Hnd].
    destruct (Hsum Hnd) as (cs & Hall & Hdur).
    exists (chunk :: cs). split.
    + constructor; [| exact Hall]. rewrite (Hframe' r Hnot). exact Hr.
    + rewrite Hdur, Hd. simpl. rewrite add_assoc. reflexivity.
Qed.

Lemma held_Forall2 (h : VideoChunk.store) (rs : list VideoChunk.ref)
    (cs : list VideoChunk.t) :
  Forall2 (fun r c => h !! r = Some c) rs cs -> omap (fun r => h !! r) rs = cs.
Proof.
  induction 1 as [| r c rs cs Hr _ IH]; [reflexivity |].
  cbn. rewrite Hr. cbn. rewrite IH. reflexivity.
Qed.

Lemma map_unrendered (cs : list VideoChunk.t) :
  Forall unrendered cs ->
  List.map VideoChunk.getOutputDuration cs = List.map effective cs.
Proof.
  induction 1 as [| c cs Hc _ IH]; simpl; [reflexivity |].
  rewrite IH, (getOutputDuration_unrendered c Hc). reflexivity.
Qed.

Lemma constructor_empty (h h0 : VideoChunk.store) (o : Synthesizer.Options)
    (s0 : ChunkSynthesizer.t) :
  ChunkSynthesizer.constructor h o [] = Ok (h0, s0) ->
  h0 = h /\ ChunkSynthesizer.chunks s0 = [] /\ ChunkSynthesizer.duration s0 = zero.
Proof.
  unfold ChunkSynthesizer.constructor. simpl.
  destruct (Synthesizer.constructor false _) as [b |] eqn:E; simpl; [| discriminate].
  intros [= <- <-]. split; [reflexivity |]. split; [reflexivity |].
  unfold ChunkSynthesizer.duration. simpl.
  unfold Synthesizer.constructor in E. simpl in E.
  repeat match type of E with
         | (do _ <- assert ?b ?m; _) = _ => destruct (assert b m); simpl in E;
                                           [| discriminate]
         | (do _ <- ?x; _) = _ => destruct x; simpl in E; [| discriminate]
         end.
  injection E as <-. reflexivity.
Qed.

End Timeline.

(** C4 (amended). For every sequence of chunks input to a ChunkSynthesizer
    (which its constructor starts at a duration of 0) before any of them
    has been rendered, no chunk being input twice, the duration of the
    synthesizer is the sum of [duration - transition.duration] over the
    chunks. *)
Theorem chunk_durations_add_up (o : Synthesizer.Options)
    (l : list (VideoChunk.arg * option Transition.arg))
    (h0 h : VideoChunk.store) (s0 s : ChunkSynthesizer.t) :
  ChunkSynthesizer.constructor h0 o [] = Ok (h0, s0) ->
  ChunkSynthesizer.inputs h0 s0 l = Ok (h, s) ->
  NoDup (ChunkSynthesizer.chunks s) ->
  Forall unrendered (held h s) ->
  length (held h s) = length l /\
  ChunkSynthesizer.duration s = total_ms (List.map effective (held h s)).
Proof.
  intros H0 Hin Hnd Hun.
  destruct (constructor_empty _ _ o s0 H0) as (_ & Hc & Hd).
  destruct (inputs_spec l h0 h s0 s Hin) as (rs & Hcs & Hlen & _ & Hsum).
  rewrite Hc in Hcs. simpl in Hcs. rewrite Hcs in Hnd.
  destruct (Hsum Hnd) as (cs & Hall & Hdur).
  unfold held in *. rewrite Hcs in *. rewrite (held_Forall2 _ _ _ Hall) in *.
  split.
  - apply Forall2_length in Hall. congruence.
  - rewrite Hdur, Hd, add_zero_l. f_equal. apply map_unrendered, Hun.
Qed.

Lemma chunk_durations_add_up_witness :
  let o := Synthesizer.mkOptions (JS.Num (JS.of_Z 1280)) (JS.Num (JS.of_Z 720))
             (JS.Num (JS.of_Z 30)) JS.Undefined None (Some "out.mp4"%string)
             JS.Undefined JS.Undefined JS.Undefined JS.Undefined JS.Undefined None in
  let plain d tr :=
    VideoChunk.Plain
      (VideoChunk.mkOptions
         (Synthesizer.mkOptions JS.Undefined JS.Undefined JS.Undefined (JS.Num (JS.of_Z d))
            None None JS.Undefined JS.Undefined JS.Undefined JS.Undefined JS.Undefined
            None) tr) in
  let l := [(plain 5000%Z (Some (Transition.Plain "fade" (JS.Num (JS.of_Z 1000)))), None);
            (plain 5000%Z None, Some (Transition.Id "zoomin"));
            (plain 2000%Z None, None)] in
  exists s0 h s,
    ChunkSynthesizer.constructor [] o [] = Ok ([], s0) /\
    ChunkSynthesizer.inputs [] s0 l = Ok (h, s) /\
    NoDup (ChunkSynthesizer.chunks s) /\
    Forall unrendered (held h s) /\
    (length (held h s) = length l /\
     ChunkSynthesizer.duration s = total_ms (List.map effective (held h s))) /\
    JS.eqb (ChunkSynthesizer.duration s) (JS.of_Z 10500) = true.
Proof.
  intros o plain l.
  destruct (ChunkSynthesizer.constructor [] o []) as [[h0 s0] |] eqn:E0;
    [| vm_compute in E0; discriminate E0].
  assert (Eh : h0 = []) by (vm_compute in E0; injection E0 as <- _; reflexivity).
  subst h0.
  destruct (ChunkSynthesizer.inputs [] s0 l) as [[h s] |] eqn:E1.
  2: { vm_compute in E0. injection E0 as <-. vm_compute in E1. discriminate E1. }
  assert (Hnd : NoDup (ChunkSynthesizer.chunks s)).
  { vm_compute in E0. injection E0 as <-. vm_compute in E1. injection E1 as <- <-.
    apply NoDup_ListNoDup. repeat constructor; simpl; intuition discriminate. }
  assert (Hun : Forall unrendered (held h s)).
  { vm_compute in E0. injection E0 as <-. vm_compute in E1. injection E1 as <- <-.
    repeat constructor. }
  exists s0, h, s. repeat (split; [first [reflexivity | assumption] |]).
  split; [exact (chunk_durations_add_up o l [] h s0 s E0 E1 Hnd Hun) |].
  vm_compute in E0. injection E0 as <-. vm_compute in E1. injection E1 as <- <-.
  reflexivity.
Defined.

(** C4, as stated, fails when a chunk is input twice.  [input] sets the
    transition in the chunk that it is given and keeps that chunk: after a
    chunk of 5000 ms has been input with a transition of 500 ms and once
    more with one of 1000 ms, the synthesizer has added up
    [4500 + 4000 = 8500], while its two chunks, which are the one object,
    both have the transition of 1000 ms and add up to 8000. *)
Lemma chunk_input_twice :
  let o := Synthesizer.mkOptions (JS.Num (JS.of_Z 1280)) (JS.Num (JS.of_Z 720))
             (JS.Num (JS.of_Z 30)) JS.Undefined None (Some "out.mp4"%string)
             JS.Undefined JS.Undefined JS.Undefined JS.Undefined JS.Undefined None in
  let plain :=
    VideoChunk.mkOptions
      (Synthesizer.mkOptions (JS.Num (JS.of_Z 1280)) (JS.Num (JS.of_Z 720))
         (JS.Num (JS.of_Z 30)) (JS.Num (JS.of_Z 5000)) None None
         JS.Undefined JS.Undefined JS.Undefined JS.Undefined JS.Undefined None)
      None in
  let fade ms := Some (Transition.Plain "fade" (JS.Num (JS.of_Z ms))) in
  (do c <- VideoChunk.constructor plain;
   do s0 <- ChunkSynthesizer.constructor [c] o [];
   do out <- ChunkSynthesizer.inputs (fst s0) (snd s0)
               [(VideoChunk.Instance 0, fade 500%Z);
                (VideoChunk.Instance 0, fade 1000%Z)];
   Ok (ChunkSynthesizer.chunks (snd out),
       List.map (fun c => Synthesizer._frameCount (VideoChunk.base c))
                (held (fst out) (snd out)),
       JS.eqb (ChunkSynthesizer.duration (snd out)) (JS.of_Z 8500),
       JS.eqb (total_ms (List.map effective (held (fst out) (snd out))))
              (JS.of_Z 8000)))
  = Ok ([0; 0], [0%Z; 0%Z], true, true).
Proof. vm_compute. reflexivity. Qed.

(** ** The placement of the audios of a chunk *)

(** C5.  [start()] moves the audios of a chunk by the sum of
    [getOutputDuration()] over the chunks before it, and
    [Synthesizer.getOutputDuration()] answers
    [Math.floor(frameCount / fps) * 1000] once a chunk has frames: whole
    seconds, where its other branch answers the duration in milliseconds.
    A completed chunk of 1500 ms with its 45 frames at 30 frames per second
    has an effective duration of 1500 ms, and the audio of the next chunk,
    whose local start is 0, is placed at 1000 ms: in the synthesizer and in
    the chunk, which hold the one instance. *)
Lemma rendered_chunk_shifts_less :
  let plain d :=
    VideoChunk.mkOptions
      (Synthesizer.mkOptions (JS.Num (JS.of_Z 1280)) (JS.Num (JS.of_Z 720))
         (JS.Num (JS.of_Z 30)) (JS.Num (JS.of_Z d)) None None
         JS.Undefined JS.Undefined JS.Undefined JS.Undefined JS.Undefined None)
      None in
  let music :=
    Audio.mk JS.Undefined (Some "music.mp3"%string) None (JS.Num (JS.of_Z 0))
             JS.Undefined JS.Undefined JS.Undefined JS.Undefined in
  let o := Synthesizer.mkOptions (JS.Num (JS.of_Z 1280)) (JS.Num (JS.of_Z 720))
             (JS.Num (JS.of_Z 30)) JS.Undefined None (Some "out.mp4"%string)
             JS.Undefined JS.Undefined JS.Undefined JS.Undefined JS.Undefined None in
  let startTimes (ha : list Audio.t) (rs : list nat) :=
    List.map (fun r => match ha !! r with
                       | Some a => JS.eqb (JS.ToNumber (Audio.startTime a)) (JS.of_Z 1000)
                       | None => false
                       end) rs in
  (do c <- VideoChunk.constructor (plain 1500%Z);
   let c1 := VideoChunk.mk
               (Synthesizer.with_state Synthesizer.COMPLETED
                  (Nat.iter 45 Synthesizer.input (VideoChunk.base c)))
               (VideoChunk.transition c) in
   do c' <- VideoChunk.constructor (plain 3000%Z);
   do r <- VideoChunk.addAudio [] c' (Audio.Plain music);
   let c2 := snd (fst r) in
   do hs <- ChunkSynthesizer.constructor [c1; c2] o
              [VideoChunk.Instance 0; VideoChunk.Instance 1];
   do out <- ChunkSynthesizer.start (fst hs) (fst (fst r)) (snd hs);
   Ok (JS.eqb (effective c1) (JS.of_Z 1500),
       JS.eqb (VideoChunk.getOutputDuration c1) (JS.of_Z 1000),
       ChunkSynthesizer.audios (snd (fst out)),
       VideoChunk.audios c2,
       startTimes (fst (fst out)) (ChunkSynthesizer.audios (snd (fst out)))))
  = Ok (true, true, [0], [0], [true]).
Proof. vm_compute. reflexivity. Qed.

(** ** Time actions *)

(** C2. What [seekTimeActions] does where the claim fails: with actions
    at 200 ms and 1000 ms and a tick at 1500 ms, [sort()] orders the keys
    as strings, [1000] before [200], so that the action at 1000 ms is the
    one removed and invoked, not the one of the smallest key; and with an
    action at 0 ms the key found is 0, which [if (!matchTimeNodes)] takes
    for no match, so that nothing is removed or invoked. *)
Theorem seekTimeActions_string_order :
  let actions : gmap Z CaptureContext.fnref :=
    <[200%Z := "early"%string]> (<[1000%Z := "late"%string]> ∅) in
  let zero : gmap Z CaptureContext.fnref :=
    <[0%Z := "first"%string]> (<[500%Z := "second"%string]> ∅) in
  Page.sort (elements (dom actions)) = [1000%Z; 200%Z] /\
  Page.seekTimeActions actions (JS.of_Z 1500) =
    (delete 1000%Z actions, ["late"%string]) /\
  Page.seekTimeActions zero (JS.of_Z 600) = (zero, []).
Proof.
  intros actions zero. repeat split; vm_compute; reflexivity.
Qed.

(** ** The packed payload *)

Section PackedPayload.
Import JSON Payload.

Lemma encode_app (a b : string) : encode (a ++ b) = encode a ++ encode b.
Proof.
  unfold encode, list_byte_of_string.
  induction a as [| c a IH]; simpl; [reflexivity |]. rewrite IH. reflexivity.
Qed.


Lemma decimal_byte_facts (b : byte) :
  decimal_byte b ->
  is_space b = false /\ Byte.eqb b "-" = false /\ Byte.eqb b "+" = false /\
  Byte.eqb b "x" = false /\ Byte.eqb b "X" = false /\ Byte.eqb b "!" = false.
Proof.
  intros [k H].
  destruct b; vm_compute in H; try discriminate H; repeat split; reflexivity.
Qed.

Lemma uint_bytes_decimal (d : uint) :
  Forall decimal_byte (encode (NilEmpty.string_of_uint d)).
Proof.
  induction d; simpl; constructor; try assumption; eexists; reflexivity.
Qed.

Lemma digits_uint (d : uint) : forall a : nat,
  digits 10 (Some a) (encode (NilEmpty.string_of_uint d)) = Some (Nat.of_uint_acc d a).
Proof.
  induction d; intros a; simpl; [reflexivity | ..];
    rewrite IHd, Nat.tail_mul_spec; do 2 f_equal; lia.
Qed.

Lemma decimal_bytes (n : nat) :
  encode (decimal n) <> [] /\
  Forall decimal_byte (encode (decimal n)) /\
  digits 10 (Some 0) (encode (decimal n)) = Some n.
Proof.
  unfold decimal.
  assert (Hn : Nat.of_uint (Nat.to_uint n) = n) by apply Unsigned.of_to.
  revert Hn. generalize (Nat.to_uint n) as d. intros d <-.
  destruct d as [| d | d | d | d | d | d | d | d | d | d].
  1: { split; [discriminate |]. split; [| reflexivity].
       repeat constructor. eexists. reflexivity. }
  all: split; [discriminate |]; split; [apply uint_bytes_decimal | apply digits_uint].
Qed.

Lemma parseInt_decimal (l : list byte) (n : nat) :
  l <> [] -> Forall decimal_byte l -> digits 10 (Some 0) l = Some n ->
  parseInt l = Some (Z.of_nat n).
Proof.
  intros Hne Hall Hn. destruct l as [| b0 l]; [congruence |].
  apply Forall_cons in Hall as [H0 Hall].
  destruct (decimal_byte_facts b0 H0) as (Hs & Hm & Hp & _).
  unfold parseInt. simpl. rewrite Hs, Hm, Hp.
  assert (Hradix : (match l with
                    | x :: rest =>
                        if Byte.eqb b0 "0" && (Byte.eqb x "x" || Byte.eqb x "X")
                        then (16, rest) else (10, b0 :: l)
                    | [] => (10, b0 :: l)
                    end) = (10, b0 :: l)).
  { destruct l as [| b1 l]; [reflexivity |].
    apply Forall_cons in Hall as [H1 _].
    destruct (decimal_byte_facts b1 H1) as (_ & _ & _ & Hx & HX & _).
    rewrite Hx, HX, andb_false_r. reflexivity. }
  rewrite Hradix. simpl in *. destruct H0 as [k Hk]. rewrite Hk in *.
  simpl in *. rewrite Hn. reflexivity.
Qed.

Lemma delimiterIndex_decimal (l rest : list byte) : forall i,
  Forall decimal_byte l ->
  delimiterIndex (l ++ "!"%byte :: rest) i = Some (i + length l).
Proof.
  induction l as [| b l IH]; intros i Hall; simpl.
  - f_equal. lia.
  - apply Forall_cons in Hall as [Hb Hall].
    destruct (decimal_byte_facts b Hb) as (_ & _ & _ & _ & _ & Hbang).
    rewrite Hbang, IH by assumption. f_equal. lia.
Qed.


Lemma unpackField_untagged (packed : list byte) (offset : nat) (v : json) :
  untagged v -> unpackField packed offset v = Some (UValue v).
Proof.
  destruct v as [| b | z | str | [| [| b | z | tag | l | l] items] | fields];
    simpl; try reflexivity.
  intros H. apply String.eqb_neq in H. rewrite H. reflexivity.
Qed.


End PackedPayload.




(** ** The capture loop with a start time, a failure or a pause *)

Section CaptureLoopGeneral.
Import JS CaptureContext.

Lemma skips_app (a b : list effect) : skips (a ++ b) = skips a + skips b.
Proof. unfold skips. rewrite List.filter_app, length_app. reflexivity. Qed.

Lemma background_nil : background [].
Proof. repeat split. Qed.

Lemma background_app (a b : list effect) :
  background a -> background b -> background (a ++ b).
Proof.
  intros (Ha & Ha' & Ha'') (Hb & Hb' & Hb''). repeat split.
  - rewrite captures_app, Ha, Hb. reflexivity.
  - rewrite completions_app, Ha', Hb'. reflexivity.
  - rewrite skips_app, Ha'', Hb''. reflexivity.
Qed.

Lemma dispatchMedia_background now i m : background (snd (dispatchMedia now i m)).
Proof.
  unfold dispatchMedia.
  destruct (VideoCanvas.canDestory m now); [repeat split |].
  destruct (VideoCanvas.canPlay m now) as [[|]|]; try apply background_nil.
  destruct (if VideoCanvas.isReady m then (m, true) else VideoCanvas.load m)
    as [m' [|]]; repeat split.
Qed.

Lemma dispatchAll_background now ms :
  forall i, background (snd (dispatchAll now i ms)).
Proof.
  induction ms as [| m ms IH]; intros i; simpl; [apply background_nil |].
  pose proof (dispatchMedia_background now i m) as Hm.
  destruct (dispatchMedia now i m) as [m' e].
  specialize (IH (S i)). destruct (dispatchAll now (S i) ms) as [rest e'].
  simpl in *. apply background_app; assumption.
Qed.

Lemma intervalLoop_background now : forall n i q out,
  background out -> background (snd (intervalLoop n i now q out)).
Proof.
  induction n as [| n IH]; intros i q out Hout; simpl; [exact Hout |].
  destruct (q !! i) as [e |]; [| exact Hout].
  destruct (pending now e); apply IH; [exact Hout |].
  apply background_app; [exact Hout | repeat split].
Qed.

Lemma timeoutFilter_background now q : background (snd (timeoutFilter now q)).
Proof.
  induction q as [| e q IH]; simpl; [apply background_nil |].
  destruct (timeoutFilter now q) as [kept out]. simpl in IH.
  destruct (pending now e); simpl; [exact IH |].
  destruct IH as (H1 & H2 & H3). repeat split; assumption.
Qed.

Lemma start_time_number (s : Qc) :
  ToNumber (or_else (Num (Fin s)) (Num zero)) = Fin s.
Proof.
  unfold or_else, truthy, truthy_num.
  destruct (Qc_eq_bool s 0) eqn:E; simpl; [| reflexivity].
  apply Qc_eq_bool_correct in E. subst s. reflexivity.
Qed.

(** One pass of the loop on a context that is not stopped: the part before
    the capture is background work and advances the clock by one frame
    interval; what follows depends on the start time, on the answer of
    [____captureFrame] and on the pause flag only. *)
Lemma nextFrame_cruising (n : Z) (s q iv : Qc) (b : bool) (c : t) :
  cruising n s c -> currentTime c = Fin q -> frameInterval c = Fin iv ->
  exists c1 before,
    background before /\
    stopFlag c1 = false /\ pauseFlag c1 = pauseFlag c /\
    currentTime c1 = Fin (q + iv)%Qc /\ frameInterval c1 = Fin iv /\
    config c1 = config c /\ frameIndex c1 = frameIndex c /\
    nextFrame b c =
      if Qc_leb s (q + iv)%Qc then
        if negb b then (with_stopFlag true c1, before ++ [CaptureFrame], CaptureFailed)
        else if pauseFlag c then (c1, before ++ [CaptureFrame], AwaitResume)
        else let '(c', e4, st) := afterCapture c1 in
             (c', before ++ [CaptureFrame] ++ e4, st)
      else (c1, before ++ [SkipFrame], Continue).
Proof.
  intros [Hs _ _ Hn Hst] Hq Hiv.
  unfold nextFrame.
  set (c0 := if startFlag c then c else with_startFlag true c).
  assert (E : stopFlag c0 = false /\ pauseFlag c0 = pauseFlag c /\ currentTime c0 = Fin q
              /\ frameInterval c0 = Fin iv /\ config c0 = config c
              /\ frameIndex c0 = frameIndex c).
  { subst c0. destruct (startFlag c); simpl; auto 10. }
  clearbody c0. destruct E as (Hs0 & Hp0 & Hq1 & Hiv1 & Hcfg & Hidx).
  rewrite Hs0.
  pose proof (dispatchAll_background (currentTime c0) (dispatchMedias c0) 0) as Q0.
  destruct (dispatchAll (currentTime c0) 0 (dispatchMedias c0)) as [medias e0].
  unfold _callIntervalCallbacks, _callTimeoutCallbacks. simpl.
  match goal with |- context [intervalLoop ?a ?b ?c ?d ?e] =>
    pose proof (intervalLoop_background c a b d e background_nil) as Q2;
    destruct (intervalLoop a b c d e) as [q2 e2] end.
  simpl.
  pose proof (timeoutFilter_background (Num (add (currentTime c0) (frameInterval c0)))
                (timeoutCallbacks c0)) as Q3.
  destruct (timeoutFilter (Num (add (currentTime c0) (frameInterval c0)))
              (timeoutCallbacks c0)) as [q3 e3].
  simpl in *.
  set (c1 := with_timeoutCallbacks q3 _).
  assert (E : stopFlag c1 = false /\ currentTime c1 = Fin (q + iv)%Qc
              /\ frameInterval c1 = Fin iv /\ config c1 = config c
              /\ frameIndex c1 = frameIndex c /\ pauseFlag c1 = pauseFlag c).
  { subst c1. simpl. rewrite Hq1, Hiv1. auto 10. }
  clearbody c1. destruct E as (Hs1 & Hq2 & Hiv2 & Hcfg1 & Hidx1 & Hp1).
  assert (Hcap : isCapturing c1 = Qc_leb s (q + iv)%Qc).
  { unfold isCapturing, geb. rewrite Hcfg1, Hst, Hq2, start_time_number.
    reflexivity. }
  rewrite Hcap, Hp0.
  set (before := e0 ++ _).
  assert (Qb : background before).
  { subst before. apply background_app; [exact Q0 |].
    apply (background_app [_; _]); [repeat split |].
    apply background_app; assumption. }
  clearbody before.
  exists c1, before. auto 10.
Qed.

(** The end of a pass that captured a frame. *)
Lemma afterCapture_count (n : Z) (c : t) :
  stopFlag c = false -> frameCount (config c) = Num (of_Z n) ->
  afterCapture c =
    if (n <=? frameIndex c + 1)%Z
    then (with_stopFlag true (with_frameIndex (frameIndex c + 1) c),
          [ScreencastCompleted], Completed)
    else (with_frameIndex (frameIndex c + 1) c, [], Continue).
Proof.
  intros Hs Hn. unfold afterCapture. simpl. rewrite Hn. simpl.
  unfold geb. rewrite leb_of_Z, Hs. reflexivity.
Qed.


(** [start()] on a ready context whose configuration passes
    [_checkConfig]. *)
Lemma start_accepted (c : t) (f d : Qc) (n : Z) :
  readyFlag c = true ->
  fps (config c) = Num (Fin f) -> (0 < f)%Qc ->
  duration (config c) = Num (Fin d) -> (0 < d)%Qc ->
  frameCount (config c) = Num (of_Z n) -> (1 <= n)%Z ->
  start c = Ok (with_frameInterval (Fin (Q2Qc (inject_Z 1000) / f)%Qc) c, true) /\
  (0 < Q2Qc (inject_Z 1000) / f)%Qc.
Proof.
  intros Hr Hfps Hf Hdur Hd Hcount Hn.
  assert (Hfne : f <> 0%Qc).
  { intros ->. exact (Qclt_not_le _ _ Hf (Qcle_refl _)). }
  split.
  - unfold start, _checkConfig. rewrite Hr, Hfps, Hdur, Hcount. simpl.
    unfold v_leb. simpl.
    change (leb (Fin f) zero) with (Qc_leb f 0).
    change (leb (Fin d) zero) with (Qc_leb d 0).
    rewrite (Qc_leb_pos f Hf), (Qc_leb_pos d Hd).
    change zero with (of_Z 0). rewrite leb_of_Z.
    destruct (n <=? 0)%Z eqn:E; [apply Z.leb_le in E; lia |].
    simpl. unfold div, of_Z.
    apply Qc_eq_bool_false in Hfne. rewrite Hfne. reflexivity.
  - apply Qcmult_pos_pos; [reflexivity |]. apply Qcinv_pos. exact Hf.
Qed.

(** The capturing phase: once the clock is within one interval of the
    start time, every pass captures a frame until the target is reached. *)
Lemma run_capturing (n : Z) (s : Qc) : forall (m k : nat) (c : t),
  cruising n s c -> pauseFlag c = false ->
  (forall q iv, currentTime c = Fin q -> frameInterval c = Fin iv -> (s <= q + iv)%Qc) ->
  (frameIndex c < n)%Z -> m = Z.to_nat (n - frameIndex c) ->
  exists c' trace,
    (forall extra, run (m + extra) (fun _ => true) k c = (c', trace, Completed)) /\
    captures trace = m /\ skips trace = 0 /\ completions trace = 1 /\
    last trace = Some ScreencastCompleted /\
    frameIndex c' = n /\ stopFlag c' = true.
Proof.
  induction m as [| m IH]; intros k c Hc Hp Hin Hlt Hm; [lia |].
  pose proof Hc as [_ [q Hq] [iv [Hiv Hiv0]] Hn _].
  destruct (nextFrame_cruising n s q iv true c Hc Hq Hiv)
    as (c1 & before & (B1 & B2 & B3) & Hs1 & Hp1 & Hq1 & Hiv1 & Hcfg1 & Hidx1 & Hstep).
  assert (Hle : Qc_leb s (q + iv) = true) by (apply Qc_leb_le, Hin; assumption).
  rewrite Hle, Hp in Hstep. simpl in Hstep.
  rewrite (afterCapture_count n c1 Hs1) in Hstep by (rewrite Hcfg1; exact Hn).
  rewrite Hidx1 in Hstep.
  destruct (n <=? frameIndex c + 1)%Z eqn:Hdone.
  - apply Z.leb_le in Hdone.
    eexists. eexists. split; [intros extra; simpl; rewrite Hstep; reflexivity |].
    rewrite captures_app, skips_app, completions_app, B1, B2, B3, last_app.
    unfold captures, skips, completions. simpl.
    repeat split; try reflexivity; lia.
  - apply Z.leb_gt in Hdone.
    set (c2 := with_frameIndex (frameIndex c + 1) c1) in *.
    assert (Hc2 : cruising n s c2).
    { constructor; simpl; try assumption.
      - exists (q + iv)%Qc. exact Hq1.
      - exists iv. split; assumption.
      - rewrite Hcfg1. exact Hn.
      - rewrite Hcfg1. apply Hc. }
    destruct (IH (S k) c2 Hc2) as (c' & e' & Hrun & R1 & R2 & R3 & R4 & R5 & R6).
    + simpl. rewrite Hp1. exact Hp.
    + simpl. intros q' iv' Hq' Hiv'. rewrite Hq1 in Hq'. rewrite Hiv1 in Hiv'.
      injection Hq' as <-. injection Hiv' as <-.
      apply Qcle_trans with (q + iv)%Qc; [apply Hin; assumption |].
      rewrite <- (Qcplus_0_r (q + iv)) at 1.
      apply Qcplus_le_compat; [apply Qcle_refl | apply Qclt_le_weak, Hiv0].
    + simpl. lia.
    + simpl. lia.
    + exists c', ((before ++ [CaptureFrame] ++ []) ++ e').
      split; [intros extra; simpl; rewrite Hstep, Hrun; reflexivity |].
      rewrite !captures_app, !skips_app, !completions_app, B1, B2, B3, R1, R2, R3.
      rewrite last_app, R4. simpl. repeat split; try reflexivity; assumption.
Qed.




(** The capturing phase with a capture that fails at the pass [k0 + k],
    the earlier ones succeeding. *)
Lemma run_failing (n : Z) (s : Qc) (frames : nat -> bool) :
  forall (k k0 : nat) (c : t),
  cruising n s c -> pauseFlag c = false ->
  (forall q iv, currentTime c = Fin q -> frameInterval c = Fin iv -> (s <= q + iv)%Qc) ->
  (frameIndex c + Z.of_nat k < n)%Z ->
  (forall j, j < k -> frames (k0 + j) = true) -> frames (k0 + k) = false ->
  exists c' trace,
    (forall extra, run (S k + extra) frames k0 c = (c', trace, CaptureFailed)) /\
    captures trace = S k /\ completions trace = 0 /\
    stopFlag c' = true /\ frameIndex c' = (frameIndex c + Z.of_nat k)%Z.
Proof.
  induction k as [| k IH]; intros k0 c Hc Hp Hin Hlt Hok Hfail.
  - pose proof Hc as [_ [q Hq] [iv [Hiv Hiv0]] Hn _].
    destruct (nextFrame_cruising n s q iv (frames k0) c Hc Hq Hiv)
      as (c1 & before & (B1 & B2 & B3) & Hs1 & Hp1 & Hq1 & Hiv1 & Hcfg1 & Hidx1 & Hstep).
    assert (Hle : Qc_leb s (q + iv) = true) by (apply Qc_leb_le, Hin; assumption).
    rewrite Nat.add_0_r in Hfail. rewrite Hle, Hfail in Hstep. simpl in Hstep.
    eexists. eexists. split; [intros extra; simpl; rewrite Hfail, Hstep; reflexivity |].
    rewrite captures_app, completions_app, B1, B2. simpl.
    repeat split; try reflexivity. lia.
  - pose proof Hc as [_ [q Hq] [iv [Hiv Hiv0]] Hn _].
    destruct (nextFrame_cruising n s q iv (frames k0) c Hc Hq Hiv)
      as (c1 & before & (B1 & B2 & B3) & Hs1 & Hp1 & Hq1 & Hiv1 & Hcfg1 & Hidx1 & Hstep).
    assert (Hle : Qc_leb s (q + iv) = true) by (apply Qc_leb_le, Hin; assumption).
    assert (H0 : frames k0 = true).
    { rewrite <- (Nat.add_0_r k0). apply Hok. lia. }
    rewrite Hle, H0, Hp in Hstep. simpl in Hstep.
    rewrite (afterCapture_count n c1 Hs1) in Hstep by (rewrite Hcfg1; exact Hn).
    rewrite Hidx1 in Hstep.
    destruct (n <=? frameIndex c + 1)%Z eqn:Hdone; [apply Z.leb_le in Hdone; lia |].
    set (c2 := with_frameIndex (frameIndex c + 1) c1) in *.
    assert (Hc2 : cruising n s c2).
    { constructor; simpl; try assumption.
      - exists (q + iv)%Qc. exact Hq1.
      - exists iv. split; assumption.
      - rewrite Hcfg1. exact Hn.
      - rewrite Hcfg1. apply Hc. }
    destruct (IH (S k0) c2 Hc2) as (c' & e' & Hrun & R1 & R2 & R3 & R4).
    + simpl. rewrite Hp1. exact Hp.
    + simpl. intros q' iv' Hq' Hiv'. rewrite Hq1 in Hq'. rewrite Hiv1 in Hiv'.
      injection Hq' as <-. injection Hiv' as <-.
      apply Qcle_trans with (q + iv)%Qc; [apply Hin; assumption |].
      rewrite <- (Qcplus_0_r (q + iv)) at 1.
      apply Qcplus_le_compat; [apply Qcle_refl | apply Qclt_le_weak, Hiv0].
    + simpl. lia.
    + intros j Hj. replace (S k0 + j) with (k0 + S j) by lia. apply Hok. lia.
    + replace (S k0 + k) with (k0 + S k) by lia. exact Hfail.
    + exists c', ((before ++ [CaptureFrame] ++ []) ++ e').
      split.
      { intros extra. change (S (S k) + extra) with (S (S k + extra)).
        cbn [run]. rewrite H0, Hstep, Hrun. reflexivity. }
      rewrite !captures_app, !completions_app, B1, B2, R1, R2.
      unfold captures, completions. simpl in *.
      repeat split; try reflexivity; try assumption. lia.
Qed.

(** A context whose clock stands at [q] is capturing if the start time is
    not beyond [q + iv]. *)
Lemma within_first_interval (c : t) (s q iv : Qc) :
  currentTime c = Fin q -> frameInterval c = Fin iv -> (s <= q + iv)%Qc ->
  forall q' iv', currentTime c = Fin q' -> frameInterval c = Fin iv' ->
                 (s <= q' + iv')%Qc.
Proof.
  intros Hq Hiv H q' iv' Hq' Hiv'. rewrite Hq in Hq'. rewrite Hiv in Hiv'.
  injection Hq' as <-. injection Hiv' as <-. exact H.
Qed.

End CaptureLoopGeneral.



(** X2. When [captureFrame] answers [false] for the first time at the pass
    [k], before the target is reached, the loop ends there: [captureFrame]
    was called [k + 1] times, the stop flag is set, and
    [screencastCompleted] is never notified. *)
Theorem capture_failure_is_silent (c : CaptureContext.t) (f d : Qc) (n : Z)
    (k : nat) (frames : nat -> bool) :
  CaptureContext.readyFlag c = true -> idle c ->
  CaptureContext.fps (CaptureContext.config c) = JS.Num (JS.Fin f) -> (0 < f)%Qc ->
  CaptureContext.duration (CaptureContext.config c) = JS.Num (JS.Fin d) -> (0 < d)%Qc ->
  CaptureContext.frameCount (CaptureContext.config c) = JS.Num (JS.of_Z n) ->
  CaptureContext.startTime (CaptureContext.config c) = JS.Num JS.zero ->
  (Z.of_nat k < n)%Z ->
  (forall j, j < k -> frames j = true) -> frames k = false ->
  exists c' trace,
    (forall extra,
       CaptureContext.capture (S k + extra) frames c =
         Ok (c', trace, Some CaptureContext.CaptureFailed)) /\
    captures trace = S k /\ completions trace = 0 /\
    CaptureContext.stopFlag c' = true /\
    CaptureContext.frameIndex c' = Z.of_nat k.
Proof.
  intros Hr (Ht & Hi & Hs & Hp) Hfps Hf Hdur Hd Hcount Hstart Hk Hok Hfail.
  destruct (start_accepted c f d n Hr Hfps Hf Hdur Hd Hcount) as [Hst Hiv0]; [lia |].
  set (iv := (Q2Qc (inject_Z 1000) / f)%Qc) in *.
  set (c1 := CaptureContext.with_frameInterval (JS.Fin iv) c) in *.
  assert (Hc1 : cruising n 0%Qc c1).
  { constructor; simpl; try assumption.
    - exists 0%Qc. exact Ht.
    - exists iv. split; [reflexivity | exact Hiv0]. }
  destruct (run_failing n 0%Qc frames k 0 c1 Hc1 Hp) as (c' & trace & Hrun & R).
  - apply (within_first_interval c1 0%Qc 0%Qc iv Ht eq_refl).
    rewrite Qcplus_0_l. apply Qclt_le_weak, Hiv0.
  - simpl. rewrite Hi. lia.
  - exact Hok.
  - exact Hfail.
  - exists c', trace. split.
    + intros extra. unfold CaptureContext.capture. rewrite Hst.
      cbn [bind fst snd]. fold c1. rewrite Hrun. reflexivity.
    + simpl in R. rewrite Hi in R. exact R.
Qed.

Lemma capture_failure_is_silent_witness :
  let c := CaptureContext.with_config
             (CaptureContext.mkConfig (JS.Num (JS.of_Z 25)) (JS.Num JS.zero)
                (JS.Num (JS.of_Z 1000)) (JS.Num (JS.of_Z 25)) true)
             (CaptureContext.with_readyFlag true CaptureContext.initial) in
  let frames := fun j => (j <? 2)%nat in
  idle c /\ (forall j, j < 2 -> frames j = true) /\ frames 2 = false /\
  exists c' trace,
    (forall extra,
       CaptureContext.capture (3 + extra) frames c =
         Ok (c', trace, Some CaptureContext.CaptureFailed)) /\
    captures trace = 3 /\ completions trace = 0 /\
    CaptureContext.stopFlag c' = true /\
    CaptureContext.frameIndex c' = 2%Z.
Proof.
  intros c frames.
  assert (Hi : idle c) by (repeat split; reflexivity).
  assert (Hok : forall j, j < 2 -> frames j = true).
  { intros j Hj. unfold frames. apply Nat.ltb_lt. exact Hj. }
  assert (Hfail : frames 2 = false) by reflexivity.
  split; [exact Hi |]. split; [exact Hok |]. split; [exact Hfail |].
  apply (capture_failure_is_silent c (Q2Qc (inject_Z 25)) (Q2Qc (inject_Z 1000)) 25 2
           frames).
  - reflexivity.
  - exact Hi.
  - reflexivity.
  - reflexivity.
  - reflexivity.
  - reflexivity.
  - reflexivity.
  - reflexivity.
  - lia.
  - exact Hok.
  - exact Hfail.
Defined.

(** X3. Pausing between two passes of a running capture and resuming
    later neither loses nor repeats a frame: the pass after the pause
    captures its frame and parks at the pause gate, [resumeScreencast]
    lets it go on, and in all as many frames are captured as were left,
    with [screencastCompleted] notified once, at the end. *)
Theorem pause_resume_keeps_frames (c : CaptureContext.t) (n : Z) (s q iv : Qc)
    (k : nat) :
  cruising n s c -> CaptureContext.pauseFlag c = false ->
  CaptureContext.currentTime c = JS.Fin q ->
  CaptureContext.frameInterval c = JS.Fin iv -> (s <= q + iv)%Qc ->
  (CaptureContext.frameIndex c < n)%Z ->
  exists cp c1 e1 r c3 e3,
    Page.pauseScreencast Page.CAPTURING c = Ok (Page.PAUSED, cp) /\
    (forall extra,
       CaptureContext.run (1 + extra) (fun _ => true) k cp =
         (c1, e1, CaptureContext.AwaitResume)) /\
    Page.resumeScreencast Page.PAUSED true c1 = Ok (Page.CAPTURING, r) /\
    (forall extra,
       Page.resumed (Z.to_nat (n - CaptureContext.frameIndex c - 1) + extra)
                    (fun _ => true) (S k) r =
         (c3, e3, CaptureContext.Completed)) /\
    captures (e1 ++ e3) = Z.to_nat (n - CaptureContext.frameIndex c) /\
    completions (e1 ++ e3) = 1 /\
    last e3 = Some CaptureContext.ScreencastCompleted.
Proof.
  intros Hc Hp Hq Hiv Hin Hlt.
  pose proof Hc as [Hs _ [iv' [Hiv' Hiv0]] Hn Hst].
  rewrite Hiv in Hiv'. injection Hiv' as <-.
  set (cp := CaptureContext.with_pauseFlag true c).
  assert (Hcp : cruising n s cp) by (constructor; simpl; try assumption; eauto).
  destruct (nextFrame_cruising n s q iv true cp Hcp Hq Hiv)
    as (c1 & before & (B1 & B2 & B3) & Hs1 & Hp1 & Hq1 & Hiv1 & Hcfg1 & Hidx1 & Hstep).
  assert (Hle : JS.Qc_leb s (q + iv) = true) by (apply Qc_leb_le, Hin).
  rewrite Hle in Hstep. simpl in Hstep.
  set (c2 := CaptureContext.with_pauseFlag false c1).
  assert (Hafter : CaptureContext.afterCapture c2 =
            if (n <=? CaptureContext.frameIndex c + 1)%Z
            then (CaptureContext.with_stopFlag true
                    (CaptureContext.with_frameIndex (CaptureContext.frameIndex c + 1) c2),
                  [CaptureContext.ScreencastCompleted], CaptureContext.Completed)
            else (CaptureContext.with_frameIndex (CaptureContext.frameIndex c + 1) c2,
                  [], CaptureContext.Continue)).
  { rewrite (afterCapture_count n c2); simpl; try assumption.
    - rewrite Hidx1. reflexivity.
    - rewrite Hcfg1. exact Hn. }
  exists cp, c1, (before ++ [CaptureContext.CaptureFrame]).
  destruct (n <=? CaptureContext.frameIndex c + 1)%Z eqn:Hdone.
  - apply Z.leb_le in Hdone.
    eexists. eexists. eexists.
    split; [reflexivity |].
    split; [intros extra; simpl; rewrite Hstep; reflexivity |].
    split; [unfold Page.resumeScreencast; simpl; fold c2; rewrite Hafter; reflexivity |].
    split; [intros extra; reflexivity |].
    rewrite !captures_app, !completions_app, B1, B2.
    unfold captures, completions. simpl. repeat split; try reflexivity. lia.
  - apply Z.leb_gt in Hdone.
    set (c2' := CaptureContext.with_frameIndex (CaptureContext.frameIndex c + 1) c2) in *.
    assert (Hc2 : cruising n s c2').
    { constructor; simpl; try assumption.
      - exists (q + iv)%Qc. exact Hq1.
      - exists iv. split; assumption.
      - rewrite Hcfg1. exact Hn.
      - rewrite Hcfg1. exact Hst. }
    destruct (run_capturing n s (Z.to_nat (n - CaptureContext.frameIndex c - 1)) (S k)
                c2' Hc2)
      as (c3 & e3 & Hrun & R1 & R2 & R3 & R4 & _).
    + reflexivity.
    + apply (within_first_interval c2' s (q + iv)%Qc iv Hq1 Hiv1).
      apply Qcle_trans with (q + iv)%Qc; [exact Hin |].
      rewrite <- (Qcplus_0_r (q + iv)) at 1.
      apply Qcplus_le_compat; [apply Qcle_refl | apply Qclt_le_weak, Hiv0].
    + simpl. lia.
    + simpl. f_equal. lia.
    + exists (c2', [], CaptureContext.Continue), c3, ([] ++ e3).
      split; [reflexivity |].
      split; [intros extra; simpl; rewrite Hstep; reflexivity |].
      split; [unfold Page.resumeScreencast; simpl; fold c2; rewrite Hafter; reflexivity |].
      split; [intros extra; unfold Page.resumed; rewrite Hrun; reflexivity |].
      simpl. rewrite !captures_app, !completions_app, B1, B2, R1, R3.
      unfold captures, completions. simpl. repeat split; try assumption; lia.
Qed.

Lemma pause_resume_keeps_frames_witness :
  let c := CaptureContext.with_frameInterval (JS.of_Z 40)
             (CaptureContext.with_config
                (CaptureContext.mkConfig (JS.Num (JS.of_Z 25)) (JS.Num JS.zero)
                   (JS.Num (JS.of_Z 1000)) (JS.Num (JS.of_Z 25)) true)
                (CaptureContext.with_readyFlag true CaptureContext.initial)) in
  cruising 25 0%Qc c /\ (CaptureContext.frameIndex c < 25)%Z /\
  exists cp c1 e1 r c3 e3,
    Page.pauseScreencast Page.CAPTURING c = Ok (Page.PAUSED, cp) /\
    (forall extra,
       CaptureContext.run (1 + extra) (fun _ => true) 0 cp =
         (c1, e1, CaptureContext.AwaitResume)) /\
    Page.resumeScreencast Page.PAUSED true c1 = Ok (Page.CAPTURING, r) /\
    (forall extra,
       Page.resumed (Z.to_nat (25 - CaptureContext.frameIndex c - 1) + extra)
                    (fun _ => true) 1 r =
         (c3, e3, CaptureContext.Completed)) /\
    captures (e1 ++ e3) = Z.to_nat (25 - CaptureContext.frameIndex c) /\
    completions (e1 ++ e3) = 1 /\
    last e3 = Some CaptureContext.ScreencastCompleted.
Proof.
  intros c.
  assert (Hc : cruising 25 0%Qc c).
  { constructor; try reflexivity.
    - exists 0%Qc. reflexivity.
    - exists (Q2Qc (inject_Z 40)). split; reflexivity. }
  assert (Hlt : (CaptureContext.frameIndex c < 25)%Z) by (simpl; lia).
  split; [exact Hc |]. split; [exact Hlt |].
  apply (pause_resume_keeps_frames c 25 0%Qc 0%Qc (Q2Qc (inject_Z 40)) 0 Hc).
  - reflexivity.
  - reflexivity.
  - reflexivity.
  - vm_compute. discriminate.
  - exact Hlt.
Defined.

(** X4. [abort()] is heeded only once the start time is reached: before
    it the context is left as it was; from then on the next pass, whatever
    the fuel, notifies [screencastCompleted] and does nothing else: the
    clock, the frame index and the timer queues stay as they were. *)
Theorem abort_ends_capture (c : CaptureContext.t) (fuel k : nat)
    (frames : nat -> bool) :
  (CaptureContext.isCapturing c = false -> CaptureContext.abort c = c) /\
  (CaptureContext.isCapturing c = true ->
   exists c',
     CaptureContext.run (S fuel) frames k (CaptureContext.abort c) =
       (c', [CaptureContext.ScreencastCompleted], CaptureContext.Completed) /\
     CaptureContext.currentTime c' = CaptureContext.currentTime c /\
     CaptureContext.frameIndex c' = CaptureContext.frameIndex c /\
     CaptureContext.timeoutCallbacks c' = CaptureContext.timeoutCallbacks c /\
     CaptureContext.intervalCallbacks c' = CaptureContext.intervalCallbacks c).
Proof.
  unfold CaptureContext.abort. split; intros H; rewrite H; [reflexivity |].
  cbn [negb CaptureContext.run]. unfold CaptureContext.nextFrame.
  destruct (CaptureContext.startFlag (CaptureContext.with_stopFlag true c)) eqn:E;
    cbn [CaptureContext.stopFlag CaptureContext.with_stopFlag
         CaptureContext.with_startFlag];
    eexists; (split; [reflexivity | repeat split]).
Qed.

Lemma abort_ends_capture_witness :
  let c := CaptureContext.with_frameInterval (JS.of_Z 40) CaptureContext.initial in
  CaptureContext.isCapturing c = true /\
  exists c',
    CaptureContext.run 3 (fun _ => true) 0 (CaptureContext.abort c) =
      (c', [CaptureContext.ScreencastCompleted], CaptureContext.Completed) /\
    CaptureContext.currentTime c' = CaptureContext.currentTime c /\
    CaptureContext.frameIndex c' = CaptureContext.frameIndex c /\
    CaptureContext.timeoutCallbacks c' = CaptureContext.timeoutCallbacks c /\
    CaptureContext.intervalCallbacks c' = CaptureContext.intervalCallbacks c.
Proof.
  intros c.
  assert (H : CaptureContext.isCapturing c = true) by reflexivity.
  split; [exact H |].
  exact (proj2 (abort_ends_capture c 2 0 (fun _ => true)) H).
Defined.

(** ** More on the virtual timers *)

Section TimerQueues.
Import JS CaptureContext.

Lemma pending_undefined (e : timer) : pending Undefined e = false.
Proof. reflexivity. Qed.

Lemma filter_fresh (z : Z) (q : list timer) :
  Forall (fun e => tid e <> z) q ->
  List.filter (fun e => negb (tid e =? z)%Z) q = q.
Proof.
  induction 1 as [| e q He _ IH]; simpl; [reflexivity |].
  apply Z.eqb_neq in He. rewrite He. simpl. rewrite IH. reflexivity.
Qed.

Lemma bounded_fresh (n : Z) (q : list timer) :
  ids_bounded n q -> Forall (fun e => tid e <> (n - 1)%Z) q.
Proof.
  unfold ids_bounded. rewrite List.Forall_map. intros H.
  eapply List.Forall_impl; [| exact H]. intros e He. simpl in He. lia.
Qed.

Lemma with_timeoutCallbacks_same (c : t) (q : list timer) (z : Z) :
  with_timeoutCallbacks (timeoutCallbacks c)
    (with_timeoutCallbacks q (with_timerId z c)) = with_timerId z c.
Proof. destruct c. reflexivity. Qed.

Lemma with_intervalCallbacks_same (c : t) (q : list timer) (z : Z) :
  with_intervalCallbacks (intervalCallbacks c)
    (with_intervalCallbacks q (with_timerId z c)) = with_timerId z c.
Proof. destruct c. reflexivity. Qed.

End TimerQueues.

(** X5. In a pass that is not stopped, the timeouts that fire leave
    their queue, so that those that remain were all still pending at the
    time of the pass; the intervals all stay, with their ids, delays and
    callbacks, and the ones that fired carry the time of the pass as their
    new timestamp. *)
Theorem pass_consumes_timeouts_keeps_intervals (c : CaptureContext.t) (captured : bool) :
  CaptureContext.stopFlag c = false ->
  let now := JS.Num (JS.add (CaptureContext.currentTime c)
                            (CaptureContext.frameInterval c)) in
  let c' := fst (fst (CaptureContext.nextFrame captured c)) in
  CaptureContext.timeoutCallbacks c' =
    List.filter (CaptureContext.pending now) (CaptureContext.timeoutCallbacks c) /\
  Forall (fun e => CaptureContext.pending now e = true)
         (CaptureContext.timeoutCallbacks c') /\
  Forall2 (fun e e' => CaptureContext.tid e' = CaptureContext.tid e /\
                       CaptureContext.delay e' = CaptureContext.delay e /\
                       CaptureContext.fn e' = CaptureContext.fn e /\
                       CaptureContext.timestamp e' =
                         if CaptureContext.pending now e
                         then CaptureContext.timestamp e else now)
          (CaptureContext.intervalCallbacks c) (CaptureContext.intervalCallbacks c').
Proof.
  intros Hs now c'.
  destruct (nextFrame_timers captured c Hs) as (_ & Hi & Ht & _).
  fold now c' in Hi, Ht. rewrite Hi, Ht.
  split; [reflexivity |]. split.
  - apply List.Forall_forall. intros e He. apply List.filter_In in He. apply He.
  - clear. induction (CaptureContext.intervalCallbacks c) as [| e q IH]; simpl;
      constructor; [| exact IH].
    unfold stamp. destruct (CaptureContext.pending now e); simpl; auto.
Qed.

Lemma pass_consumes_timeouts_keeps_intervals_witness :
  let c1 := fst (CaptureContext.setTimeout
                   (CaptureContext.with_frameInterval (JS.of_Z 40) CaptureContext.initial)
                   (CaptureContext.Fun "soon"%string) (JS.Num (JS.of_Z 40))) in
  let c := fst (CaptureContext.setTimeout c1
                  (CaptureContext.Fun "later"%string) (JS.Num (JS.of_Z 100))) in
  CaptureContext.stopFlag c = false /\
  List.map CaptureContext.fn
    (CaptureContext.timeoutCallbacks (fst (fst (CaptureContext.nextFrame true c)))) =
    ["later"%string].
Proof.
  intros c1 c.
  assert (Hs : CaptureContext.stopFlag c = false) by reflexivity.
  split; [exact Hs |].
  rewrite (proj1 (pass_consumes_timeouts_keeps_intervals c true Hs)).
  vm_compute. reflexivity.
Defined.

(** X6. On every context that the page can reach, the id that
    [setTimeout] or [setInterval] hands out is negative and is the id of no
    entry of either queue; clearing it at once gives back the queue as it
    was before the call, only the id counter having moved. *)
Theorem fresh_timer_is_cleared (c : CaptureContext.t) (g : CaptureContext.fnref)
    (delay : JS.num) :
  reachable c -> JS.isNaN_num delay = false ->
  let id := (CaptureContext.timerId c - 1)%Z in
  (id < 0)%Z /\
  Forall (fun e => CaptureContext.tid e <> id)
         (CaptureContext.timeoutCallbacks c ++ CaptureContext.intervalCallbacks c) /\
  (exists c1,
     CaptureContext.setTimeout c (CaptureContext.Fun g) (JS.Num delay) = (c1, Some id) /\
     CaptureContext.clearTimeout c1 (JS.Num (JS.of_Z id)) =
       (CaptureContext.with_timerId id c, [])) /\
  (exists c1,
     CaptureContext.setInterval c (CaptureContext.Fun g) (JS.Num delay) = (c1, Some id) /\
     CaptureContext.clearInterval c1 (JS.Num (JS.of_Z id)) =
       (CaptureContext.with_timerId id c, [])).
Proof.
  intros Hreach Hdelay id.
  destruct (reachable_timers_ok c Hreach) as (H0 & H1 & H2 & H3 & H4).
  assert (Hid : (id < 0)%Z) by (unfold id; lia).
  assert (Hnan : JS.isNaN (JS.Num delay) = false) by exact Hdelay.
  pose proof (bounded_fresh _ _ H1) as F1. pose proof (bounded_fresh _ _ H2) as F2.
  fold id in F1, F2.
  split; [exact Hid |]. split; [apply Forall_app; split; assumption |]. split.
  - eexists. split.
    + unfold CaptureContext.setTimeout. rewrite Hnan. reflexivity.
    + unfold CaptureContext.clearTimeout.
      rewrite (truthy_negative id Hid). cbn [negb].
      cbn [JS.ToNumber]. rewrite (geb_negative id Hid).
      rewrite drop_timer_filter. cbn [CaptureContext.timeoutCallbacks
        CaptureContext.with_timeoutCallbacks CaptureContext.with_timerId].
      rewrite List.filter_app, (filter_fresh id _ F2). simpl.
      rewrite Z.eqb_refl. simpl. rewrite app_nil_r.
      rewrite with_timeoutCallbacks_same. reflexivity.
  - eexists. split.
    + unfold CaptureContext.setInterval. rewrite Hnan. reflexivity.
    + unfold CaptureContext.clearInterval.
      rewrite (truthy_negative id Hid). cbn [negb].
      cbn [JS.ToNumber]. rewrite (geb_negative id Hid).
      rewrite drop_timer_filter. cbn [CaptureContext.intervalCallbacks
        CaptureContext.with_intervalCallbacks CaptureContext.with_timerId].
      rewrite List.filter_app, (filter_fresh id _ F1). simpl.
      rewrite Z.eqb_refl. simpl. rewrite app_nil_r.
      rewrite with_intervalCallbacks_same. reflexivity.
Qed.

Lemma fresh_timer_is_cleared_witness :
  let c := fst (CaptureContext.setInterval CaptureContext.initial
                  (CaptureContext.Fun "tick"%string) (JS.Num (JS.of_Z 100))) in
  reachable c /\ JS.isNaN_num (JS.of_Z 40) = false /\
  exists c1,
    CaptureContext.setTimeout c (CaptureContext.Fun "once"%string)
                              (JS.Num (JS.of_Z 40)) = (c1, Some (-2)%Z) /\
    CaptureContext.clearTimeout c1 (JS.Num (JS.of_Z (-2))) =
      (CaptureContext.with_timerId (-2) c, []).
Proof.
  intros c.
  assert (Hc : reachable c) by (apply reach_setInterval, reach_initial).
  assert (Hd : JS.isNaN_num (JS.of_Z 40) = false) by reflexivity.
  split; [exact Hc |]. split; [exact Hd |].
  exact (proj1 (proj2 (proj2 (fresh_timer_is_cleared c "once"%string (JS.of_Z 40) Hc Hd)))).
Defined.

(** X7. [init()] calls both dispatchers without a time: every queued
    timeout and then every queued interval is posted, whatever its delay;
    the timeout queue is left empty, and every interval is left with an
    undefined timestamp, which makes it due at any later time. *)
Theorem init_fires_every_timer (c : CaptureContext.t) :
  let c' := fst (CaptureContext.init c) in
  posted (snd (CaptureContext.init c)) =
    List.map (fun e => (CaptureContext.fn e, JS.Undefined))
             (CaptureContext.timeoutCallbacks c ++ CaptureContext.intervalCallbacks c) /\
  CaptureContext.timeoutCallbacks c' = [] /\
  CaptureContext.intervalCallbacks c' =
    List.map (fun e => CaptureContext.mkTimer (CaptureContext.tid e) JS.Undefined
                         (CaptureContext.delay e) (CaptureContext.fn e))
             (CaptureContext.intervalCallbacks c) /\
  (forall now e, e ∈ CaptureContext.intervalCallbacks c' ->
                 CaptureContext.pending now e = false).
Proof.
  intros c'. subst c'. unfold CaptureContext.init.
  rewrite callTimeoutCallbacks_spec.
  rewrite callIntervalCallbacks_spec. cbn [fst snd].
  cbn [CaptureContext.timeoutCallbacks CaptureContext.intervalCallbacks
       CaptureContext.with_timeoutCallbacks CaptureContext.with_intervalCallbacks].
  assert (Hall : forall q : list CaptureContext.timer,
            List.filter (fun e => negb (CaptureContext.pending JS.Undefined e)) q = q).
  { induction q as [| e q IH]; [reflexivity |].
    cbn [List.filter]. rewrite pending_undefined. cbn [negb]. rewrite IH. reflexivity. }
  assert (Hnone : forall q : list CaptureContext.timer,
            List.filter (CaptureContext.pending JS.Undefined) q = []).
  { induction q as [| e q IH]; [reflexivity |].
    cbn [List.filter]. rewrite pending_undefined. exact IH. }
  rewrite !Hall, Hnone.
  split; [| split; [reflexivity | split]].
  - rewrite posted_app, List.map_app. f_equal.
    + induction (CaptureContext.timeoutCallbacks c) as [| e q IH]; simpl;
        [reflexivity |]. rewrite <- IH. reflexivity.
    + induction (CaptureContext.intervalCallbacks c) as [| e q IH]; simpl;
        [reflexivity |]. rewrite <- IH. reflexivity.
  - apply List.map_ext. intros e. reflexivity.
  - intros now e He. apply list_elem_of_In, List.in_map_iff in He.
    destruct He as (e0 & <- & _). unfold stamp. simpl.
    unfold CaptureContext.pending. simpl.
    destruct (JS.ToNumber now); reflexivity.
Qed.

(** ** More on the host-side driver *)

Section TimeActions.
Import JS Page.

Lemma sort_insert_In (x y : Z) (l : list Z) :
  In y (sort_insert x l) <-> y = x \/ In y l.
Proof.
  induction l as [| z l IH]; simpl; [intuition (subst; auto) |].
  destruct (String.ltb (toString z) (toString x)); simpl; [rewrite IH |];
    intuition (subst; auto).
Qed.

Lemma sort_In (y : Z) (l : list Z) : In y (sort l) <-> In y l.
Proof.
  unfold sort. induction l as [| x l IH]; simpl; [tauto |].
  rewrite sort_insert_In, IH. intuition (subst; auto).
Qed.

End TimeActions.

(** X8. A call of [seekTimeActions] invokes at most one action.  The action
    that is invoked was registered at a time that is not zero and not after
    the integer part of the current time, and it is removed from the map,
    so that no action is invoked twice; when nothing is invoked, the map is
    as it was. *)
Theorem seekTimeActions_invokes_once (timeActions : gmap Z CaptureContext.fnref)
    (currentTime : JS.num) :
  let r := Page.seekTimeActions timeActions currentTime in
  (snd r = [] /\ fst r = timeActions) \/
  (exists time action,
     timeActions !! time = Some action /\ time <> 0%Z /\
     JS.geb (Page.parseInt currentTime) (JS.of_Z time) = true /\
     fst r = delete time timeActions /\ snd r = [action] /\
     fst r !! time = None).
Proof.
  intros r. subst r. unfold Page.seekTimeActions.
  destruct (List.find _ _) as [time |] eqn:Hfind; [| left; split; reflexivity].
  apply List.find_some in Hfind as [Hin Hge].
  apply sort_In, list_elem_of_In, elem_of_elements, elem_of_dom in Hin.
  destruct Hin as [action Hlook].
  destruct (time =? 0)%Z eqn:Hz; [left; split; reflexivity |].
  apply Z.eqb_neq in Hz. rewrite Hlook. right.
  exists time, action. simpl. repeat split; try assumption.
  apply lookup_delete_eq.
Qed.

(** X9. When [startScreencast] is given a finite duration, the frame count
    handed to the page is the one that [durationToFrameCount] derives from
    the duration and the frame rate, [Math.floor(duration / 1000 * fps)] in
    binary64, whatever frame count the caller gave. *)
Theorem startScreencast_duration_wins (f d : Qc) (startTime frameCount : JS.value)
    (autostart : option bool) (p : Page.patch) :
  Page.startScreencast Page.READY
    (Page.mkOptions (JS.Num (JS.Fin f)) startTime (JS.Num (JS.Fin d)) frameCount
                    autostart) = Ok p ->
  Util.durationToFrameCount (JS.Num (JS.Fin d)) (JS.Num (JS.Fin f)) =
    Ok (JS.floor (JS.mul64 (JS.div64 (JS.Fin d) (JS.of_Z 1000)) (JS.Fin f))) /\
  Page.frameCount p =
    JS.Num (JS.floor (JS.mul64 (JS.div64 (JS.Fin d) (JS.of_Z 1000)) (JS.Fin f))) /\
  Page.duration p = JS.Num (JS.Fin d) /\ Page.fps p = JS.Num (JS.Fin f).
Proof.
  unfold Page.startScreencast. cbn [Page.fps Page.startTime Page.duration
    Page.frameCount Page.autostart Lodash.isUndefined Lodash.isFinite
    JS.isFinite_num orb assert bind].
  destruct (Lodash.isFinite _); cbn [assert bind]; [| discriminate].
  destruct (Lodash.isUndefined frameCount || Lodash.isFinite frameCount);
    cbn [assert bind]; [| discriminate].
  unfold Util.durationToFrameCount. cbn [Lodash.isFinite JS.isFinite_num assert bind
    JS.ToNumber].
  intros H. injection H as <-. repeat split.
Qed.

Lemma startScreencast_duration_wins_witness :
  exists p,
    Page.startScreencast Page.READY
      (Page.mkOptions (JS.Num (JS.of_Z 30)) JS.Undefined (JS.Num (JS.of_Z 4100))
                      (JS.Num (JS.of_Z 7)) None) = Ok p /\
    Page.frameCount p =
      JS.Num (JS.floor (JS.mul64 (JS.div64 (JS.of_Z 4100) (JS.of_Z 1000))
                                 (JS.of_Z 30))) /\
    JS.eqb (JS.ToNumber (Page.frameCount p)) (JS.of_Z 122) = true.
Proof.
  eexists. split; [reflexivity |].
  split; [| vm_compute; reflexivity].
  refine (proj1 (proj2 (startScreencast_duration_wins
                   (Q2Qc (inject_Z 30)) (Q2Qc (inject_Z 4100))
                   JS.Undefined (JS.Num (JS.of_Z 7)) None _ _))).
  reflexivity.
Defined.

(** X10. The assertions of [startScreencast] let an undefined frame rate
    pass, but the derivation of the missing one of duration and frame count
    does not: when the other options pass their assertions and a finite
    duration or a finite frame count is given without a frame rate, the
    call throws. *)
Theorem startScreencast_needs_fps (o : Page.ScreencastOptions) :
  Page.fps o = JS.Undefined ->
  Lodash.isFinite (match Page.startTime o with JS.Undefined => JS.Num JS.zero | v => v end)
    = true ->
  Lodash.isUndefined (Page.duration o) || Lodash.isFinite (Page.duration o) = true ->
  Lodash.isUndefined (Page.frameCount o) || Lodash.isFinite (Page.frameCount o) = true ->
  Lodash.isFinite (Page.duration o) || Lodash.isFinite (Page.frameCount o) = true ->
  Page.startScreencast Page.READY o = Throw "fps must be number".
Proof.
  intros Hfps Hstart Hd Hfc Hgiven. unfold Page.startScreencast.
  rewrite Hfps, Hstart, Hd, Hfc. cbn [Lodash.isUndefined orb assert bind].
  destruct (Lodash.isFinite (Page.duration o)) eqn:E.
  - unfold Util.durationToFrameCount. rewrite E. reflexivity.
  - simpl in Hgiven. rewrite Hgiven.
    unfold Util.frameCountToDuration. rewrite Hgiven. reflexivity.
Qed.

Lemma startScreencast_needs_fps_witness :
  Page.startScreencast Page.READY
    (Page.mkOptions JS.Undefined JS.Undefined (JS.Num (JS.of_Z 2000)) JS.Undefined None)
  = Throw "fps must be number".
Proof.
  apply startScreencast_needs_fps; reflexivity.
Defined.

(** ** Payloads that [_unpackData] rejects *)

Section PayloadErrors.
Import JSON Payload.

Lemma delimiterIndex_none (l : list byte) : forall i,
  Forall (fun b => b <> "!"%byte) l -> delimiterIndex l i = None.
Proof.
  induction l as [| b l IH]; intros i H; [reflexivity |].
  inversion H as [| ? ? Hb Hl]; subst. simpl.
  destruct (Byte.eqb b "!") eqn:E; [apply Byte.byte_dec_bl in E; contradiction |].
  apply IH, Hl.
Qed.

End PayloadErrors.

(** X11. [_unpackData] throws on a payload that has no ["!"] byte (the
    empty payload is one), and on a payload whose decimal prefix announces
    a header of length zero or of more bytes than follow the delimiter. *)
Theorem unpackData_rejects_malformed (packed rest : list byte) (n : nat) :
  (Forall (fun b => b <> "!"%byte) packed ->
   Payload._unpackData packed =
     Payload.Throws "Invalid data format: header delimiter not found") /\
  (n = 0 \/ length rest < n ->
   Payload._unpackData (Payload.encode (Payload.decimal n) ++ "!"%byte :: rest) =
     Payload.Throws "Invalid data format: Invalid data length").
Proof.
  split.
  - intros H. unfold Payload._unpackData.
    rewrite (delimiterIndex_none packed 0 H). reflexivity.
  - intros H. unfold Payload._unpackData.
    destruct (decimal_bytes n) as (Dne & Ddec & Dval).
    set (D := Payload.encode (Payload.decimal n)) in *.
    rewrite (delimiterIndex_decimal D rest 0 Ddec). cbn [Nat.add].
    rewrite take_app_length, (parseInt_decimal D n Dne Ddec Dval).
    rewrite length_app. cbn [length].
    destruct (Z.leb_spec (Z.of_nat n) 0) as [H0 | H0]; [reflexivity |].
    destruct (Z.ltb_spec (Z.of_nat (length D + S (length rest)) - Z.of_nat (length D) - 1)
                         (Z.of_nat n)) as [H1 | H1]; [reflexivity | lia].
Qed.

Lemma unpackData_rejects_malformed_witness :
  Payload._unpackData (Payload.encode "12{}") =
    Payload.Throws "Invalid data format: header delimiter not found" /\
  Payload._unpackData (Payload.encode (Payload.decimal 12) ++ "!"%byte
                         :: Payload.encode "{}") =
    Payload.Throws "Invalid data format: Invalid data length".
Proof.
  split.
  - apply (proj1 (unpackData_rejects_malformed (Payload.encode "12{}") [] 0)).
    repeat constructor; discriminate.
  - apply (proj2 (unpackData_rejects_malformed [] (Payload.encode "{}") 12)).
    right. simpl. lia.
Defined.

(** ** The frames on their way to the encoder *)

Section FramePipe.
Import FrameBuffers.

Lemma written_app (a b : list effect) : written (a ++ b) = written a ++ written b.
Proof. unfold written. rewrite omap_app, concat_app. reflexivity. Qed.

Lemma written_opened (b : bool) : written (if b then [] else [Open]) = [].
Proof. destruct b; reflexivity. Qed.

Lemma concat_all_some (l : list buffer) : concat_all (List.map Some l) = Some (concat l).
Proof.
  induction l as [| b l IH]; simpl; [reflexivity |]. rewrite IH. reflexivity.
Qed.

Lemma omap_id_some (l : list buffer) : omap id (List.map Some l) = l.
Proof. induction l as [| b l IH]; [reflexivity |]. cbn. f_equal. exact IH. Qed.

Lemma omap_id_holes (n : nat) : omap id (replicate n (@None buffer)) = [].
Proof. induction n as [| n IH]; [reflexivity |]. cbn. exact IH. Qed.

Lemma assign_next (tail : list buffer) (prev : list (option buffer)) (f : buffer) :
  length tail < length prev ->
  assign (length tail) f (List.map Some tail ++ drop (length tail) prev) =
  List.map Some (tail ++ [f]) ++ drop (S (length tail)) prev.
Proof.
  intros H. unfold assign.
  assert (Hlen : length (List.map Some tail ++ drop (length tail) prev) = length prev).
  { rewrite length_app, length_map, length_drop. lia. }
  rewrite Hlen. destruct (Nat.ltb_spec (length tail) (length prev)); [| lia].
  rewrite insert_app_r_alt by (rewrite length_map; lia).
  rewrite length_map, Nat.sub_diag.
  destruct (drop (length tail) prev) as [| x rest] eqn:E.
  { apply (f_equal length) in E. rewrite length_drop in E. simpl in E. lia. }
  simpl. rewrite List.map_app. simpl. rewrite <- app_assoc. simpl.
  f_equal. f_equal.
  replace (S (length tail)) with (length tail + 1) by lia.
  rewrite <- drop_drop, E. reflexivity.
Qed.

(** One frame more. *)
Lemma input_buffered (P : nat) (prev : list (option buffer)) (tail : list buffer)
    (s : t) (f : buffer) :
  buffered P prev tail s ->
  exists s' e,
    input s f = Ok (s', e) /\ _frameCount s' = S (_frameCount s) /\
    pipeStream s' = true /\
    if (S (length tail) <? P)%nat
    then buffered P prev (tail ++ [f]) s' /\ written e = []
    else buffered P (List.map Some (tail ++ [f])) [] s' /\
         written e = concat (tail ++ [f]).
Proof.
  intros (HP & Hprev & Hlt & Hidx & Hbuf & Hpipe).
  unfold input. rewrite Hidx, HP, Hbuf, assign_next by lia.
  destruct (Nat.ltb_spec (S (length tail)) P) as [H | H].
  - eexists. eexists. split; [reflexivity |]. split; [reflexivity |].
    split; [reflexivity |]. split; [| apply written_opened].
    unfold buffered. simpl. rewrite length_app. simpl.
    replace (length tail + 1) with (S (length tail)) by lia.
    repeat split; auto.
  - assert (Hdrop : drop (S (length tail)) prev = []).
    { apply drop_ge. lia. }
    rewrite Hdrop, app_nil_r, concat_all_some.
    eexists. eexists. split; [reflexivity |]. split; [reflexivity |].
    split; [reflexivity |]. split.
    + unfold buffered. simpl. rewrite length_map, length_app. simpl.
      repeat split; auto; lia.
    + rewrite written_app, written_opened. unfold written. simpl.
      rewrite app_nil_r. reflexivity.
Qed.

Lemma inputs_app (s : t) (a b : list buffer) :
  inputs s (a ++ b) =
  do r <- inputs s a; do r' <- inputs (fst r) b; Ok (fst r', snd r ++ snd r').
Proof.
  revert s. induction a as [| f a IH]; intros s; simpl.
  - destruct (inputs s b) as [[s' e] |]; reflexivity.
  - destruct (input s f) as [[s1 e1] |]; simpl; [| reflexivity].
    rewrite IH. destruct (inputs s1 a) as [[s2 e2] |]; simpl; [| reflexivity].
    destruct (inputs s2 b) as [[s3 e3] |]; simpl; [| reflexivity].
    rewrite app_assoc. reflexivity.
Qed.

(** Frames that do not fill the buffers are kept, nothing is written. *)
Lemma inputs_partial (P : nat) (prev : list (option buffer)) :
  forall (fs tail : list buffer) (s : t),
  buffered P prev tail s -> length tail + length fs < P ->
  exists s' e,
    inputs s fs = Ok (s', e) /\ buffered P prev (tail ++ fs) s' /\ written e = [] /\
    _frameCount s' = _frameCount s + length fs.
Proof.
  induction fs as [| f fs IH]; intros tail s Hs Hlen.
  - exists s, []. rewrite app_nil_r. simpl.
    split; [reflexivity |]. split; [exact Hs |]. split; [reflexivity | lia].
  - simpl in Hlen.
    destruct (input_buffered P prev tail s f Hs) as (s1 & e1 & H1 & Hc1 & _ & Hcase).
    destruct (Nat.ltb_spec (S (length tail)) P) as [H | H]; [| lia].
    destruct Hcase as [Hs1 Hw1].
    destruct (IH (tail ++ [f]) s1 Hs1) as (s2 & e2 & H2 & Hs2 & Hw2 & Hc2).
    { rewrite length_app. simpl. lia. }
    exists s2, (e1 ++ e2). simpl. rewrite H1. simpl. rewrite H2. simpl.
    rewrite <- app_assoc in Hs2. simpl in Hs2.
    rewrite written_app, Hw1, Hw2, Hc2, Hc1.
    split; [reflexivity |]. split; [exact Hs2 |]. split; [reflexivity | lia].
Qed.

(** A batch that fills the buffers is written as one chunk. *)
Lemma inputs_batch (P : nat) (prev : list (option buffer)) (batch : list buffer)
    (s : t) :
  1 <= P -> buffered P prev [] s -> length batch = P ->
  exists s' e,
    inputs s batch = Ok (s', e) /\ buffered P (List.map Some batch) [] s' /\
    written e = concat batch /\ _frameCount s' = _frameCount s + P /\
    pipeStream s' = true.
Proof.
  intros HP Hs Hlen.
  destruct (exists_last (l := batch)) as (front & f & ->).
  { intros ->. simpl in Hlen. lia. }
  rewrite length_app in Hlen. simpl in Hlen.
  destruct (inputs_partial P prev front [] s Hs) as (s1 & e1 & H1 & Hs1 & Hw1 & Hc1).
  { simpl. lia. }
  simpl in Hs1.
  destruct (input_buffered P prev front s1 f Hs1) as (s2 & e2 & H2 & Hc2 & Hp2 & Hcase).
  destruct (Nat.ltb_spec (S (length front)) P) as [H | H]; [lia |].
  destruct Hcase as [Hs2 Hw2].
  exists s2, (e1 ++ (e2 ++ [])). rewrite inputs_app, H1. simpl. rewrite H2. simpl.
  rewrite written_app, Hw1, app_nil_r, Hw2.
  split; [reflexivity |]. split; [exact Hs2 |]. split; [reflexivity |].
  split; [lia | exact Hp2].
Qed.

Lemma inputs_batches (P : nat) :
  1 <= P ->
  forall (batches : list (list buffer)) (prev : list (option buffer)) (s : t),
  buffered P prev [] s -> Forall (fun b => length b = P) batches ->
  exists s' e,
    inputs s (concat batches) = Ok (s', e) /\
    buffered P (match last batches with
                | Some b => List.map Some b
                | None => prev
                end) [] s' /\
    written e = concat (concat batches) /\
    _frameCount s' = _frameCount s + length (concat batches).
Proof.
  intros HP. induction batches as [| b batches IH]; intros prev s Hs Hall.
  - exists s, []. simpl.
    split; [reflexivity |]. split; [exact Hs |]. split; [reflexivity | lia].
  - apply Forall_cons in Hall as [Hb Hrest].
    destruct (inputs_batch P prev b s HP Hs Hb) as (s1 & e1 & H1 & Hs1 & Hw1 & Hc1 & _).
    destruct (IH (List.map Some b) s1 Hs1 Hrest) as (s2 & e2 & H2 & Hs2 & Hw2 & Hc2).
    exists s2, (e1 ++ e2). simpl. rewrite inputs_app, H1. simpl. rewrite H2. simpl.
    rewrite written_app, Hw1, Hw2, concat_app, length_app, Hc2, Hc1, Hb.
    split; [reflexivity |]. split; [| split; [reflexivity | lia]].
    destruct batches as [| b' batches']; [exact Hs2 |].
    rewrite last_cons_cons.
    destruct (last (b' :: batches')) eqn:E; [exact Hs2 |].
    apply last_None in E. discriminate.
Qed.

Lemma constructor_buffered (P : nat) :
  1 <= P -> buffered P (replicate P None) [] (constructor P).
Proof.
  intros HP. unfold buffered, constructor. simpl.
  rewrite length_replicate. repeat split; auto.
Qed.

(** What [#drain()] writes. *)
Lemma drain_buffered (P : nat) (prev : list (option buffer)) (tail : list buffer)
    (s : t) :
  buffered P prev tail s ->
  written (snd (drain false s)) =
    match tail with
    | [] => []
    | _ :: _ => concat tail ++ concat (omap id (drop (length tail) prev))
    end.
Proof.
  intros (_ & _ & _ & Hidx & Hbuf & Hpipe). unfold drain.
  destruct tail as [| f tail].
  - destruct (pipeStream s); cbn [negb snd]; [| reflexivity].
    rewrite Hidx. reflexivity.
  - rewrite Hpipe by discriminate. cbn [negb snd]. rewrite Hidx, Hbuf.
    change (0 <? length (f :: tail))%nat with true. cbn iota.
    rewrite written_app.
    change (written [End]) with (@nil byte).
    change (written [Write ?x]) with (x ++ []).
    rewrite !app_nil_r, omap_app, omap_id_some, concat_app. reflexivity.
Qed.

(** All the frames, then [#drain()]. *)
Lemma inputs_then_drain (P : nat) (batches : list (list buffer)) (tail : list buffer) :
  1 <= P -> Forall (fun b => length b = P) batches -> length tail < P ->
  exists s e,
    inputs (constructor P) (concat batches ++ tail) = Ok (s, e) /\
    _frameCount s = length (concat batches ++ tail) /\
    frameBufferIndex s = length tail /\
    written e = concat (concat batches) /\
    written (snd (drain false s)) = concat tail ++ concat (stale batches tail).
Proof.
  intros HP Hall Hlen.
  destruct (inputs_batches P HP batches _ _ (constructor_buffered P HP) Hall)
    as (s1 & e1 & H1 & Hs1 & Hw1 & Hc1).
  set (prev := match last batches with
               | Some b => List.map Some b
               | None => replicate P None
               end) in *.
  destruct (inputs_partial P prev tail [] s1 Hs1) as (s2 & e2 & H2 & Hs2 & Hw2 & Hc2).
  { simpl. lia. }
  simpl in Hs2.
  exists s2, (e1 ++ e2). rewrite inputs_app, H1. simpl. rewrite H2. simpl.
  rewrite (drain_buffered P prev tail s2 Hs2).
  destruct Hs2 as (_ & Hprev & _ & Hidx & Hbuf & Hpipe).
  rewrite written_app, Hw1, Hw2, app_nil_r, length_app, Hc2, Hc1.
  split; [reflexivity |]. split; [reflexivity |]. split; [exact Hidx |].
  split; [reflexivity |].
  destruct tail as [| f tail]; [reflexivity |].
  f_equal. f_equal. unfold stale, prev. destruct (last batches) as [b |].
  - rewrite skipn_map. apply omap_id_some.
  - rewrite drop_replicate. apply omap_id_holes.
Qed.

End FramePipe.

(** X12. The frames given to [input] are written to the pipe in whole
    batches of [parallelWriteFrames] frames, in the order in which they
    came: after the frames of some batches followed by fewer frames than a
    batch, [input] has never thrown, has counted every frame, has written
    exactly the batches, and holds the others back. *)
Theorem input_writes_whole_batches (P : nat)
    (batches : list (list FrameBuffers.buffer)) (tail : list FrameBuffers.buffer) :
  1 <= P -> Forall (fun b => length b = P) batches -> length tail < P ->
  exists s e,
    FrameBuffers.inputs (FrameBuffers.constructor P) (concat batches ++ tail) =
      Ok (s, e) /\
    FrameBuffers._frameCount s = length (concat batches ++ tail) /\
    FrameBuffers.frameBufferIndex s = length tail /\
    FrameBuffers.written e = concat (concat batches).
Proof.
  intros HP Hall Hlen.
  destruct (inputs_then_drain P batches tail HP Hall Hlen)
    as (s & e & H1 & H2 & H3 & H4 & _).
  exists s, e. auto.
Qed.

Lemma input_writes_whole_batches_witness :
  let a : FrameBuffers.buffer := ["a"%byte] in
  let b : FrameBuffers.buffer := ["b"%byte] in
  let c : FrameBuffers.buffer := ["c"%byte] in
  exists s e,
    FrameBuffers.inputs (FrameBuffers.constructor 2) [a; b; c] = Ok (s, e) /\
    FrameBuffers._frameCount s = 3 /\
    FrameBuffers.frameBufferIndex s = 1 /\
    FrameBuffers.written e = ["a"%byte; "b"%byte].
Proof.
  intros a b c.
  apply (input_writes_whole_batches 2 [[a; b]] [c]).
  - lia.
  - repeat constructor.
  - simpl. lia.
Defined.

(** X13. [#drain()] writes every slot of the buffers that holds a frame,
    and [input] does not empty the slots after a write.  So, after the
    frames of some batches followed by a shorter tail, the pipe has received
    all the frames in order and then, when there are both a batch and a
    tail, once more the frames of the last batch that the tail has not
    overwritten: [parallelWriteFrames - length tail] of them. *)
Theorem drain_repeats_stale_frames (P : nat)
    (batches : list (list FrameBuffers.buffer)) (tail : list FrameBuffers.buffer) :
  1 <= P -> Forall (fun b => length b = P) batches -> length tail < P ->
  exists s e,
    FrameBuffers.inputs (FrameBuffers.constructor P) (concat batches ++ tail) =
      Ok (s, e) /\
    FrameBuffers.written (e ++ snd (FrameBuffers.drain false s)) =
      concat (concat batches ++ tail) ++ concat (stale batches tail) /\
    (batches = [] \/ tail = [] -> stale batches tail = []) /\
    (batches <> [] -> tail <> [] -> length (stale batches tail) = P - length tail).
Proof.
  intros HP Hall Hlen.
  destruct (inputs_then_drain P batches tail HP Hall Hlen)
    as (s & e & H1 & _ & _ & H4 & H5).
  exists s, e. split; [exact H1 |]. split; [| split].
  - rewrite written_app, H4, H5, concat_app, app_assoc. reflexivity.
  - intros [-> | ->]; unfold stale; [destruct tail | destruct (last batches)];
      reflexivity.
  - intros Hb Ht. unfold stale. destruct tail as [| f tail]; [contradiction |].
    destruct (last batches) as [b |] eqn:E; [| apply last_None in E; contradiction].
    rewrite length_drop. f_equal.
    apply last_Some in E as [front ->].
    apply Forall_app in Hall as [_ Hb']. apply Forall_cons in Hb' as [Hlast _].
    exact Hlast.
Qed.

Lemma drain_repeats_stale_frames_witness :
  let a : FrameBuffers.buffer := ["a"%byte] in
  let b : FrameBuffers.buffer := ["b"%byte] in
  let c : FrameBuffers.buffer := ["c"%byte] in
  exists s e,
    FrameBuffers.inputs (FrameBuffers.constructor 2) [a; b; c] = Ok (s, e) /\
    FrameBuffers.written (e ++ snd (FrameBuffers.drain false s)) =
      ["a"%byte; "b"%byte; "c"%byte; "b"%byte].
Proof.
  intros a b c.
  destruct (drain_repeats_stale_frames 2 [[a; b]] [c]) as (s & e & H1 & H2 & _).
  - lia.
  - repeat constructor.
  - simpl. lia.
  - exists s, e. split; [exact H1 | exact H2].
Defined.

(** ** The retries of a task *)

Section TaskRetries.
Import JS Task.

Lemma leb_of_nat (a b : nat) :
  leb (of_Z (Z.of_nat a)) (of_Z (Z.of_nat b)) = (a <=? b)%nat.
Proof.
  rewrite leb_of_Z. apply eq_true_iff_eq. rewrite Z.leb_le, Nat.leb_le. lia.
Qed.

Lemma gtb_of_nat (a b : nat) :
  gtb (of_Z (Z.of_nat a)) (of_Z (Z.of_nat b)) = negb (a <=? b)%nat.
Proof.
  unfold gtb. rewrite ltb_negb_leb by reflexivity. rewrite leb_of_nat. reflexivity.
Qed.

Lemma error_events_app (a b : list event) :
  error_events (a ++ b) = error_events a + error_events b.
Proof. unfold error_events. rewrite List.filter_app, length_app. reflexivity. Qed.

Lemma completed_events_app (a b : list event) :
  completed_events (a ++ b) = completed_events a + completed_events b.
Proof. unfold completed_events. rewrite List.filter_app, length_app. reflexivity. Qed.

Lemma retry_invariant_step (r : nat) (s : scheduled) (op : task_op) :
  retry_invariant r s -> retry_invariant r (schedule_step s op).
Proof.
  intros (Hr & Hstarts & Hrun & Hc & He & Hev).
  destruct op as [now | err now |]; unfold schedule_step.
  - destruct (sch_listed s); cbn [negb];
      [| unfold retry_invariant; auto 10].
    unfold Preprocessor.dispatchTask.
    destruct (canRemove (sch_task s)); [unfold retry_invariant; simpl; auto 10 |].
    destruct (canStart (sch_task s) now) eqn:Hcan;
      [| unfold retry_invariant; simpl; auto 10].
    unfold canStart, isWaiting in Hcan.
    destruct (state (sch_task s)) eqn:Hstate; try discriminate. cbn [negb] in Hcan.
    unfold errorCount in Hcan. rewrite Hr in Hcan. cbn [ToNumber] in Hcan.
    rewrite gtb_of_nat in Hcan.
    destruct (Nat.leb_spec (length (errors (sch_task s))) r) as [Hle | Hle];
      [| discriminate].
    assert (Hnot : sch_running s = false).
    { destruct (sch_running s); [| reflexivity].
      destruct (Hrun eq_refl) as (Hx & _). congruence. }
    assert (Hc0 : completed_events (sch_events s) = 0).
    { destruct Hc as [Hc | (_ & Hx & _)]; [exact Hc | congruence]. }
    rewrite Hnot in Hstarts.
    unfold retry_invariant. simpl. rewrite Hc0 in *.
    repeat split; auto; try lia.
    destruct (Nat.leb_spec (length (errors (sch_task s))) r); [exact Hev | lia].
  - destruct (sch_running s) eqn:Hrunning; [| unfold retry_invariant; rewrite Hrunning; auto 10].
    destruct (Hrun eq_refl) as (Hstate & Hle & Hc0).
    unfold _emitError, errorCount. cbn [errors retryCount]. rewrite Hr.
    cbn [ToNumber]. rewrite length_app. cbn [length]. rewrite leb_of_nat.
    destruct (Nat.leb_spec (length (errors (sch_task s)) + 1) r) as [Hle' | Hle'].
    + unfold retry_invariant. cbn [sch_task sch_running sch_starts sch_events
        with_state errors retryCount state].
      rewrite app_nil_r, length_app. cbn [length].
      destruct (Nat.leb_spec (length (errors (sch_task s)) + 1) r); [| lia].
      destruct (Nat.leb_spec (length (errors (sch_task s))) r); [| lia].
      repeat split; auto; try lia; try discriminate.
    + unfold retry_invariant. cbn [sch_task sch_running sch_starts sch_events
        errors retryCount state].
      rewrite length_app, error_events_app, completed_events_app. cbn [length].
      destruct (Nat.leb_spec (length (errors (sch_task s)) + 1) r); [lia |].
      destruct (Nat.leb_spec (length (errors (sch_task s))) r); [| lia].
      rewrite Hev, Hc0. unfold error_events, completed_events. simpl.
      repeat split; auto; try lia; try discriminate.
  - destruct (sch_running s) eqn:Hrunning; [| unfold retry_invariant; rewrite Hrunning; auto 10].
    destruct (Hrun eq_refl) as (Hstate & Hle & Hc0).
    unfold retry_invariant. cbn [_emitCompleted sch_task sch_running sch_starts
      sch_events with_state errors retryCount state].
    rewrite error_events_app, completed_events_app, Hc0, Hev.
    unfold error_events, completed_events. simpl.
    repeat split; auto; try lia; try discriminate.
Qed.

Lemma retry_invariant_schedule (r : nat) (ops : list task_op) :
  forall s, retry_invariant r s -> retry_invariant r (foldl schedule_step s ops).
Proof.
  induction ops as [| op ops IH]; intros s Hs; [exact Hs |].
  simpl. apply IH, retry_invariant_step, Hs.
Qed.

Lemma ltb_irrefl (d : Qc) : ltb (Fin d) (Fin d) = false.
Proof.
  rewrite ltb_negb_leb by reflexivity. unfold leb.
  assert (H : Qc_leb d d = true) by apply Qc_leb_le, Qcle_refl.
  rewrite H. reflexivity.
Qed.

(** One round on a task that may still be retried. *)
Lemma failing_round (r e : nat) (d : Qc) (err : string) (s : scheduled) :
  awaiting r e d s -> e <= r ->
  let s' := schedule_step (schedule_step s (Visit (Fin d))) (Fail err zero) in
  sch_starts s' = S (sch_starts s) /\
  length (errors (sch_task s')) = S e /\
  if (S e <=? r)%nat
  then awaiting r (S e) d s' /\ sch_events s' = sch_events s
  else sch_events s' = sch_events s ++ [Error err].
Proof.
  intros (Hstate & Hr & Hd & Htime & He & Hl & Hrun) Hle s'. subst s'.
  assert (Hcan : canStart (sch_task s) (Fin d) = true).
  { unfold canStart, isWaiting, errorCount. rewrite Hstate, Hr, Hd, He.
    cbn [negb ToNumber]. rewrite gtb_of_nat.
    destruct (Nat.leb_spec e r); [| lia]. cbn [negb].
    destruct Htime as [-> | ->]; cbn [ToNumber].
    - reflexivity.
    - rewrite add_zero_l, ltb_irrefl. reflexivity. }
  assert (Hrem : canRemove (sch_task s) = false).
  { unfold canRemove, isCompleted, errorCount. rewrite Hstate, Hr, He.
    cbn [ToNumber]. rewrite gtb_of_nat.
    destruct (Nat.leb_spec e r); [reflexivity | lia]. }
  assert (Hvisit : schedule_step s (Visit (Fin d)) =
            mkScheduled (start (sch_task s)) true true (S (sch_starts s)) (sch_events s)).
  { unfold schedule_step. rewrite Hl. cbn [negb].
    unfold Preprocessor.dispatchTask. rewrite Hrem, Hcan. reflexivity. }
  rewrite Hvisit.
  assert (Hfail : schedule_step
            (mkScheduled (start (sch_task s)) true true (S (sch_starts s)) (sch_events s))
            (Fail err zero) =
            if (S e <=? r)%nat
            then mkScheduled (mk WAITING (retryCount (sch_task s)) (retryDelay (sch_task s))
                                 (errors (sch_task s) ++ [err]) (Num zero))
                             true false (S (sch_starts s)) (sch_events s ++ [])
            else mkScheduled (mk EXECUTING (retryCount (sch_task s))
                                 (retryDelay (sch_task s))
                                 (errors (sch_task s) ++ [err]) (Num zero))
                             true false (S (sch_starts s)) (sch_events s ++ [Error err])).
  { unfold schedule_step. cbn [sch_running sch_task sch_listed sch_starts sch_events].
    unfold _emitError, errorCount, start.
    cbn [errors retryCount with_state state retryDelay errorTime].
    rewrite Hr. cbn [ToNumber]. rewrite length_app, He. cbn [length].
    replace (e + 1) with (S e) by lia. rewrite leb_of_nat.
    destruct (S e <=? r)%nat; reflexivity. }
  rewrite Hfail.
  destruct (Nat.leb_spec (S e) r) as [H | H];
    cbn [sch_running sch_task sch_listed sch_starts sch_events errors].
  - rewrite length_app, He, app_nil_r. cbn [length].
    split; [reflexivity |]. split; [lia |]. split; [| reflexivity].
    unfold awaiting. cbn [sch_running sch_task sch_listed state retryCount retryDelay
      errorTime errors]. rewrite length_app, He. cbn [length].
    repeat split; auto. lia.
  - rewrite length_app, He. cbn [length].
    split; [reflexivity |]. split; [lia | reflexivity].
Qed.

(** As many failing rounds as the retry count allows, and one more. *)
Lemma failing_rounds_exhaust (r : nat) (d : Qc) (err : string) :
  forall (k e : nat) (s : scheduled),
  awaiting r e d s -> e <= r -> e + k = r + 1 ->
  let s' := foldl schedule_step s (failing_rounds k d err) in
  sch_starts s' = sch_starts s + k /\
  length (errors (sch_task s')) = r + 1 /\
  sch_events s' = sch_events s ++ [Error err].
Proof.
  induction k as [| k IH]; intros e s Hs Hle Hk; [lia |].
  cbn [failing_rounds foldl].
  destruct (failing_round r e d err s Hs Hle) as (Hstarts & Herr & Hcase).
  set (s1 := schedule_step (schedule_step s (Visit (Fin d))) (Fail err zero)) in *.
  destruct (Nat.leb_spec (S e) r) as [H | H].
  - destruct Hcase as [Hs1 Hev].
    destruct (IH (S e) s1 Hs1) as (H1 & H2 & H3); [lia | lia |].
    cbn zeta in H1, H2, H3. rewrite H1, H2, H3, Hstarts, Hev.
    repeat split; lia.
  - assert (k = 0) by lia. subst k. cbn [failing_rounds foldl].
    rewrite Hstarts, Herr, Hcase. repeat split; lia.
Qed.

End TaskRetries.

(** X14. However the rounds of the scheduler and the failures and
    successes of its body follow one another, a task that starts in the
    waiting state with no error and a retry count [r] is started at most
    [r + 1] times; ["error"] is emitted at most once, and only when all the
    [r + 1] attempts have failed; ["completed"] is emitted at most once. *)
Theorem task_is_started_at_most_retryCount_plus_one (task : Task.t) (r : nat)
    (ops : list task_op) :
  Task.state task = Task.WAITING -> Task.errors task = [] ->
  Task.retryCount task = JS.Num (JS.of_Z (Z.of_nat r)) ->
  let s := schedule task ops in
  sch_starts s <= r + 1 /\
  error_events (sch_events s) <= 1 /\
  completed_events (sch_events s) <= 1 /\
  (error_events (sch_events s) = 1 ->
   sch_starts s = r + 1 /\ length (Task.errors (sch_task s)) = r + 1 /\
   completed_events (sch_events s) = 0).
Proof.
  intros Hstate Herrors Hr s.
  assert (H0 : retry_invariant r (mkScheduled task true false 0 [])).
  { unfold retry_invariant. simpl. rewrite Herrors. simpl.
    repeat split; auto; try lia; discriminate. }
  pose proof (retry_invariant_schedule r ops _ H0) as (_ & Hstarts & Hrun & Hc & He & Hev).
  fold (schedule task ops) in *. fold s in Hstarts, Hrun, Hc, He, Hev.
  destruct (Nat.leb_spec (length (Task.errors (sch_task s))) r) as [Hle | Hle].
  - rewrite Hev. destruct (sch_running s).
    + destruct (Hrun eq_refl) as (_ & _ & Hc0). rewrite Hc0 in *.
      repeat split; try lia.
    + destruct Hc as [Hc | (Hc & _)]; rewrite Hc in *; repeat split; try lia.
  - rewrite Hev. destruct (sch_running s).
    + destruct (Hrun eq_refl) as (_ & ? & _). lia.
    + destruct Hc as [Hc | (Hc & _ & ?)]; [| lia]. rewrite Hc in *.
      repeat split; try lia.
Qed.

Lemma task_is_started_at_most_retryCount_plus_one_witness :
  let task := Task.mk Task.WAITING (JS.Num (JS.of_Z 2)) (JS.Num (JS.of_Z 1000)) []
                      JS.Undefined in
  let ops := [Visit (JS.of_Z 0); Fail "refused" (JS.of_Z 10);
              Visit (JS.of_Z 1010); Fail "refused" (JS.of_Z 1020);
              Visit (JS.of_Z 2020); Fail "refused" (JS.of_Z 2030);
              Visit (JS.of_Z 3030); Visit (JS.of_Z 4040)] in
  sch_starts (schedule task ops) = 3 /\
  sch_starts (schedule task ops) <= 2 + 1 /\
  error_events (sch_events (schedule task ops)) <= 1.
Proof.
  intros task ops.
  split; [vm_compute; reflexivity |].
  pose proof (task_is_started_at_most_retryCount_plus_one task 2 ops
                eq_refl eq_refl eq_refl) as (H1 & H2 & _).
  split; [exact H1 | exact H2].
Defined.

(** X15. The bound on the attempts is reached: when the task is visited
    once its retry delay has elapsed and its body fails every time, it is
    started exactly [retryCount + 1] times, and the last failure, no
    earlier one, emits ["error"]. *)
Theorem failing_task_exhausts_retries (task : Task.t) (r : nat) (d : Qc)
    (err : string) :
  Task.state task = Task.WAITING -> Task.errors task = [] ->
  Task.errorTime task = JS.Undefined ->
  Task.retryCount task = JS.Num (JS.of_Z (Z.of_nat r)) ->
  Task.retryDelay task = JS.Num (JS.Fin d) ->
  let s := schedule task (failing_rounds (r + 1) d err) in
  sch_starts s = r + 1 /\
  length (Task.errors (sch_task s)) = r + 1 /\
  sch_events s = [Task.Error err].
Proof.
  intros Hstate Herrors Htime Hr Hd s. subst s. unfold schedule.
  apply (failing_rounds_exhaust r d err (r + 1) 0
           (mkScheduled task true false 0 [])); [| lia | lia].
  unfold awaiting. simpl. rewrite Herrors. auto 10.
Qed.

Lemma failing_task_exhausts_retries_witness :
  let task := Task.mk Task.WAITING (JS.Num (JS.of_Z 2)) (JS.Num (JS.of_Z 1000)) []
                      JS.Undefined in
  let s := schedule task (failing_rounds 3 (Q2Qc (inject_Z 1000)) "refused") in
  sch_starts s = 3 /\ length (Task.errors (sch_task s)) = 3 /\
  sch_events s = [Task.Error "refused"].
Proof.
  intros task.
  exact (failing_task_exhausts_retries task 2 (Q2Qc (inject_Z 1000)) "refused"
           eq_refl eq_refl eq_refl eq_refl eq_refl).
Defined.

(** X16. A [DownloadTask] takes its retry count from [retryFetchs || 2]
    and not from [retryCount]: with [retryFetchs] absent or zero the count
    is 2 whatever [retryCount] says, so that a download that always fails
    is attempted three times. *)
Theorem download_retries_cannot_be_disabled (o : DownloadTask.Options)
    (t : DownloadTask.t) (err : string) :
  DownloadTask.constructor o = Ok t ->
  DownloadTask.o_retryFetchs o = JS.Undefined \/
  DownloadTask.o_retryFetchs o = JS.Num JS.zero ->
  Task.retryCount (DownloadTask.base t) = JS.Num (JS.of_Z 2) /\
  exists d,
    Task.retryDelay (DownloadTask.base t) = JS.Num (JS.Fin d) /\
    sch_starts (schedule (DownloadTask.base t) (failing_rounds 3 d err)) = 3.
Proof.
  intros Hc Hfetch. unfold DownloadTask.constructor, Task.constructor in Hc.
  destruct (Task.undefined_or_finite (Task.o_retryCount (DownloadTask.o_base o)));
    cbn [assert bind] in Hc; [| discriminate].
  destruct (Task.undefined_or_finite (Task.o_retryDelay (DownloadTask.o_base o)))
    eqn:Hdelay; cbn [assert bind] in Hc; [| discriminate].
  destruct (DownloadTask.isURL (DownloadTask.o_url o)); cbn [assert bind] in Hc;
    [| discriminate].
  destruct (Task.undefined_or_finite (DownloadTask.o_retryFetchs o));
    cbn [assert bind] in Hc; [| discriminate].
  injection Hc as <-. cbn [DownloadTask.base].
  assert (Hcount : JS.or_else (DownloadTask.o_retryFetchs o) (JS.Num (JS.of_Z 2)) =
                   JS.Num (JS.of_Z 2)).
  { destruct Hfetch as [-> | ->]; reflexivity. }
  rewrite Hcount. split; [reflexivity |].
  assert (Hd : exists d, Lodash.defaultTo (Task.o_retryDelay (DownloadTask.o_base o))
                           (JS.Num (JS.of_Z 1000)) = JS.Num (JS.Fin d)).
  { destruct (Task.o_retryDelay (DownloadTask.o_base o)) as [| | [q | | |]];
      try discriminate; eexists; reflexivity. }
  destruct Hd as [d Hd]. exists d. cbn [Task.with_retryCount Task.retryDelay].
  split; [exact Hd |].
  refine (proj1 (failing_rounds_exhaust 2 d err 3 0 (mkScheduled _ true false 0 [])
                   _ _ _)); [| lia | reflexivity].
  unfold awaiting. simpl. rewrite Hd. auto 10.
Qed.

Lemma download_retries_cannot_be_disabled_witness :
  let o := DownloadTask.mkOptions (Task.mkOptions (JS.Num JS.zero) JS.Undefined)
             (Some "http://localhost/video.mp4"%string) (JS.Num JS.zero) in
  exists t,
    DownloadTask.constructor o = Ok t /\
    Task.retryCount (DownloadTask.base t) = JS.Num (JS.of_Z 2).
Proof.
  intros o. eexists. split; [reflexivity |].
  refine (proj1 (download_retries_cannot_be_disabled o _ "refused" eq_refl _)).
  right. reflexivity.
Defined.

(** ** Time marks *)

Section TimeMarks.
Import UtilText.

Lemma Qtrunc_of_Z (t : Z) : JS.Qtrunc (Q2Qc (inject_Z t)) = t.
Proof.
  unfold JS.Qtrunc. cbn [this Q2Qc].
  assert (E : Qred (inject_Z t) = inject_Z t).
  { apply Qred_identity. simpl. apply Z.gcd_1_r. }
  rewrite E. destruct (Qle_bool 0 (inject_Z t)); [apply Qfloor_Z | apply Qceiling_Z].
Qed.

Lemma hmss_fields (t : Z) :
  (0 <= t)%Z ->
  let sec := (t / 1000)%Z in
  let hours := (sec / 3600)%Z in
  let minutes := ((sec - hours * 3600) / 60)%Z in
  let seconds := (sec - hours * 3600 - minutes * 60)%Z in
  let ms := (Z.rem t 60000 - seconds * 1000)%Z in
  hours = (t / 3600000)%Z /\ minutes = (t / 60000 mod 60)%Z /\
  seconds = (t / 1000 mod 60)%Z /\ ms = (t mod 1000)%Z.
Proof.
  intros Ht sec hours minutes seconds ms. subst ms seconds minutes hours sec.
  rewrite Z.rem_mod_nonneg by lia.
  repeat split; Z.div_mod_to_equations; lia.
Qed.

End TimeMarks.

(** X17. For a time of [t >= 0] milliseconds, [millisecondsToHmss] prints
    the hours, the minutes and the seconds, each with a leading zero when
    it is not above 9, and after the dot the milliseconds [t mod 1000] as a
    plain number, without leading zeros: the four fields add up to [t], but
    the text after the dot is not a decimal fraction of the second. *)
Theorem millisecondsToHmss_fields (t : Z) :
  (0 <= t)%Z ->
  let hours := (t / 3600000)%Z in
  let minutes := (t / 60000 mod 60)%Z in
  let seconds := (t / 1000 mod 60)%Z in
  let ms := (t mod 1000)%Z in
  UtilText.millisecondsToHmss (inr (JS.of_Z t)) =
    (UtilText.pad (Some hours) ++ ":" ++ UtilText.pad (Some minutes) ++ ":" ++
     UtilText.pad (Some seconds) ++ "." ++ UtilText.showInt (Some ms))%string /\
  (hours * 3600000 + minutes * 60000 + seconds * 1000 + ms = t)%Z /\
  (0 <= minutes < 60)%Z /\ (0 <= seconds < 60)%Z /\ (0 <= ms < 1000)%Z.
Proof.
  intros Ht hours minutes seconds ms.
  destruct (hmss_fields t Ht) as (H1 & H2 & H3 & H4). cbn zeta in H1, H2, H3, H4.
  split.
  - unfold UtilText.millisecondsToHmss, JS.of_Z, UtilText.parseInt.
    rewrite Qtrunc_of_Z. cbn [UtilText.lift]. rewrite H4, H3, H2, H1. reflexivity.
  - subst hours minutes seconds ms. repeat split; Z.div_mod_to_equations; lia.
Qed.

Lemma millisecondsToHmss_fields_witness :
  (0 <= 3661005)%Z /\
  UtilText.millisecondsToHmss (inr (JS.of_Z 3661005)) = "01:01:01.5"%string.
Proof.
  assert (H : (0 <= 3661005)%Z) by lia.
  split; [exact H |].
  rewrite (proj1 (millisecondsToHmss_fields 3661005 H)). vm_compute. reflexivity.
Defined.

(** ** Colours *)

Section Colours.
Import UtilText.

Lemma toInt32_small (z : Z) : (- 2 ^ 31 <= z < 2 ^ 31)%Z -> toInt32 z = z.
Proof. intros H. unfold toInt32. rewrite Z.mod_small; lia. Qed.

Lemma hexDigit_facts (d : Z) :
  (0 <= d < 16)%Z ->
  let b := byte_of_ascii (hexDigit d) in
  Payload.digit 16 b = Some (Z.to_nat d) /\ Payload.is_space b = false /\
  Byte.eqb b "-" = false /\ Byte.eqb b "+" = false /\
  Byte.eqb b "x" = false /\ Byte.eqb b "X" = false /\
  stripHash (String (hexDigit d) EmptyString) = String (hexDigit d) EmptyString.
Proof.
  intros H.
  assert (C : (d = 0 \/ d = 1 \/ d = 2 \/ d = 3 \/ d = 4 \/ d = 5 \/ d = 6 \/ d = 7 \/
               d = 8 \/ d = 9 \/ d = 10 \/ d = 11 \/ d = 12 \/ d = 13 \/ d = 14 \/
               d = 15)%Z) by lia.
  repeat (destruct C as [-> | C]); try subst d; vm_compute; auto 10.
Qed.

Lemma stripHash_digit (d : Z) (rest : string) :
  (0 <= d < 16)%Z -> stripHash (String (hexDigit d) rest) = String (hexDigit d) rest.
Proof.
  intros H. destruct (hexDigit_facts d H) as (_ & _ & _ & _ & _ & _ & E).
  unfold stripHash in *. destruct (hexDigit d) as [[] [] [] [] [] [] [] []];
    try reflexivity; discriminate E.
Qed.

Lemma hexDigits_more (fuel : nat) (x h : Z) (acc : string) :
  (0 < x)%Z -> (0 <= h < 16)%Z ->
  hexDigits (S fuel) (x * 16 + h) acc = hexDigits fuel x (String (hexDigit h) acc).
Proof.
  intros Hx Hh. cbn [hexDigits].
  assert (E1 : ((x * 16 + h) mod 16 = h)%Z) by (Z.div_mod_to_equations; lia).
  assert (E2 : ((x * 16 + h) / 16 = x)%Z) by (Z.div_mod_to_equations; lia).
  rewrite E1, E2. destruct (Z.eqb_spec x 0); [lia | reflexivity].
Qed.

Lemma hexDigits_last (fuel : nat) (h : Z) (acc : string) :
  (0 <= h < 16)%Z -> hexDigits (S fuel) h acc = String (hexDigit h) acc.
Proof.
  intros Hh. cbn [hexDigits].
  rewrite Z.mod_small, Z.div_small by lia. reflexivity.
Qed.

(** The text of a colour: six digits. *)
Lemma rgbToHex_digits (r1 r0 g1 g0 b1 b0 : Z) :
  (0 <= r1 < 16)%Z -> (0 <= r0 < 16)%Z -> (0 <= g1 < 16)%Z -> (0 <= g0 < 16)%Z ->
  (0 <= b1 < 16)%Z -> (0 <= b0 < 16)%Z ->
  rgbToHex (r1 * 16 + r0) (g1 * 16 + g0) (b1 * 16 + b0) =
  String (hexDigit r1) (String (hexDigit r0) (String (hexDigit g1)
    (String (hexDigit g0) (String (hexDigit b1) (String (hexDigit b0) EmptyString))))).
Proof.
  intros Hr1 Hr0 Hg1 Hg0 Hb1 Hb0. unfold rgbToHex, shl.
  rewrite (toInt32_small (r1 * 16 + r0)), (toInt32_small (g1 * 16 + g0)) by lia.
  change (toInt32 (Z.shiftl (toInt32 1) 24)) with (2 ^ 24)%Z.
  rewrite !Z.shiftl_mul_pow2 by lia.
  rewrite !toInt32_small by lia.
  set (n := (2 ^ 24 + (r1 * 16 + r0) * 2 ^ 16 + (g1 * 16 + g0) * 2 ^ 8 + (b1 * 16 + b0))%Z).
  assert (Hn : (2 ^ 24 <= n < 2 ^ 25)%Z) by (subst n; lia).
  unfold toString16.
  destruct (Z.eqb_spec n 0); [lia |]. destruct (Z.ltb_spec n 0); [lia |].
  rewrite (Z.log2_unique n 24) by lia.
  change (S (Z.to_nat 24)) with 25.
  replace n with ((((((1 * 16 + r1) * 16 + r0) * 16 + g1) * 16 + g0) * 16 + b1) * 16 + b0)%Z
    by (subst n; lia).
  rewrite !hexDigits_more by lia.
  rewrite hexDigits_last by lia. reflexivity.
Qed.

Lemma parseInt16_digits (r1 r0 g1 g0 b1 b0 : Z) :
  (0 <= r1 < 16)%Z -> (0 <= r0 < 16)%Z -> (0 <= g1 < 16)%Z -> (0 <= g0 < 16)%Z ->
  (0 <= b1 < 16)%Z -> (0 <= b0 < 16)%Z ->
  parseInt16
    (String (hexDigit r1) (String (hexDigit r0) (String (hexDigit g1)
      (String (hexDigit g0) (String (hexDigit b1) (String (hexDigit b0) EmptyString))))))
  = Some ((r1 * 16 + r0) * 65536 + (g1 * 16 + g0) * 256 + (b1 * 16 + b0))%Z.
Proof.
  intros Hr1 Hr0 Hg1 Hg0 Hb1 Hb0.
  destruct (hexDigit_facts r1 Hr1) as (D1 & S1 & M1 & P1 & _).
  destruct (hexDigit_facts r0 Hr0) as (D2 & _ & _ & _ & X2 & X2' & _).
  destruct (hexDigit_facts g1 Hg1) as (D3 & _).
  destruct (hexDigit_facts g0 Hg0) as (D4 & _).
  destruct (hexDigit_facts b1 Hb1) as (D5 & _).
  destruct (hexDigit_facts b0 Hb0) as (D6 & _).
  cbn zeta in *.
  unfold parseInt16, list_byte_of_string.
  cbn [list_ascii_of_string List.map Payload.skip_spaces].
  rewrite S1, M1, P1, X2, X2', andb_false_r.
  cbn [Payload.digits]. rewrite D1, D2, D3, D4, D5, D6. cbn [default].
  f_equal. unfold id. lia.
Qed.

End Colours.

(** X18. A colour whose three components are bytes survives [rgbToHex]
    followed by [hexToRgb], with or without a leading [#]; its text has six
    characters. *)
Theorem rgb_hex_roundtrip (r g b : Z) :
  (0 <= r <= 255)%Z -> (0 <= g <= 255)%Z -> (0 <= b <= 255)%Z ->
  UtilText.hexToRgb (UtilText.rgbToHex r g b) = [r; g; b] /\
  UtilText.hexToRgb (String "#" (UtilText.rgbToHex r g b)) = [r; g; b] /\
  String.length (UtilText.rgbToHex r g b) = 6.
Proof.
  intros Hr Hg Hb.
  rewrite (Z.div_mod r 16), (Z.div_mod g 16), (Z.div_mod b 16) by lia.
  set (r1 := (r / 16)%Z). set (r0 := (r mod 16)%Z).
  set (g1 := (g / 16)%Z). set (g0 := (g mod 16)%Z).
  set (b1 := (b / 16)%Z). set (b0 := (b mod 16)%Z).
  assert (Hr1 : (0 <= r1 < 16)%Z) by (subst r1; Z.div_mod_to_equations; lia).
  assert (Hr0 : (0 <= r0 < 16)%Z) by (subst r0; Z.div_mod_to_equations; lia).
  assert (Hg1 : (0 <= g1 < 16)%Z) by (subst g1; Z.div_mod_to_equations; lia).
  assert (Hg0 : (0 <= g0 < 16)%Z) by (subst g0; Z.div_mod_to_equations; lia).
  assert (Hb1 : (0 <= b1 < 16)%Z) by (subst b1; Z.div_mod_to_equations; lia).
  assert (Hb0 : (0 <= b0 < 16)%Z) by (subst b0; Z.div_mod_to_equations; lia).
  clearbody r1 r0 g1 g0 b1 b0.
  replace (16 * r1 + r0)%Z with (r1 * 16 + r0)%Z by lia.
  replace (16 * g1 + g0)%Z with (g1 * 16 + g0)%Z by lia.
  replace (16 * b1 + b0)%Z with (b1 * 16 + b0)%Z by lia.
  rewrite rgbToHex_digits by assumption.
  assert (Hvalue :
    forall v, v = ((r1 * 16 + r0) * 65536 + (g1 * 16 + g0) * 256 + (b1 * 16 + b0))%Z ->
    [UtilText.band (UtilText.sar v 16) 255; UtilText.band (UtilText.sar v 8) 255;
     UtilText.band v 255] = [r1 * 16 + r0; g1 * 16 + g0; b1 * 16 + b0]%Z).
  { intros v Hv.
    assert (Hrange : (0 <= v < 2 ^ 24)%Z) by (subst v; lia).
    unfold UtilText.band, UtilText.sar.
    rewrite (toInt32_small 255), (toInt32_small v) by lia.
    rewrite !Z.shiftr_div_pow2 by lia.
    change (2 ^ 16)%Z with 65536%Z. change (2 ^ 8)%Z with 256%Z.
    rewrite (toInt32_small (v / 65536)), (toInt32_small (v / 256))
      by (Z.div_mod_to_equations; lia).
    change 255%Z with (Z.ones 8). rewrite !Z.land_ones by lia.
    change (2 ^ 8)%Z with 256%Z.
    subst v. repeat f_equal; Z.div_mod_to_equations; lia. }
  split; [| split; [| reflexivity]].
  - unfold UtilText.hexToRgb. rewrite stripHash_digit by assumption.
    rewrite parseInt16_digits by assumption. apply Hvalue. reflexivity.
  - unfold UtilText.hexToRgb. cbn [UtilText.stripHash].
    rewrite parseInt16_digits by assumption. apply Hvalue. reflexivity.
Qed.

Lemma rgb_hex_roundtrip_witness :
  (0 <= 255 <= 255)%Z /\ (0 <= 128 <= 255)%Z /\ (0 <= 0 <= 255)%Z /\
  UtilText.rgbToHex 255 128 0 = "ff8000"%string /\
  UtilText.hexToRgb (UtilText.rgbToHex 255 128 0) = [255; 128; 0]%Z.
Proof.
  assert (H1 : (0 <= 255 <= 255)%Z) by lia.
  assert (H2 : (0 <= 128 <= 255)%Z) by lia.
  assert (H3 : (0 <= 0 <= 255)%Z) by lia.
  repeat (split; [assumption |]).
  split; [vm_compute; reflexivity |].
  exact (proj1 (rgb_hex_roundtrip 255 128 0 H1 H2 H3)).
Defined.

(** ** What a synthesizer is made of *)

Section SynthesizerShape.
Import JS.

Lemma held_all (P : VideoChunk.t -> Prop) (h : list VideoChunk.t) (rs : list nat) :
  (forall r, r ∈ rs -> exists c, h !! r = Some c /\ P c) ->
  length (omap (fun r => h !! r) rs) = length rs /\
  Forall P (omap (fun r => h !! r) rs).
Proof.
  induction rs as [| r rs IH]; intros H; [split; [reflexivity | constructor] |].
  destruct (H r) as (c & Hc & HP); [left |].
  destruct IH as [IH1 IH2]; [intros r' Hr'; apply H; right; exact Hr' |].
  cbn. rewrite Hc. cbn. split; [congruence | constructor; assumption].
Qed.

End SynthesizerShape.

(** X19. The chunks that a ChunkSynthesizer accepts all have its width,
    its height and its frame rate, which the inputs leave as the
    constructor set them. *)
Theorem chunks_share_geometry (l : list (VideoChunk.arg * option Transition.arg))
    (h0 h : list VideoChunk.t) (s0 s : ChunkSynthesizer.t) :
  ChunkSynthesizer.chunks s0 = [] ->
  ChunkSynthesizer.inputs h0 s0 l = Ok (h, s) ->
  geometry (ChunkSynthesizer.base s) = geometry (ChunkSynthesizer.base s0) /\
  length (held h s) = length l /\
  Forall (fun chunk => geometry (VideoChunk.base chunk) =
                       geometry (ChunkSynthesizer.base s0))
         (held h s).
Proof.
  intros Hempty.
  set (good := fun (h : list VideoChunk.t) (r : nat) =>
                 exists c, h !! r = Some c /\
                           geometry (VideoChunk.base c) =
                           geometry (ChunkSynthesizer.base s0)).
  assert (Hgen : forall l h1 s1 h s,
            ChunkSynthesizer.inputs h1 s1 l = Ok (h, s) ->
            geometry (ChunkSynthesizer.base s1) = geometry (ChunkSynthesizer.base s0) ->
            (forall r, r ∈ ChunkSynthesizer.chunks s1 -> good h1 r) ->
            geometry (ChunkSynthesizer.base s) = geometry (ChunkSynthesizer.base s0) /\
            length (ChunkSynthesizer.chunks s) =
              length (ChunkSynthesizer.chunks s1) + length l /\
            (forall r, r ∈ ChunkSynthesizer.chunks s -> good h r)).
  { clear. induction l as [| [a tr] l IH]; intros h1 s1 h s H Hg Hall.
    - injection H as <- <-. split; [exact Hg |]. split; [simpl; lia | exact Hall].
    - cbn [ChunkSynthesizer.inputs] in H.
      destruct (ChunkSynthesizer.input h1 s1 a tr) as [[h2 s2] |] eqn:E;
        cbn [bind fst snd] in H; [| discriminate].
      destruct (input_spec _ _ _ _ _ _ E)
        as (r & chunk & Hchunks & Hr & Hframe & _ & Hg2 & Hc).
      destruct (IH h2 s2 h s H) as (R1 & R2 & R3).
      + rewrite Hg2. exact Hg.
      + intros r' Hr'. rewrite Hchunks in Hr'.
        destruct (decide (r' = r)) as [-> | Hne].
        * exists chunk. split; [exact Hr | rewrite Hc; exact Hg].
        * apply elem_of_app in Hr' as [Hr' | Hr'].
          -- destruct (Hall r' Hr') as (c & Hc' & Hgc).
             exists c. split; [rewrite (Hframe r' Hne); exact Hc' | exact Hgc].
          -- apply list_elem_of_singleton in Hr'. contradiction.
      + split; [exact R1 |]. split; [| exact R3].
        rewrite R2, Hchunks, length_app. simpl. lia. }
  intros H. destruct (Hgen l h0 s0 h s H eq_refl) as (R1 & R2 & R3).
  - rewrite Hempty. intros r Hr. apply elem_of_nil in Hr. contradiction.
  - rewrite Hempty in R2. simpl in R2.
    destruct (held_all _ h (ChunkSynthesizer.chunks s) R3) as [L F].
    unfold held. split; [exact R1 |]. split; [congruence | exact F].
Qed.

Lemma chunks_share_geometry_witness :
  let o := Synthesizer.mkOptions (JS.Num (JS.of_Z 1280)) (JS.Num (JS.of_Z 720))
             (JS.Num (JS.of_Z 30)) JS.Undefined None (Some "out.mp4"%string)
             JS.Undefined JS.Undefined JS.Undefined JS.Undefined JS.Undefined None in
  let plain :=
    VideoChunk.Plain
      (VideoChunk.mkOptions
         (Synthesizer.mkOptions JS.Undefined JS.Undefined JS.Undefined
            (JS.Num (JS.of_Z 5000)) None None JS.Undefined JS.Undefined JS.Undefined
            JS.Undefined JS.Undefined None) None) in
  let l := [(plain, Some (Transition.Id "revealdown")); (VideoChunk.Instance 0, None)] in
  exists s0 h s,
    ChunkSynthesizer.constructor [] o [] = Ok ([], s0) /\
    ChunkSynthesizer.inputs [] s0 l = Ok (h, s) /\
    length (held h s) = 2 /\
    Forall (fun chunk => geometry (VideoChunk.base chunk) =
                         geometry (ChunkSynthesizer.base s0))
           (held h s).
Proof.
  intros o plain l.
  destruct (ChunkSynthesizer.constructor [] o []) as [[h0 s0] |] eqn:E0;
    [| vm_compute in E0; discriminate E0].
  assert (Eh : h0 = []) by (vm_compute in E0; injection E0 as <- _; reflexivity).
  subst h0.
  destruct (ChunkSynthesizer.inputs [] s0 l) as [[h s] |] eqn:E1.
  2: { vm_compute in E0. injection E0 as <-. vm_compute in E1. discriminate E1. }
  exists s0, h, s. split; [reflexivity |]. split; [exact E1 |].
  assert (Hempty : ChunkSynthesizer.chunks s0 = []).
  { vm_compute in E0. injection E0 as <-. reflexivity. }
  destruct (chunks_share_geometry _ [] h s0 s Hempty E1) as (_ & H2 & H3).
  split; [exact H2 | exact H3].
Defined.

(** X20. The format of a synthesizer that is not a chunk is always [mp4]
    or [webm]: the [format] option when it is given, whatever the extension
    of the output path; otherwise the extension of the output path; [mp4]
    when there is neither. *)
Theorem synthesizer_format (o : Synthesizer.Options) (s : Synthesizer.t) :
  Synthesizer.constructor false o = Ok s ->
  Transition.includes (Synthesizer.format s) Synthesizer.SUPPORT_FORMAT = true /\
  match Synthesizer.o_format o with
  | Some (String c f) => Synthesizer.format s = String c f
  | _ =>
      if Synthesizer.nonempty (Synthesizer.o_outputPath o)
      then Synthesizer.format s =
             Synthesizer.substring1
               (Synthesizer.extname (default EmptyString (Synthesizer.o_outputPath o)))
      else Synthesizer.format s = "mp4"%string
  end.
Proof.
  unfold Synthesizer.constructor. intros H.
  repeat match type of H with
         | bind (assert ?c _) _ = Ok _ =>
             destruct c eqn:?; cbn [assert bind] in H; [| discriminate H]
         end.
  destruct (Synthesizer.chooseFormat _ _ _) as [format |] eqn:Hformat;
    cbn [bind] in H; [| discriminate].
  destruct (Util.durationToFrameCount _ _); cbn [bind] in H; [| discriminate].
  injection H as <-. cbn [Synthesizer.format].
  unfold Synthesizer.chooseFormat in Hformat.
  destruct (Synthesizer.o_format o) as [[| c f] |] eqn:Hf.
  - discriminate.
  - cbn [Synthesizer.nonempty negb andb] in Hformat. injection Hformat as <-.
    split; [assumption | reflexivity].
  - cbn [Synthesizer.nonempty negb andb] in Hformat.
    destruct (Synthesizer.nonempty (Synthesizer.o_outputPath o)); cbn [andb] in Hformat.
    + destruct (String.eqb _ _); [discriminate |].
      destruct (Transition.includes _ _) eqn:Hin; cbn [negb] in Hformat; [| discriminate].
      injection Hformat as <-. split; [exact Hin | reflexivity].
    + injection Hformat as <-. split; reflexivity.
Qed.

Lemma synthesizer_format_witness :
  let o := Synthesizer.mkOptions (JS.Num (JS.of_Z 1280)) (JS.Num (JS.of_Z 720))
             JS.Undefined (JS.Num (JS.of_Z 5000)) (Some "webm"%string)
             (Some "/tmp/out.mp4"%string)
             JS.Undefined JS.Undefined JS.Undefined JS.Undefined JS.Undefined None in
  exists s, Synthesizer.constructor false o = Ok s /\
            Synthesizer.format s = "webm"%string.
Proof.
  intros o. eexists. split; [reflexivity |].
  refine (proj2 (synthesizer_format o _ eq_refl)).
Defined.

(** ** The queue of the preprocessor *)

Section PreprocessorQueue.
Import Preprocessor.

Lemma geb_of_nat (a b : nat) :
  JS.geb (JS.of_Z (Z.of_nat a)) (JS.of_Z (Z.of_nat b)) = (b <=? a)%nat.
Proof. unfold JS.geb. apply leb_of_nat. Qed.

Lemma dispatchLoop_spec {A : Type} (limit : nat) :
  forall (queue tasks : list A),
  length tasks <= limit ->
  dispatchLoop (JS.of_Z (Z.of_nat limit)) queue tasks =
    (drop (S (limit - length tasks)) queue,
     tasks ++ take (limit - length tasks) queue).
Proof.
  induction queue as [| task rest IH]; intros tasks Hle.
  - simpl. rewrite take_nil, app_nil_r. reflexivity.
  - cbn [dispatchLoop]. rewrite geb_of_nat.
    destruct (Nat.leb_spec limit (length tasks)) as [H | H].
    + replace (limit - length tasks) with 0 by lia.
      rewrite take_0, app_nil_r. reflexivity.
    + rewrite IH by (rewrite length_app; simpl; lia).
      rewrite length_app. cbn [length].
      replace (limit - length tasks) with (S (limit - (length tasks + 1))) by lia.
      cbn [take drop]. rewrite <- app_assoc. reflexivity.
Qed.

End PreprocessorQueue.

(** X21. The queue dispatcher takes the head of the queue before it looks
    whether a slot is free.  So a run of the dispatcher gives the free
    slots to the first tasks of the queue, and when the queue holds more
    tasks than there are free slots the next one is taken out of the queue
    and put nowhere; in particular a task that is added while all the slots
    are taken, with the dispatcher parked on an empty queue, disappears. *)
Theorem dispatcher_loses_the_task_it_holds {A : Type} (p : Preprocessor.queues A)
    (limit : nat) (task : A) :
  Preprocessor.parallelDownloads p = JS.of_Z (Z.of_nat limit) ->
  length (Preprocessor.downloadTasks p) <= limit ->
  let free := limit - length (Preprocessor.downloadTasks p) in
  Preprocessor.dispatchDownloadQueue p =
    Preprocessor.mkQueues
      (drop (S free) (Preprocessor.downloadQueue p))
      (Preprocessor.downloadTasks p ++ take free (Preprocessor.downloadQueue p))
      (Preprocessor.parallelDownloads p) true /\
  (Preprocessor.downloadQueue p = [] -> free = 0 ->
   Preprocessor.parked p = true ->
   snd (Preprocessor.addDownloadTask p task) = true /\
   Preprocessor.dispatchDownloadQueue (fst (Preprocessor.addDownloadTask p task)) = p).
Proof.
  intros Hlimit Hle free. split.
  - unfold Preprocessor.dispatchDownloadQueue.
    rewrite Hlimit, dispatchLoop_spec by exact Hle. reflexivity.
  - intros Hq Hfree Hparked. unfold Preprocessor.addDownloadTask. cbn [fst snd].
    split; [exact Hparked |].
    unfold Preprocessor.dispatchDownloadQueue.
    cbn [Preprocessor.parallelDownloads Preprocessor.downloadQueue
         Preprocessor.downloadTasks].
    rewrite Hlimit, dispatchLoop_spec by exact Hle. fold free. rewrite Hfree, Hq.
    cbn [app take drop]. rewrite app_nil_r, <- Hlimit, <- Hq, <- Hparked.
    destruct p. reflexivity.
Qed.

Lemma dispatcher_loses_the_task_it_holds_witness :
  let p := Preprocessor.mkQueues [] ["a"; "b"]%string (JS.of_Z 2) true in
  length (Preprocessor.downloadTasks p) <= 2 /\
  Preprocessor.dispatchDownloadQueue
    (fst (Preprocessor.addDownloadTask p "c"%string)) = p.
Proof.
  intros p.
  assert (H : length (Preprocessor.downloadTasks p) <= 2) by (simpl; lia).
  split; [exact H |].
  exact (proj2 (proj2 (dispatcher_loses_the_task_it_holds p 2 "c"%string eq_refl H)
                  eq_refl eq_refl eq_refl)).
Defined.

(** ** The duration that a synthesizer reports *)

Section OutputDuration.
Import JS.


End OutputDuration.



(** ** How a capture gets started *)



(** ** Payloads whose buffers are not the ones that were packed *)

Section CarvedPayload.
Import JSON Payload.

Lemma slice_tail (P tail : list byte) (off len : nat) :
  slice (P ++ tail)
        (Z.of_nat (length P) + Z.of_nat off)
        (Z.of_nat (length P) + Z.of_nat (off + len)) = take len (drop off tail).
Proof.
  unfold slice, clamp. rewrite !length_app.
  destruct (Z.ltb_spec (Z.of_nat (length P) + Z.of_nat off) 0); [lia |].
  destruct (Z.ltb_spec (Z.of_nat (length P) + Z.of_nat (off + len)) 0); [lia |].
  replace (Z.to_nat (Z.of_nat (length P) + Z.of_nat off))
    with (length P + off) by lia.
  replace (Z.to_nat (Z.of_nat (length P) + Z.of_nat (off + len)))
    with (length P + (off + len)) by lia.
  destruct (Nat.le_gt_cases off (length tail)) as [Hle | Hgt].
  - rewrite (Nat.min_l (length P + off)) by lia.
    rewrite drop_app_add'  by reflexivity.
    destruct (Nat.le_gt_cases (off + len) (length tail)) as [Hin | Hout].
    + rewrite Nat.min_l by lia. f_equal. lia.
    + rewrite Nat.min_r by lia.
      rewrite !take_ge by (rewrite length_drop; lia). reflexivity.
  - rewrite !Nat.min_r by lia.
    rewrite Nat.sub_diag, (drop_ge tail) by lia.
    rewrite take_nil. reflexivity.
Qed.

Lemma unpackFields_carved (P tail : list byte) (data : descriptor) :
  forall off : nat,
  Forall (fun kv => untagged_field (snd kv)) data ->
  unpackFields (P ++ tail) (length P) (fst (packLoop data off))
    = Some (carved data off tail).
Proof.
  induction data as [| [key f] data IH]; intros off Hun; [reflexivity |].
  apply Forall_cons in Hun as [Hf Hun]. simpl in Hf.
  destruct f as [bytes | v |]; simpl.
  - specialize (IH (off + length bytes) Hun).
    destruct (packLoop data (off + length bytes)) as [obj buffers]. simpl in *.
    rewrite slice_tail, IH. reflexivity.
  - specialize (IH off Hun).
    destruct (packLoop data off) as [obj buffers]. simpl in *.
    rewrite unpackField_untagged, IH by assumption. reflexivity.
  - apply IH; assumption.
Qed.

Lemma carved_nil (data : descriptor) : forall off,
  Forall (fun kv => match snd kv with
                    | UBytes bytes => bytes = []
                    | UValue _ => True
                    end) (carved data off []).
Proof.
  induction data as [| [key f] data IH]; intros off; [constructor |].
  destruct f as [bytes | v |]; simpl; [constructor | constructor | apply IH].
  - simpl. rewrite drop_nil, take_nil. reflexivity.
  - apply IH.
  - exact I.
  - apply IH.
Qed.

Lemma carved_packed (data : descriptor) : forall off (pre : list byte),
  length pre = off ->
  carved data off (pre ++ concat (snd (packLoop data off))) = expected data.
Proof.
  induction data as [| [key f] data IH]; intros off pre Hpre; [reflexivity |].
  destruct f as [bytes | v |]; simpl.
  - specialize (IH (off + length bytes) (pre ++ bytes)).
    destruct (packLoop data (off + length bytes)) as [obj buffers]. simpl in *.
    rewrite <- Hpre, drop_app_length, take_app_length.
    rewrite app_assoc, Hpre, IH by (rewrite length_app; lia). reflexivity.
  - specialize (IH off pre Hpre).
    destruct (packLoop data off) as [obj buffers]. simpl in *.
    rewrite IH. reflexivity.
  - apply IH; assumption.
Qed.

End CarvedPayload.

(** X24. [_unpackData] trusts the header.  Whatever bytes follow the
    preamble that [#packData] writes for a descriptor, unpacking succeeds
    and gives every buffer the bytes found at its offsets, as many as are
    there: after the buffers that were packed these are the original
    bytes, and after nothing every buffer comes back empty. *)
Theorem unpackData_trusts_header (data : Payload.descriptor) (tail : list byte) :
  serializable data ->
  Forall (fun kv => untagged_field (snd kv)) data ->
  Payload.packData data = preamble data ++ concat (snd (Payload.packLoop data 0)) /\
  carved data 0 (concat (snd (Payload.packLoop data 0))) = expected data /\
  Payload._unpackData (preamble data ++ tail) =
    Payload.Returns (Payload.UObject (carved data 0 tail)) /\
  Forall (fun kv => match snd kv with
                    | Payload.UBytes bytes => bytes = []
                    | Payload.UValue _ => True
                    end) (carved data 0 []).
Proof.
  intros Hser Hun. unfold serializable in Hser.
  split; [| split; [| split]].
  - unfold Payload.packData, preamble, Payload.header.
    destruct (Payload.packLoop data 0) as [obj buffers]. cbn [fst snd].
    rewrite <- app_assoc. reflexivity.
  - apply (carved_packed data 0 []). reflexivity.
  - pose proof (unpackFields_carved) as Hfields.
    unfold preamble. unfold Payload.header in *.
    remember (Payload.encode (JSON.stringify (JSON.JObject (fst (Payload.packLoop data 0)))))
      as objBuffer eqn:Hbuffer.
    remember (length objBuffer) as n eqn:Hlength.
    assert (Hn : 1 <= n).
    { rewrite Hlength, Hbuffer. simpl. lia. }
    destruct (decimal_bytes n) as (Dne & Ddec & Dval).
    rewrite encode_app. change (Payload.encode "!") with ["!"%byte].
    remember (Payload.encode (Payload.decimal n)) as D eqn:HD.
    rewrite <- !app_assoc.
    change (["!"%byte] ++ objBuffer ++ tail) with ("!"%byte :: objBuffer ++ tail).
    remember (D ++ "!"%byte :: objBuffer ++ tail) as packed eqn:Hpacked.
    unfold Payload._unpackData.
    assert (Hdelim : Payload.delimiterIndex packed 0 = Some (length D)).
    { rewrite Hpacked, delimiterIndex_decimal by assumption. reflexivity. }
    rewrite Hdelim.
    assert (Htake : take (length D) packed = D).
    { rewrite Hpacked. apply take_app_length. }
    rewrite Htake, (parseInt_decimal D n Dne Ddec Dval).
    assert (Hlen : length packed = length D + 1 + n + length tail).
    { rewrite Hpacked, length_app. simpl. rewrite length_app. lia. }
    destruct (Z.leb_spec (Z.of_nat n) 0); [lia |].
    destruct (Z.ltb_spec (Z.of_nat (length packed) - Z.of_nat (length D) - 1)
                         (Z.of_nat n)); [lia |].
    cbn [orb]. rewrite Nat2Z.id.
    assert (Hobj : take n (drop (length D + 1) packed) = objBuffer).
    { rewrite Hpacked.
      replace (D ++ "!"%byte :: objBuffer ++ tail)
        with ((D ++ ["!"%byte]) ++ objBuffer ++ tail)
        by (rewrite <- app_assoc; reflexivity).
      rewrite drop_app_length' by (rewrite length_app; simpl; lia).
      rewrite Hlength. apply take_app_length. }
    rewrite Hobj. rewrite Hbuffer at 1.
    unfold Payload.decode, Payload.encode at 1.
    rewrite string_of_list_byte_of_string, Hser.
    specialize (Hfields (D ++ "!"%byte :: objBuffer) tail data 0 Hun).
    rewrite <- app_assoc in Hfields. cbn [app] in Hfields.
    rewrite <- Hpacked in Hfields.
    replace (length D + 1 + n) with (length (D ++ "!"%byte :: objBuffer))
      by (rewrite length_app; simpl; lia).
    rewrite Hfields. reflexivity.
  - apply carved_nil.
Qed.

Lemma unpackData_trusts_header_witness :
  let data : Payload.descriptor :=
    [("buffer"%string, Payload.FBuffer ["a"%byte; "b"%byte; "c"%byte]);
     ("maskBuffer"%string, Payload.FBuffer ["d"%byte; "e"%byte]);
     ("hasMask"%string, Payload.FValue (JSON.JBool true))] in
  Payload._unpackData (preamble data ++ ["a"%byte; "b"%byte]) =
    Payload.Returns (Payload.UObject
      [("buffer"%string, Payload.UBytes ["a"%byte; "b"%byte]);
       ("maskBuffer"%string, Payload.UBytes []);
       ("hasMask"%string, Payload.UValue (JSON.JBool true))]).
Proof.
  intros data.
  assert (H1 : serializable data) by (vm_compute; reflexivity).
  assert (H2 : Forall (fun kv => untagged_field (snd kv)) data)
    by (repeat constructor).
  exact (proj1 (proj2 (proj2
    (unpackData_trusts_header data ["a"%byte; "b"%byte] H1 H2)))).
Defined.

(** ** Where [start()] places the audios *)

Section Placement.
Import JS.

Lemma shift_placed (chunk : VideoChunk.t) (offset : num) (a : Audio.t) :
  placed_at chunk offset a (Audio.shift (VideoChunk.duration chunk) offset a).
Proof.
  unfold placed_at, Audio.shift, local_start, local_end. simpl.
  destruct (Lodash.isFinite (Audio.startTime a)),
           (Lodash.isFinite (Audio.endTime a)); auto.
Qed.

(** The inner loop writes into the instances it is given, once each when
    they are distinct, and into no other. *)
Lemma placeAudios_spec (cd off : num) (rs : list nat) :
  forall (ha : list Audio.t) (b : Synthesizer.t),
  Synthesizer.audios (snd (ChunkSynthesizer.placeAudios cd off rs ha b))
    = Synthesizer.audios b ++ rs /\
  (forall r, r ∉ rs ->
     fst (ChunkSynthesizer.placeAudios cd off rs ha b) !! r = ha !! r) /\
  (NoDup rs -> forall r, r ∈ rs ->
     fst (ChunkSynthesizer.placeAudios cd off rs ha b) !! r
       = Audio.shift cd off <$> ha !! r).
Proof.
  induction rs as [| r0 rs IH]; intros ha b; cbn [ChunkSynthesizer.placeAudios fst snd].
  - rewrite app_nil_r. split; [reflexivity |]. split; [reflexivity |].
    intros _ r Hr. apply elem_of_nil in Hr. contradiction.
  - destruct (IH (Audio.place cd off r0 ha)
                 (Synthesizer.with_audios (Synthesizer.audios b ++ [r0]) b))
      as (Ha & Hframe & Hplaced).
    split; [rewrite Ha; cbn; rewrite <- app_assoc; reflexivity |].
    split.
    + intros r Hr. apply not_elem_of_cons in Hr as [Hne Hnot].
      rewrite (Hframe r Hnot). unfold Audio.place.
      apply list_lookup_alter_ne. congruence.
    + intros Hnd r Hr. apply NoDup_cons in Hnd as [Hnot Hnd].
      apply elem_of_cons in Hr as [-> | Hr].
      * rewrite (Hframe r0 Hnot). unfold Audio.place. apply list_lookup_alter_eq.
      * rewrite (Hplaced Hnd r Hr). unfold Audio.place.
        rewrite list_lookup_alter_ne; [reflexivity |].
        intros ->. contradiction.
Qed.

(** The outer loop: every chunk is found in the store, its audios are
    added in order, and an instance that is on one chunk only, once, is
    moved by the offset of that chunk. *)
Lemma startLoop_spec (hc : list VideoChunk.t) (cs : list nat) :
  forall (off : num) (ha ha' : list Audio.t) (b b' : Synthesizer.t)
         (renders renders' : list ChunkSynthesizer.rendering),
  ChunkSynthesizer.startLoop hc off cs ha b renders = Ok (ha', b', renders') ->
  exists chs,
    Forall2 (fun r c => hc !! r = Some c) cs chs /\
    Synthesizer.audios b' =
      Synthesizer.audios b ++ concat (List.map VideoChunk.audios chs) /\
    (forall r, r ∉ concat (List.map VideoChunk.audios chs) -> ha' !! r = ha !! r) /\
    (NoDup (concat (List.map VideoChunk.audios chs)) ->
     forall i chunk r,
       chs !! i = Some chunk -> r ∈ VideoChunk.audios chunk ->
       ha' !! r = Audio.shift (VideoChunk.duration chunk)
                              (add off (offset_at chs i)) <$> ha !! r).
Proof.
  induction cs as [| r0 cs IH]; intros off ha ha' b b' renders renders' H;
    cbn [ChunkSynthesizer.startLoop] in H.
  - injection H as <- <- <-. exists []. split; [constructor |].
    cbn. rewrite app_nil_r. split; [reflexivity |]. split; [reflexivity |].
    intros _ i chunk r Hc. discriminate Hc.
  - destruct (hc !! r0) as [chunk0 |] eqn:E0; [| discriminate].
    destruct (placeAudios_spec (VideoChunk.duration chunk0) off
                (VideoChunk.audios chunk0) ha b) as (Ha0 & Hframe0 & Hplaced0).
    destruct (IH _ _ _ _ _ _ _ H) as (chs & Hall & Ha & Hframe & Hplaced).
    exists (chunk0 :: chs). split; [constructor; assumption |].
    split; [rewrite Ha, Ha0; cbn; rewrite <- app_assoc; reflexivity |].
    split.
    + intros r Hr. cbn in Hr. apply not_elem_of_app in Hr as [Hr0 Hr].
      rewrite (Hframe r Hr). apply Hframe0, Hr0.
    + cbn [List.map concat]. intros Hnd i chunk r Hc Hr.
      apply NoDup_app in Hnd as (Hnd0 & Hdisj & Hnd).
      destruct i as [| i]; cbn in Hc.
      * injection Hc as <-.
        rewrite (Hframe r (Hdisj r Hr)). unfold offset_at. cbn.
        rewrite add_zero_r. apply Hplaced0; assumption.
      * assert (Hin : r ∈ concat (List.map VideoChunk.audios chs)).
        { apply list_elem_of_In, in_concat. exists (VideoChunk.audios chunk).
          split; [| apply list_elem_of_In, Hr].
          apply in_map, list_elem_of_In, list_elem_of_lookup.
          exists i. exact Hc. }
        rewrite (Hplaced Hnd i chunk r Hc Hr).
        assert (Hnot : r ∉ VideoChunk.audios chunk0).
        { intros Hr0. exact (Hdisj r Hr0 Hin). }
        rewrite (Hframe0 r Hnot). unfold offset_at. cbn.
        rewrite add_assoc. reflexivity.
Qed.

Lemma offset_unrendered (cs : list VideoChunk.t) (i : nat) :
  Forall unrendered (take i cs) ->
  offset_at cs i = total_ms (List.map effective (take i cs)).
Proof. intros H. unfold offset_at. rewrite (map_unrendered _ H). reflexivity. Qed.

End Placement.

(** X25. [ChunkSynthesizer.start()] adds the audios of its chunks to the
    synthesizer, chunk after chunk, and places them on the timeline of the
    whole video in the instances themselves: when every instance is on one
    chunk only, and once, an audio of the chunk of index [i] has its local
    start (0 by default) and its local end (the duration of the chunk by
    default) moved by the sum of [getOutputDuration()] over the chunks
    before it, which is the sum of [duration - transition.duration] while
    these have no frame. *)
Theorem start_places_audios (hc : list VideoChunk.t) (ha ha' : list Audio.t)
    (s s' : ChunkSynthesizer.t) (renders : list ChunkSynthesizer.rendering) :
  ChunkSynthesizer.start hc ha s = Ok (ha', s', renders) ->
  NoDup (concat (List.map VideoChunk.audios (held hc s))) ->
  length (held hc s) = length (ChunkSynthesizer.chunks s) /\
  ChunkSynthesizer.audios s' =
    ChunkSynthesizer.audios s ++ concat (List.map VideoChunk.audios (held hc s)) /\
  forall i chunk r a,
    held hc s !! i = Some chunk -> r ∈ VideoChunk.audios chunk -> ha !! r = Some a ->
    (exists a', ha' !! r = Some a' /\ placed_at chunk (offset_at (held hc s) i) a a') /\
    (Forall unrendered (take i (held hc s)) ->
     offset_at (held hc s) i = total_ms (List.map effective (take i (held hc s)))).
Proof.
  unfold ChunkSynthesizer.start. intros H Hnd.
  destruct (assert _ _) as [[] |]; cbn [bind] in H; [| discriminate].
  destruct (ChunkSynthesizer.startLoop hc JS.zero (ChunkSynthesizer.chunks s) ha
              (ChunkSynthesizer.base s) []) as [[[ha1 b1] renders1] |] eqn:E;
    cbn [bind fst snd] in H; [| discriminate].
  injection H as <- <- <-.
  destruct (startLoop_spec _ _ _ _ _ _ _ _ _ E) as (chs & Hall & Ha & _ & Hplaced).
  assert (Hheld : held hc s = chs) by (apply held_Forall2, Hall).
  rewrite Hheld in *.
  split; [apply Forall2_length in Hall; congruence |].
  split; [exact Ha |].
  intros i chunk r a Hc Hr Hra. split.
  - rewrite (Hplaced Hnd i chunk r Hc Hr), Hra, add_zero_l. cbn.
    eexists. split; [reflexivity | apply shift_placed].
  - apply offset_unrendered.
Qed.

Lemma start_places_audios_witness :
  let plain d :=
    VideoChunk.mkOptions
      (Synthesizer.mkOptions (JS.Num (JS.of_Z 1280)) (JS.Num (JS.of_Z 720))
         (JS.Num (JS.of_Z 30)) (JS.Num (JS.of_Z d)) None None
         JS.Undefined JS.Undefined JS.Undefined JS.Undefined JS.Undefined None)
      (Some (Transition.Id "fade")) in
  let music :=
    Audio.mk JS.Undefined (Some "music.mp3"%string) None (JS.Num (JS.of_Z 200))
             JS.Undefined JS.Undefined JS.Undefined JS.Undefined in
  let o := Synthesizer.mkOptions (JS.Num (JS.of_Z 1280)) (JS.Num (JS.of_Z 720))
             (JS.Num (JS.of_Z 30)) JS.Undefined None (Some "out.mp4"%string)
             JS.Undefined JS.Undefined JS.Undefined JS.Undefined JS.Undefined None in
  exists c1 c2 ha hc s ha' s' renders,
    VideoChunk.constructor (plain 5000%Z) = Ok c1 /\
    (do c <- VideoChunk.constructor (plain 3000%Z);
     VideoChunk.addAudio [] c (Audio.Plain music)) = Ok (ha, c2, 0) /\
    ChunkSynthesizer.constructor [c1; c2] o
      [VideoChunk.Instance 0; VideoChunk.Instance 1] = Ok (hc, s) /\
    ChunkSynthesizer.start hc ha s = Ok (ha', s', renders) /\
    NoDup (concat (List.map VideoChunk.audios (held hc s))) /\
    ChunkSynthesizer.audios s' = [0] /\
    (exists chunk a a',
       held hc s !! 1 = Some chunk /\ ha !! 0 = Some a /\ ha' !! 0 = Some a' /\
       placed_at chunk (offset_at (held hc s) 1) a a' /\
       JS.eqb (JS.ToNumber (Audio.startTime a')) (JS.of_Z 4700) = true).
Proof.
  intros plain music o.
  destruct (VideoChunk.constructor (plain 5000%Z)) as [c1 |] eqn:E1;
    [| vm_compute in E1; discriminate E1].
  destruct (do c <- VideoChunk.constructor (plain 3000%Z);
            VideoChunk.addAudio [] c (Audio.Plain music))
    as [[[ha c2] r] |] eqn:E2; [| vm_compute in E2; discriminate E2].
  assert (Er : r = 0) by (vm_compute in E2; injection E2 as _ _ <-; reflexivity).
  subst r.
  destruct (ChunkSynthesizer.constructor [c1; c2] o
              [VideoChunk.Instance 0; VideoChunk.Instance 1]) as [[hc s] |] eqn:E3.
  2: { vm_compute in E1. injection E1 as <-. vm_compute in E2. injection E2 as <- <-.
       vm_compute in E3. discriminate E3. }
  destruct (ChunkSynthesizer.start hc ha s) as [[[ha' s'] renders] |] eqn:E4.
  2: { vm_compute in E1. injection E1 as <-. vm_compute in E2. injection E2 as <- <-.
       vm_compute in E3. injection E3 as <- <-. vm_compute in E4. discriminate E4. }
  assert (Hnd : NoDup (concat (List.map VideoChunk.audios (held hc s)))).
  { vm_compute in E1. injection E1 as <-. vm_compute in E2. injection E2 as <- <-.
    vm_compute in E3. injection E3 as <- <-.
    apply NoDup_ListNoDup. repeat constructor. simpl. tauto. }
  destruct (start_places_audios hc ha ha' s s' renders E4 Hnd) as (_ & Haud & Hplace).
  exists c1, c2, ha, hc, s, ha', s', renders.
  repeat (split; [first [reflexivity | assumption] |]).
  split.
  { rewrite Haud.
    vm_compute in E1. injection E1 as <-. vm_compute in E2. injection E2 as <- <-.
    vm_compute in E3. injection E3 as <- <-. reflexivity. }
  assert (Hc : held hc s !! 1 = Some (VideoChunk.with_audios [0] c2)
               /\ ha !! 0 <> None).
  { vm_compute in E1. injection E1 as <-. vm_compute in E2. injection E2 as <- <-.
    vm_compute in E3. injection E3 as <- <-. split; [reflexivity | discriminate]. }
  destruct Hc as [Hc Hna].
  destruct (ha !! 0) as [a |] eqn:Ea; [| contradiction].
  destruct (Hplace 1 _ 0 a Hc) as ((a' & Ha' & Hp) & _); [| exact Ea |].
  { cbn. constructor. }
  exists (VideoChunk.with_audios [0] c2), a, a'.
  repeat (split; [first [reflexivity | assumption] |]).
  vm_compute in E1. injection E1 as <-. vm_compute in E2. injection E2 as <- <-.
  vm_compute in E3. injection E3 as <- <-. vm_compute in E4. injection E4 as <- <- <-.
  vm_compute in Ea. injection Ea as <-.
  vm_compute in Ha'. injection Ha' as <-. reflexivity.
Defined.
